(** * HArDCore3D: polynomial bases, Gram matrices and the hybrid interpolant

    A shallow embedding of [src/Common/basis.cpp] and of the template
    members of [src/HybridCore/hybridcore.hpp], and the properties of them
    that the specification states.

    Conventions of the embedding.
    - [double] is an abstract scalar type [R] with the operations the code
      uses ([ScalarOps]).  Rounding is not modelled: where a property needs
      algebra (associativity, neutral elements), the laws are the explicit
      assumption [ScalarLaws]; every property proved without it holds for any
      interpretation of the operations.
    - [size_t] loop counters are [nat]; [int] exponents are [Z].
    - [assert] and the range checks of [Eigen] and [boost::multi_array] are
      active (a build without [NDEBUG]): in [compute_gram_matrix] and in the
      integration helpers a failed check is an [Err] result.
    - [interpolate] is a total function of the values that its collaborators
      return (the quadrature generator, [basis_quad], [gram_matrix], the
      solver, [compute_weights], the basis functions); a vector read past its
      end gives zero.  The properties of [interpolate] are stated at indices
      inside the vector.
    - A C++ [for] loop is [for_loop] (state passing) or [for_loopM] (state
      passing with failure). *)

From stdpp Require Import list strings.
From Stdlib Require Import ZArith Lia.

(** ** Scalars *)

Class ScalarOps (R : Type) : Type := {
  s_zero : R;
  s_one : R;
  s_add : R → R → R;
  s_sub : R → R → R;
  s_mul : R → R → R;
  s_div : R → R → R;
  s_of_Z : Z → R;
}.

Declare Scope scalar_scope.
Delimit Scope scalar_scope with sc.
Infix "+" := s_add : scalar_scope.
Infix "-" := s_sub : scalar_scope.
Infix "*" := s_mul : scalar_scope.
Infix "/" := s_div : scalar_scope.

(** The algebra of the real numbers that some properties rely on. *)
Class ScalarLaws (R : Type) `{ScalarOps R} : Prop := {
  s_add_0_l : ∀ x : R, (s_zero + x)%sc = x;
  s_add_0_r : ∀ x : R, (x + s_zero)%sc = x;
  s_add_assoc : ∀ x y z : R, (x + (y + z))%sc = ((x + y) + z)%sc;
  s_mul_1_l : ∀ x : R, (s_one * x)%sc = x;
  s_mul_1_r : ∀ x : R, (x * s_one)%sc = x;
  s_mul_0_l : ∀ x : R, (s_zero * x)%sc = s_zero;
  s_mul_0_r : ∀ x : R, (x * s_zero)%sc = s_zero;
  s_mul_assoc : ∀ x y z : R, (x * (y * z))%sc = ((x * y) * z)%sc;
  s_div_0_l : ∀ h : R, h ≠ s_zero → (s_zero / h)%sc = s_zero;
}.

(** The integers are a model of the scalars, used to run the definitions. *)
#[export] Instance Z_scalar_ops : ScalarOps Z := {|
  s_zero := 0%Z;
  s_one := 1%Z;
  s_add := Z.add;
  s_sub := Z.sub;
  s_mul := Z.mul;
  s_div := Z.div;
  s_of_Z := fun z => z;
|}.

(** ** Loops *)

(** [for (size_t x = lo; x < hi; x++) s = body x s] *)
Definition for_loop {S : Type} (lo hi : nat) (body : nat → S → S) (s : S) : S :=
  fold_left (fun s x => body x s) (seq lo (hi - lo)) s.

(** ** Results of fallible code *)

Inductive error : Type :=
  | PreconditionFailure   (* a failed [assert] of the function itself *)
  | IndexOutOfRange.      (* a failed range check of a container access *)

Inductive result (A : Type) : Type :=
  | Ok (a : A)
  | Err (e : error).
Arguments Ok {A} a.
Arguments Err {A} e.

#[export] Instance result_ret : MRet result := fun A a => Ok a.
#[export] Instance result_bind : MBind result := fun A B k m =>
  match m with
  | Ok a => k a
  | Err e => Err e
  end.

Definition assert (b : bool) : result unit :=
  if b then Ok tt else Err PreconditionFailure.

Definition of_option {A : Type} (o : option A) : result A :=
  match o with
  | Some a => Ok a
  | None => Err IndexOutOfRange
  end.

(** [for (size_t x = lo; x < hi; x++) body], where the body may fail. *)
Definition for_loopM {S : Type} (lo hi : nat) (body : nat → S → result S) (s : S)
  : result S :=
  fold_left (fun r x => s ← r; body x s) (seq lo (hi - lo)) (Ok s).

(** ** Vectors of the ambient space *)

Definition dimspace : nat := 3.

Record Vector3 (A : Type) : Type := mkV3 { c0 : A; c1 : A; c2 : A }.
Arguments mkV3 {A} _ _ _.
Arguments c0 {A} _.
Arguments c1 {A} _.
Arguments c2 {A} _.

Record Vector2 (A : Type) : Type := mkV2 { d0 : A; d1 : A }.
Arguments mkV2 {A} _ _.
Arguments d0 {A} _.
Arguments d1 {A} _.

(** [VectorZd] is [Eigen::Matrix<int, 3, 1>], [Eigen::Vector2i] its planar
    analogue. *)
Definition VectorZd : Type := Vector3 Z.
Definition Vector2i : Type := Vector2 Z.

Section Basis.
Context {R : Type} `{ScalarOps R}.
Local Open Scope scalar_scope.

Definition VectorRd : Type := Vector3 R.
Definition Vector2d : Type := Vector2 R.

Definition v_zero : VectorRd := mkV3 s_zero s_zero s_zero.
Definition v_sub (x y : VectorRd) : VectorRd :=
  mkV3 (c0 x - c0 y) (c1 x - c1 y) (c2 x - c2 y).
(** [v / h] *)
Definition v_div (v : VectorRd) (h : R) : VectorRd :=
  mkV3 (c0 v / h) (c1 v / h) (c2 v / h).
(** [a * v] *)
Definition v_scale (a : R) (v : VectorRd) : VectorRd :=
  mkV3 (a * c0 v) (a * c1 v) (a * c2 v).
(** [x.dot(y)] *)
Definition v_dot (x y : VectorRd) : R :=
  c0 x * c0 y + c1 x * c1 y + c2 x * c2 y.

(** [std::pow(y, n)] for an integer exponent. *)
Fixpoint pow_nat (y : R) (n : nat) : R :=
  match n with
  | O => s_one
  | S k => y * pow_nat y k
  end.

Definition s_pow (y : R) (n : Z) : R :=
  if (0 <=? n)%Z then pow_nat y (Z.to_nat n)
  else s_one / pow_nat y (Z.to_nat (- n)).

(** *** Scalar monomial basis on a cell *)

(** What the constructor reads of a [Cell]. *)
Record Cell : Type := {
  cell_center_mass : VectorRd;
  cell_diam : R;
}.

Record MonomialScalarBasisCell : Type := {
  mc_degree : nat;
  mc_xT : VectorRd;
  mc_hT : R;
  mc_powers : list VectorZd;
}.

(** The loop nest of the constructor.  The innermost loop
    [for (j = 0; i + j <= l; j++)] runs [j] over [0 .. l - i]. *)
Definition cell_generate_powers (degree : nat) : list VectorZd :=
  for_loop 0 (S degree) (fun l powers =>
    for_loop 0 (S l) (fun i powers =>
      for_loop 0 (S (l - i)) (fun j powers =>
        powers ++ [mkV3 (Z.of_nat i) (Z.of_nat j) (Z.of_nat (l - i - j))])
      powers)
    powers) [].

Definition MonomialScalarBasisCell_new (T : Cell) (degree : nat)
  : MonomialScalarBasisCell :=
  {| mc_degree := degree;
     mc_xT := cell_center_mass T;
     mc_hT := cell_diam T;
     mc_powers := cell_generate_powers degree |}.

(** Modelled from the spec: [_coordinate_transform] of the cell basis is
    declared in basis.hpp; the specification gives
    [y = (x - centerOfMass) / diameter], componentwise. *)
Definition cell_coordinate_transform (b : MonomialScalarBasisCell) (x : VectorRd)
  : VectorRd :=
  v_div (v_sub x (mc_xT b)) (mc_hT b).

(** [MonomialScalarBasisCell::function]; [None] is an index past the end
    of [m_powers]. *)
Definition cell_function (b : MonomialScalarBasisCell) (i : nat) (x : VectorRd)
  : option R :=
  let y := cell_coordinate_transform b x in
  powers ← mc_powers b !! i;
  Some (s_pow (c0 y) (c0 powers) * s_pow (c1 y) (c1 powers)
        * s_pow (c2 y) (c2 powers)).

(** [MonomialScalarBasisCell::gradient] *)
Definition cell_gradient (b : MonomialScalarBasisCell) (i : nat) (x : VectorRd)
  : option VectorRd :=
  let y := cell_coordinate_transform b x in
  powers ← mc_powers b !! i;
  let g0 :=
    if (c0 powers =? 0)%Z then s_zero
    else s_of_Z (c0 powers) * s_pow (c0 y) (c0 powers - 1)
         * s_pow (c1 y) (c1 powers) * s_pow (c2 y) (c2 powers) in
  let g1 :=
    if (c1 powers =? 0)%Z then s_zero
    else s_pow (c0 y) (c0 powers) * s_of_Z (c1 powers)
         * s_pow (c1 y) (c1 powers - 1) * s_pow (c2 y) (c2 powers) in
  let g2 :=
    if (c2 powers =? 0)%Z then s_zero
    else s_pow (c0 y) (c0 powers) * s_pow (c1 y) (c1 powers)
         * s_of_Z (c2 powers) * s_pow (c2 y) (c2 powers - 1) in
  Some (v_div (mkV3 g0 g1 g2) (mc_hT b)).

(** *** Scalar monomial basis on a face *)

(** What the constructor reads of a [Face]: [edge0_tangent] is
    [F.edge(0)->tangent()], [edge0_normal] is [F.edge_normal(0)]. *)
Record Face : Type := {
  face_center_mass : VectorRd;
  face_diam : R;
  face_normal : VectorRd;
  face_edge0_tangent : VectorRd;
  face_edge0_normal : VectorRd;
}.

(** [m_jacobian] is a 2 x 3 matrix, kept as its two rows. *)
Record MonomialScalarBasisFace : Type := {
  mf_degree : nat;
  mf_xF : VectorRd;
  mf_hF : R;
  mf_nF : VectorRd;
  mf_jacobian : Vector2 VectorRd;
  mf_powers : list Vector2i;
}.

Definition face_generate_powers (degree : nat) : list Vector2i :=
  for_loop 0 (S degree) (fun l powers =>
    for_loop 0 (S l) (fun i powers =>
      powers ++ [mkV2 (Z.of_nat i) (Z.of_nat (l - i))])
    powers) [].

Definition MonomialScalarBasisFace_new (F : Face) (degree : nat)
  : MonomialScalarBasisFace :=
  {| mf_degree := degree;
     mf_xF := face_center_mass F;
     mf_hF := face_diam F;
     mf_nF := face_normal F;
     mf_jacobian := mkV2 (v_div (face_edge0_tangent F) (face_diam F))
                         (v_div (face_edge0_normal F) (face_diam F));
     mf_powers := face_generate_powers degree |}.

(** Modelled from the spec: [_coordinate_transform] of the face basis is
    declared in basis.hpp; the specification gives the projection of
    [x - centerOfMass] onto the in-plane frame divided by the diameter,
    that is [m_jacobian * (x - m_xF)]. *)
Definition face_coordinate_transform (b : MonomialScalarBasisFace) (x : VectorRd)
  : Vector2d :=
  mkV2 (v_dot (d0 (mf_jacobian b)) (v_sub x (mf_xF b)))
       (v_dot (d1 (mf_jacobian b)) (v_sub x (mf_xF b))).

(** [m_jacobian.transpose() * grad] *)
Definition jacobian_transpose_mul (J : Vector2 VectorRd) (g : Vector2d) : VectorRd :=
  mkV3 (c0 (d0 J) * d0 g + c0 (d1 J) * d1 g)
       (c1 (d0 J) * d0 g + c1 (d1 J) * d1 g)
       (c2 (d0 J) * d0 g + c2 (d1 J) * d1 g).

(** [MonomialScalarBasisFace::function] *)
Definition face_function (b : MonomialScalarBasisFace) (i : nat) (x : VectorRd)
  : option R :=
  let y := face_coordinate_transform b x in
  powers ← mf_powers b !! i;
  Some (s_pow (d0 y) (d0 powers) * s_pow (d1 y) (d1 powers)).

(** [MonomialScalarBasisFace::gradient] *)
Definition face_gradient (b : MonomialScalarBasisFace) (i : nat) (x : VectorRd)
  : option VectorRd :=
  let y := face_coordinate_transform b x in
  powers ← mf_powers b !! i;
  let g0 :=
    if (d0 powers =? 0)%Z then s_zero
    else s_of_Z (d0 powers) * s_pow (d0 y) (d0 powers - 1)
         * s_pow (d1 y) (d1 powers) in
  let g1 :=
    if (d1 powers =? 0)%Z then s_zero
    else s_pow (d0 y) (d0 powers) * s_of_Z (d1 powers)
         * s_pow (d1 y) (d1 powers - 1) in
  Some (jacobian_transpose_mul (mf_jacobian b) (mkV2 g0 g1)).

(** *** Scalar monomial basis on an edge *)

Record Edge : Type := {
  edge_center_mass : VectorRd;
  edge_diam : R;
  edge_tangent : VectorRd;
}.

Record MonomialScalarBasisEdge : Type := {
  me_degree : nat;
  me_xE : VectorRd;
  me_hE : R;
  me_tE : VectorRd;
}.

(** The constructor stores no exponent: slot [i] is the monomial of
    exponent [i]. *)
Definition MonomialScalarBasisEdge_new (E : Edge) (degree : nat)
  : MonomialScalarBasisEdge :=
  {| me_degree := degree;
     me_xE := edge_center_mass E;
     me_hE := edge_diam E;
     me_tE := edge_tangent E |}.

(** Modelled from the spec: [dimension()] of the edge basis is declared in
    basis.hpp; the specification gives [m + 1] slots for degree [m]. *)
Definition edge_dimension (b : MonomialScalarBasisEdge) : nat :=
  me_degree b + 1.

(** The exponent of slot [i], as [function] and [gradient] use it. *)
Definition edge_exponent (i : nat) : Z := Z.of_nat i.

Definition edge_exponents (b : MonomialScalarBasisEdge) : list Z :=
  map edge_exponent (seq 0 (edge_dimension b)).

(** Modelled from the spec: [_coordinate_transform] of the edge basis is
    declared in basis.hpp; the specification gives the projection of
    [x - centerOfMass] onto the unit tangent divided by the diameter. *)
Definition edge_coordinate_transform (b : MonomialScalarBasisEdge) (x : VectorRd)
  : R :=
  v_dot (v_sub x (me_xE b)) (me_tE b) / me_hE b.

(** [MonomialScalarBasisEdge::function] *)
Definition edge_function (b : MonomialScalarBasisEdge) (i : nat) (x : VectorRd) : R :=
  s_pow (edge_coordinate_transform b x) (edge_exponent i).

(** [MonomialScalarBasisEdge::gradient] *)
Definition edge_gradient (b : MonomialScalarBasisEdge) (i : nat) (x : VectorRd)
  : VectorRd :=
  v_scale
    (if (i =? 0)%nat then s_zero
     else s_of_Z (Z.of_nat i)
          * s_pow (edge_coordinate_transform b x) (edge_exponent i - 1)
          / me_hE b)
    (me_tE b).

End Basis.

Arguments VectorRd R : clear implicits.
Arguments Vector2d R : clear implicits.
Arguments Cell R : clear implicits.
Arguments Face R : clear implicits.
Arguments Edge R : clear implicits.
Arguments MonomialScalarBasisCell R : clear implicits.
Arguments MonomialScalarBasisFace R : clear implicits.
Arguments MonomialScalarBasisEdge R : clear implicits.

(** ** Arrays, matrices and quadrature rules *)

(** [boost::multi_array<T, 2>]: its two extents and its elements.  An access
    checks the indices against the extents. *)
Record multi_array (T : Type) : Type := {
  ma_shape0 : nat;
  ma_shape1 : nat;
  ma_elem : nat → nat → T;
}.
Arguments ma_shape0 {T} _.
Arguments ma_shape1 {T} _.
Arguments ma_elem {T} _ _ _.

(** [B[i][q]] *)
Definition ma_get {T : Type} (B : multi_array T) (i q : nat) : option T :=
  if (i <? ma_shape0 B) && (q <? ma_shape1 B) then Some (ma_elem B i q) else None.

(** [B[ boost::indices[i][index_range(0, n)] ]]: the first [n] entries of row
    [i], as a one-dimensional array. *)
Definition ma_row_range {T : Type} (B : multi_array T) (i n : nat) : option (list T) :=
  if (i <? ma_shape0 B) && (n <=? ma_shape1 B)
  then Some (map (ma_elem B i) (seq 0 n)) else None.

(** One node of a [QuadratureRule]: a point and a weight. *)
Record QuadratureNode (R : Type) : Type := {
  qx : R;
  qy : R;
  qz : R;
  qw : R;
}.
Arguments qx {R} _.
Arguments qy {R} _.
Arguments qz {R} _.
Arguments qw {R} _.

(** [QuadratureRule] is [std::vector<QuadratureNode>]. *)
Abbreviation QuadratureRule R := (list (QuadratureNode R)).

Section Gram.
Context {R : Type} `{ScalarOps R}.
Local Open Scope scalar_scope.

(** [Eigen::MatrixXd]: its dimensions and its rows.  [M(i,j)] checks the
    indices against the dimensions. *)
Record MatrixXd : Type := {
  m_rows : nat;
  m_cols : nat;
  m_data : list (list R);
}.

(** [Eigen::MatrixXd::Zero(r, c)] *)
Definition mat_zero (r c : nat) : MatrixXd :=
  {| m_rows := r; m_cols := c; m_data := replicate r (replicate c s_zero) |}.

Definition mat_in_range (M : MatrixXd) (i j : nat) : bool :=
  (i <? m_rows M) && (j <? m_cols M).

(** Reading [M(i,j)] *)
Definition mat_get (M : MatrixXd) (i j : nat) : option R :=
  if mat_in_range M i j then row ← m_data M !! i; row !! j else None.

(** [M(i,j) = v] *)
Definition mat_set (M : MatrixXd) (i j : nat) (v : R) : option MatrixXd :=
  if mat_in_range M i j
  then Some {| m_rows := m_rows M; m_cols := m_cols M;
               m_data := alter (<[j := v]>) i (m_data M) |}
  else None.

(** The dimensions agree with the stored rows. *)
Definition mat_wf (M : MatrixXd) : Prop :=
  length (m_data M) = m_rows M ∧ Forall (fun row => length row = m_cols M) (m_data M).

Definition mat_transpose (M : MatrixXd) : MatrixXd :=
  {| m_rows := m_cols M;
     m_cols := m_rows M;
     m_data := map (fun j => map (fun i => default s_zero (mat_get M i j))
                                 (seq 0 (m_rows M)))
                   (seq 0 (m_cols M)) |}.

(** The sum of a sequence of terms, accumulated from zero in order. *)
Definition ssum (l : list R) : R := fold_left s_add l s_zero.

(** [a.sum()] of an [Eigen::ArrayXd]: zero for the empty array, otherwise
    the reduction started at the first coefficient. *)
Definition array_sum (a : list R) : R :=
  match a with
  | [] => s_zero
  | x :: a' => fold_left s_add a' x
  end.

(** [Eigen::ArrayXd a = Zero(n); for (i < n) a(i) = f(i);] *)
Definition fill_array (n : nat) (f : nat → result R) : result (list R) :=
  for_loopM 0 n (fun i a => v ← f i; Ok (<[i := v]> a)) (replicate n s_zero).

(** The coefficient-wise product of two [Eigen] arrays. *)
Definition array_mul (a b : list R) : list R := zip_with s_mul a b.

(** [scalar_product(x, y)] on scalars and on vectors. *)
Definition scalar_product_double (x y : R) : R := x * y.
Definition scalar_product_vector (x y : VectorRd R) : R := v_dot x y.

(** [ek = VectorRd::Zero(); ek(k) = 1.] *)
Definition unit_vector (k : nat) : VectorRd R :=
  match k with
  | 0 => mkV3 s_one s_zero s_zero
  | 1 => mkV3 s_zero s_one s_zero
  | 2 => mkV3 s_zero s_zero s_one
  | _ => v_zero
  end.

(** [&a[0]] for a one-dimensional [boost::multi_array]: the access [a[0]]
    is checked against the extent of [a]; the pointer designates the
    storage of [a] from its first element on. *)
Definition origin_pointer {T : Type} (a : list T) : option (list T) :=
  _ ← a !! 0; Some a.

(** [Eigen::Map<Eigen::ArrayXd, Eigen::Unaligned>(p, n)]: the [n]
    coefficients stored at [p]. *)
Definition eigen_map {T : Type} (p : list T) (n : nat) : list T := take n p.

(** The weights of the rule, recast as an array (both sized overloads). *)
Definition quadrature_weights (qr : QuadratureRule R) : result (list R) :=
  fill_array (length qr) (fun iqn => of_option (qw <$> qr !! iqn)).

(** [compute_gram_matrix], [Vector3d] for [B1], tensorialised [double] for
    [B2]. *)
Definition compute_gram_matrix_vs
    (B1 : multi_array (VectorRd R)) (B2 : multi_array R) (qr : QuadratureRule R)
  : result MatrixXd :=
  _ ← assert ((length qr =? ma_shape1 B1) && (length qr =? ma_shape1 B2));
  for_loopM 0 (ma_shape0 B1) (fun i M =>
    for_loopM 0 dimspace (fun k M =>
      let ek := unit_vector k in
      for_loopM 0 (ma_shape0 B2) (fun j M =>
        for_loopM 0 (length qr) (fun iqn M =>
          nd ← of_option (qr !! iqn);
          b1 ← of_option (ma_get B1 i iqn);
          b2 ← of_option (ma_get B2 j iqn);
          old ← of_option (mat_get M i (k * ma_shape0 B2 + j));
          of_option (mat_set M i (k * ma_shape0 B2 + j)
                       (old + qw nd * v_dot b1 ek * b2)))
        M)
      M)
    M)
  (mat_zero (ma_shape0 B1) (dimspace * ma_shape0 B2)).

(** The copy from the transposed entries, rows [i] of both sized
    overloads: [for (j < jcut) M(i, j) = M(j, i);] *)
Definition copy_from_transpose (i jcut : nat) (M : MatrixXd) : result MatrixXd :=
  for_loopM 0 jcut (fun j M =>
    v ← of_option (mat_get M j i);
    of_option (mat_set M i j v))
  M.

(** [compute_gram_matrix] for [double]-valued [B1], [B2]. *)
Definition compute_gram_matrix_ss
    (B1 B2 : multi_array R) (qr : QuadratureRule R) (nrows ncols : nat) (sym : string)
  : result MatrixXd :=
  _ ← assert ((length qr =? ma_shape1 B1) && (length qr =? ma_shape1 B2));
  _ ← assert ((nrows <=? ma_shape0 B1) && (ncols <=? ma_shape0 B2));
  qr_weights ← quadrature_weights qr;
  for_loopM 0 nrows (fun i M =>
    let jcut := if String.eqb sym "sym" then i else 0 in
    M ← copy_from_transpose i jcut M;
    for_loopM jcut ncols (fun j M =>
      B1i ← of_option (ma_row_range B1 i (ma_shape1 B1));
      B2j ← of_option (ma_row_range B2 j (ma_shape1 B1));
      p1 ← of_option (origin_pointer B1i);
      p2 ← of_option (origin_pointer B2j);
      let B1i_as_array := eigen_map p1 (length B1i) in
      let B2j_as_array := eigen_map p2 (length B2j) in
      of_option (mat_set M i j
                   (array_sum (array_mul (array_mul qr_weights B1i_as_array)
                                         B2j_as_array))))
    M)
  (mat_zero nrows ncols).

(** [compute_gram_matrix] for a [double]-valued complete family. *)
Definition compute_gram_matrix_ss_full
    (B1 B2 : multi_array R) (qr : QuadratureRule R) (sym : string) : result MatrixXd :=
  compute_gram_matrix_ss B1 B2 qr (ma_shape0 B1) (ma_shape0 B2) sym.

(** [compute_gram_matrix] for [Vector3d]-valued [B1] and [B2]. *)
Definition compute_gram_matrix_vv
    (B1 B2 : multi_array (VectorRd R)) (qr : QuadratureRule R) (nrows ncols : nat)
    (sym : string)
  : result MatrixXd :=
  _ ← assert ((length qr =? ma_shape1 B1) && (length qr =? ma_shape1 B2));
  _ ← assert ((nrows <=? ma_shape0 B1) && (ncols <=? ma_shape0 B2));
  qr_weights ← quadrature_weights qr;
  for_loopM 0 nrows (fun i M =>
    let jcut := if String.eqb sym "sym" then i else 0 in
    M ← copy_from_transpose i jcut M;
    for_loopM jcut ncols (fun j M =>
      B1i_dot_B2j ← fill_array (length qr) (fun iqn =>
        b1 ← of_option (ma_get B1 i iqn);
        b2 ← of_option (ma_get B2 j iqn);
        Ok (v_dot b1 b2));
      of_option (mat_set M i j (array_sum (array_mul qr_weights B1i_dot_B2j))))
    M)
  (mat_zero nrows ncols).

(** [compute_gram_matrix] for a [Vector3d]-valued complete family. *)
Definition compute_gram_matrix_vv_full
    (B1 B2 : multi_array (VectorRd R)) (qr : QuadratureRule R) (sym : string)
  : result MatrixXd :=
  compute_gram_matrix_vv B1 B2 qr (ma_shape0 B1) (ma_shape0 B2) sym.

(** The weight of node [q] (zero past the end of the rule). *)
Definition weight_at (qr : QuadratureRule R) (q : nat) : R :=
  default s_zero (qw <$> qr !! q).

(** The entry that the specification gives for row [i] and column [j]:
    the sum over the nodes [q] of [weight(q) * ip (B1_i(q)) (B2_j(q))]. *)
Definition gram_entry {T : Type} (ip : T → T → R)
    (B1 B2 : multi_array T) (qr : QuadratureRule R) (i j : nat) : R :=
  ssum (map (fun q => weight_at qr q * ip (ma_elem B1 i q) (ma_elem B2 j q))
            (seq 0 (length qr))).

(** The entry that the specification gives for the mixed overload, in the
    column block of the axis [k]: the sum over the nodes of
    [weight(q) * ((B1_i(q) . e_k) * B2_j(q))]. *)
Definition gram_entry_axis
    (B1 : multi_array (VectorRd R)) (B2 : multi_array R) (qr : QuadratureRule R)
    (i k j : nat) : R :=
  ssum (map (fun q => weight_at qr q
                      * (v_dot (ma_elem B1 i q) (unit_vector k) * ma_elem B2 j q))
            (seq 0 (length qr))).

End Gram.

Arguments MatrixXd R : clear implicits.

(** ** The hybrid space *)

Section HybridCore.
Context {R : Type} `{ScalarOps R}.

(** What [HybridCore] reads of the mesh: [cell_face_index iT ilF] is
    [cell(iT)->face(ilF)->global_index()], and [face(iF)] is the face of
    global index [iF]. *)
Record Mesh : Type := {
  n_cells : nat;
  n_faces : nat;
  cell_center : nat → VectorRd R;
  cell_n_faces : nat → nat;
  cell_face_index : nat → nat → nat;
  face_center : nat → VectorRd R;
}.

(** The arguments of the constructor. *)
Record HybridCore : Type := {
  hc_mesh : Mesh;
  hc_K : nat;
  hc_L : Z;
}.

(** Modelled from the spec: [dim_Pcell] and [dim_Pface] are defined in
    hybridcore.cpp; the specification gives [(m+1)(m+2)(m+3)/6] and
    [(m+1)(m+2)/2]. *)
Definition dim_Pcell (m : nat) : nat := (m + 1) * (m + 2) * (m + 3) / 6.
Definition dim_Pface (m : nat) : nat := (m + 1) * (m + 2) / 2.

(** Modelled from the spec: the constructor is defined in hybridcore.cpp;
    the header documents [Ldeg] as "usually equal to L, but put at 0 if
    L=-1", and the specification gives the degree-of-freedom counts. *)
Definition Ldeg (hc : HybridCore) : nat := Z.to_nat (Z.max (hc_L hc) 0).
Definition nlocal_cell_dofs (hc : HybridCore) : nat := dim_Pcell (Ldeg hc).
Definition nlocal_face_dofs (hc : HybridCore) : nat := dim_Pface (hc_K hc).
Definition ntotal_cell_dofs (hc : HybridCore) : nat :=
  n_cells (hc_mesh hc) * nlocal_cell_dofs hc.
Definition ntotal_face_dofs (hc : HybridCore) : nat :=
  n_faces (hc_mesh hc) * nlocal_face_dofs hc.
Definition ntotal_dofs (hc : HybridCore) : nat :=
  ntotal_cell_dofs hc + ntotal_face_dofs hc.

(** Reading an [Eigen::VectorXd] (zero past its end), and a node of a rule. *)
Definition vec_get (v : list R) (i : nat) : R := default s_zero (v !! i).

Definition zero_node : QuadratureNode R :=
  {| qx := s_zero; qy := s_zero; qz := s_zero; qw := s_zero |}.
Definition node_at (quad : QuadratureRule R) (iqn : nat) : QuadratureNode R :=
  default zero_node (quad !! iqn).

(** [phi_quad[i](iqn)] *)
Definition phi_at (phi_quad : list (list R)) (i iqn : nat) : R :=
  vec_get (default [] (phi_quad !! i)) iqn.

(** [X.segment(offset, n) = U] *)
Definition set_segment (offset n : nat) (U X : list R) : list R :=
  for_loop 0 n (fun k X => <[offset + k := vec_get U k]> X) X.

(** The collaborators: the quadrature generator, the members of
    [HybridCore] defined in hybridcore.cpp, and the solver of [Eigen]. *)
Variable generate_quadrature_rule_cell : nat → nat → QuadratureRule R.
Variable generate_quadrature_rule_face : nat → nat → QuadratureRule R.
Variable basis_quad : string → nat → QuadratureRule R → nat → list (list R).
Variable gram_matrix :
  list (list R) → list (list R) → nat → nat → QuadratureRule R → bool → MatrixXd R.
Variable ldlt_solve : MatrixXd R → list R → list R.
Variable compute_weights : nat → list R.
Variable cell_basis : nat → nat → R → R → R → R.
Variable face_basis : nat → nat → R → R → R → R.

Variable hc : HybridCore.

(** *** Integration helpers *)

(** [quadrature_over_cell]: the evaluator [f] acts on a state [S]. *)
Definition quadrature_over_cell {S : Type} (iT : nat)
    (f : nat → R → R → R → R → S → S) (s : S) : result S :=
  _ ← assert (iT <? n_cells (hc_mesh hc));
  let quadT := generate_quadrature_rule_cell iT (2 * Ldeg hc + 2) in
  Ok (for_loop 0 (length quadT) (fun iqn s =>
        let nd := node_at quadT iqn in
        f iqn (qx nd) (qy nd) (qz nd) (qw nd) s) s).

(** [quadrature_over_face] *)
Definition quadrature_over_face {S : Type} (iF : nat)
    (f : nat → R → R → R → R → S → S) (s : S) : result S :=
  _ ← assert (iF <? n_faces (hc_mesh hc));
  let quadF := generate_quadrature_rule_face iF (2 * hc_K hc + 2) in
  Ok (for_loop 0 (length quadF) (fun iqn s =>
        let nd := node_at quadF iqn in
        f iqn (qx nd) (qy nd) (qz nd) (qw nd) s) s).

(** [integrate_over_cell]: the state of the evaluator is [ans]. *)
Definition integrate_over_cell (iT : nat) (f : R → R → R → R) : result R :=
  _ ← assert (iT <? n_cells (hc_mesh hc));
  quadrature_over_cell iT (fun iQN x y z w ans => (ans + w * f x y z)%sc) s_zero.

(** [integrate_over_face] *)
Definition integrate_over_face (iF : nat) (f : R → R → R → R) : result R :=
  _ ← assert (iF <? n_faces (hc_mesh hc));
  quadrature_over_face iF (fun iQN x y z w ans => (ans + w * f x y z)%sc) s_zero.

(** *** Interpolation *)

(** The vector of the integrals of [f] against the basis functions:
    [b = Zero(n); for (i < n) for (iqn < quad.size())
       b(i) += quad[iqn].w * phi_quad[i](iqn) * f(quad[iqn].x, .y, .z);] *)
Definition load_vector (n : nat) (quad : QuadratureRule R)
    (phi_quad : list (list R)) (f : R → R → R → R) : list R :=
  for_loop 0 n (fun i b =>
    for_loop 0 (length quad) (fun iqn b =>
      let nd := node_at quad iqn in
      <[i := (vec_get b i
             + qw nd * phi_at phi_quad i iqn * f (qx nd) (qy nd) (qz nd))%sc]> b)
    b)
  (replicate n s_zero).

(** The block [UF] of the face [iF] (body of the first loop). *)
Definition face_block (f : R → R → R → R) (doe iF : nat) : list R :=
  let quadF := generate_quadrature_rule_face iF doe in
  let phiF_quadF := basis_quad "face" iF quadF (hc_K hc) in
  let MF := gram_matrix phiF_quadF phiF_quadF (nlocal_face_dofs hc)
              (nlocal_face_dofs hc) quadF true in
  let bF := load_vector (nlocal_face_dofs hc) quadF phiF_quadF f in
  ldlt_solve MF bF.

(** The block [UT] of the cell [iT] (body of the second loop). *)
Definition cell_block (f : R → R → R → R) (doe iT : nat) : list R :=
  let quadT := generate_quadrature_rule_cell iT doe in
  let phiT_quadT := basis_quad "cell" iT quadT (Ldeg hc) in
  let MT := gram_matrix phiT_quadT phiT_quadT (nlocal_cell_dofs hc)
              (nlocal_cell_dofs hc) quadT true in
  let bT := load_vector (nlocal_cell_dofs hc) quadT phiT_quadT f in
  ldlt_solve MT bT.

(** The weights of the cell [iT], transformed so that they apply to the
    coefficients on the basis functions. *)
Definition rescaled_weights (iT : nat) : list R :=
  let barycoefT := compute_weights iT in
  let xT := cell_center (hc_mesh hc) iT in
  let phiT_cst := cell_basis iT 0 (c0 xT) (c1 xT) (c2 xT) in
  for_loop 0 (cell_n_faces (hc_mesh hc) iT) (fun ilF barycoefT =>
    let iF := cell_face_index (hc_mesh hc) iT ilF in
    let xF := face_center (hc_mesh hc) iF in
    let phiF_cst := face_basis iF 0 (c0 xF) (c1 xF) (c2 xF) in
    <[ilF := (vec_get barycoefT ilF * (phiF_cst / phiT_cst))%sc]> barycoefT)
  barycoefT.

(** The special case [L = -1]: the slot [XTF(iT)] becomes the average of
    the face values. *)
Definition cell_average (iT : nat) (XTF : list R) : list R :=
  let barycoefT := rescaled_weights iT in
  let XTF := <[iT := s_zero]> XTF in
  for_loop 0 (cell_n_faces (hc_mesh hc) iT) (fun ilF XTF =>
    let iF := cell_face_index (hc_mesh hc) iT ilF in
    <[iT := (vec_get XTF iT
             + vec_get barycoefT ilF * vec_get XTF (ntotal_cell_dofs hc + iF)%nat)%sc]>
      XTF)
  XTF.

(** [HybridCore::interpolate] *)
Definition interpolate (f : R → R → R → R) (doe : nat) : list R :=
  let XTF := replicate (ntotal_dofs hc) s_zero in
  let XTF :=
    for_loop 0 (n_faces (hc_mesh hc)) (fun iF XTF =>
      let UF := face_block f doe iF in
      set_segment (ntotal_cell_dofs hc + iF * nlocal_face_dofs hc)
        (nlocal_face_dofs hc) UF XTF)
    XTF in
  for_loop 0 (n_cells (hc_mesh hc)) (fun iT XTF =>
    let UT := cell_block f doe iT in
    let offset_T := iT * nlocal_cell_dofs hc in
    let XTF := set_segment offset_T (nlocal_cell_dofs hc) UT XTF in
    if (hc_L hc =? -1)%Z then cell_average iT XTF else XTF)
  XTF.

(** The sum that [load_vector] accumulates in slot [i]. *)
Definition load_entry (quad : QuadratureRule R) (phi_quad : list (list R))
    (f : R → R → R → R) (i : nat) : R :=
  ssum (map (fun iqn =>
               let nd := node_at quad iqn in
               (qw nd * phi_at phi_quad i iqn * f (qx nd) (qy nd) (qz nd))%sc)
            (seq 0 (length quad))).

(** The weighted sum of an integrand over the nodes of a rule. *)
Definition quadrature_sum (quad : QuadratureRule R) (f : R → R → R → R) : R :=
  ssum (map (fun nd => (qw nd * f (qx nd) (qy nd) (qz nd))%sc) quad).

(** The value that [cell_average] leaves in the slot [iT]: the sum over
    the faces of the cell of the rescaled weight times the entry of [X]
    that the code reads for the face. *)
Definition averaged_cell_value (iT : nat) (X : list R) : R :=
  ssum (map (fun ilF =>
               (vec_get (rescaled_weights iT) ilF
                * vec_get X (ntotal_cell_dofs hc
                             + cell_face_index (hc_mesh hc) iT ilF)%nat)%sc)
            (seq 0 (cell_n_faces (hc_mesh hc) iT))).

(** The value that the specification gives for the slot: the sum over the
    faces of the cell of the rescaled weight times the first entry of the
    block of the face. *)
Definition zero_order_average (iT : nat) (X : list R) : R :=
  ssum (map (fun ilF =>
               (vec_get (rescaled_weights iT) ilF
                * vec_get X (ntotal_cell_dofs hc
                             + cell_face_index (hc_mesh hc) iT ilF
                               * nlocal_face_dofs hc)%nat)%sc)
            (seq 0 (cell_n_faces (hc_mesh hc) iT))).

(** The state of [interpolate] after the loop over the faces. *)
Definition interpolate_faces (f : R → R → R → R) (doe : nat) : list R :=
  for_loop 0 (n_faces (hc_mesh hc)) (fun iF XTF =>
    let UF := face_block f doe iF in
    set_segment (ntotal_cell_dofs hc + iF * nlocal_face_dofs hc)%nat
      (nlocal_face_dofs hc) UF XTF)
  (replicate (ntotal_dofs hc) s_zero).

(** The local system of the face [iF]: the mass matrix [MF] and the
    vector [bF] of the first loop of [interpolate]. *)
Definition face_mass_matrix (doe iF : nat) : MatrixXd R :=
  let quadF := generate_quadrature_rule_face iF doe in
  let phiF_quadF := basis_quad "face" iF quadF (hc_K hc) in
  gram_matrix phiF_quadF phiF_quadF (nlocal_face_dofs hc) (nlocal_face_dofs hc)
    quadF true.

Definition face_load_vector (f : R → R → R → R) (doe iF : nat) : list R :=
  let quadF := generate_quadrature_rule_face iF doe in
  let phiF_quadF := basis_quad "face" iF quadF (hc_K hc) in
  load_vector (nlocal_face_dofs hc) quadF phiF_quadF f.

(** The local system of the cell [iT]: the mass matrix [MT] and the
    vector [bT] of the second loop. *)
Definition cell_mass_matrix (doe iT : nat) : MatrixXd R :=
  let quadT := generate_quadrature_rule_cell iT doe in
  let phiT_quadT := basis_quad "cell" iT quadT (Ldeg hc) in
  gram_matrix phiT_quadT phiT_quadT (nlocal_cell_dofs hc) (nlocal_cell_dofs hc)
    quadT true.

Definition cell_load_vector (f : R → R → R → R) (doe iT : nat) : list R :=
  let quadT := generate_quadrature_rule_cell iT doe in
  let phiT_quadT := basis_quad "cell" iT quadT (Ldeg hc) in
  load_vector (nlocal_cell_dofs hc) quadT phiT_quadT f.

(** The product [M * U] of a matrix and a vector. *)
Definition mat_vec_mul (M : MatrixXd R) (U : list R) : list R :=
  map (fun i =>
         ssum (map (fun j => (default s_zero (mat_get M i j) * vec_get U j)%sc)
                   (seq 0 (m_cols M))))
      (seq 0 (m_rows M)).

(** What the specification asks of a block: [U] is a solution of the
    local system [M * U = b]. *)
Definition solves_system (M : MatrixXd R) (U b : list R) : Prop :=
  length U = m_cols M ∧ mat_vec_mul M U = b.

(** The calls that an evaluator receives, in order. *)
Definition record_call (iqn : nat) (x y z w : R)
    (calls : list (nat * QuadratureNode R)) : list (nat * QuadratureNode R) :=
  calls ++ [(iqn, {| qx := x; qy := y; qz := z; qw := w |})].

End HybridCore.

(** ** The enumeration order that the specification gives *)

(** Total degree [l] from 0 to [m], first exponent [i] from 0 to [l], second
    exponent [j] from 0 to [l - i], emitting [(i, j, l - i - j)]. *)
Definition cell_powers_spec (m : nat) : list VectorZd :=
  flat_map (fun l =>
    flat_map (fun i =>
      map (fun j => mkV3 (Z.of_nat i) (Z.of_nat j) (Z.of_nat (l - i - j)))
          (seq 0 (S (l - i))))
      (seq 0 (S l)))
    (seq 0 (S m)).

(** Total degree [l] from 0 to [m], first exponent [i] from 0 to [l],
    emitting [(i, l - i)]. *)
Definition face_powers_spec (m : nat) : list Vector2i :=
  flat_map (fun l =>
    map (fun i => mkV2 (Z.of_nat i) (Z.of_nat (l - i))) (seq 0 (S l)))
    (seq 0 (S m)).

(** ** The loop nest shared by the two sized overloads *)

Section GramLoop.
Context {R : Type} `{ScalarOps R}.

(** Rows [0 .. nrows): copy from the transpose below the diagonal when
    [sym_mode] is set, then compute and store the remaining entries;
    [entry i j] is the computation of one entry. *)
Definition gram_loop (entry : nat → nat → result R) (sym_mode : bool)
    (nrows ncols : nat) : result (MatrixXd R) :=
  for_loopM 0 nrows (fun i M =>
    let jcut := if sym_mode then i else 0 in
    M ← copy_from_transpose i jcut M;
    for_loopM jcut ncols (fun j M =>
      v ← entry i j;
      of_option (mat_set M i j v))
    M)
  (mat_zero nrows ncols).

(** The entry of the scalar overload. *)
Definition entry_ss (B1 B2 : multi_array R) (qr_weights : list R) (i j : nat)
  : result R :=
  B1i ← of_option (ma_row_range B1 i (ma_shape1 B1));
  B2j ← of_option (ma_row_range B2 j (ma_shape1 B1));
  p1 ← of_option (origin_pointer B1i);
  p2 ← of_option (origin_pointer B2j);
  let B1i_as_array := eigen_map p1 (length B1i) in
  let B2j_as_array := eigen_map p2 (length B2j) in
  Ok (array_sum (array_mul (array_mul qr_weights B1i_as_array) B2j_as_array)).

(** The entry of the vector overload. *)
Definition entry_vv (B1 B2 : multi_array (VectorRd R)) (qr : QuadratureRule R)
    (qr_weights : list R) (i j : nat) : result R :=
  B1i_dot_B2j ← fill_array (length qr) (fun iqn =>
    b1 ← of_option (ma_get B1 i iqn);
    b2 ← of_option (ma_get B2 j iqn);
    Ok (v_dot b1 b2));
  Ok (array_sum (array_mul qr_weights B1i_dot_B2j)).

(** What the loop nest stores at [(i, j)] when every entry [(i, j)]
    computes to [e i j]: below the diagonal, symmetric mode stores the
    transposed entry. *)
Definition gram_value (sym_mode : bool) (e : nat → nat → R) (i j : nat) : R :=
  if sym_mode && (j <? i) then e j i else e i j.

(** The state of the loop nest before row [k]: the rows above hold their
    values. *)
Definition gram_inv (sym_mode : bool) (e : nat → nat → R) (nrows ncols : nat)
    (k : nat) (M : MatrixXd R) : Prop :=
  mat_wf M ∧ m_rows M = nrows ∧ m_cols M = ncols
  ∧ ∀ i j, i < k → j < ncols → mat_get M i j = Some (gram_value sym_mode e i j).

(** The accesses [M(j, i)] (read) and [M(i, j)] (write) of the copy from
    the transpose, for all rows [i < nrows] and columns [j < i]. *)
Definition copy_accesses (nrows : nat) : list (nat * nat) :=
  flat_map (fun i => flat_map (fun j => [(j, i); (i, j)]) (seq 0 i)) (seq 0 nrows).

(** The term that the mixed overload accumulates for the node [q]. *)
Definition term_vs (B1 : multi_array (VectorRd R)) (B2 : multi_array R)
    (qr : QuadratureRule R) (i k j q : nat) : R :=
  (weight_at qr q * v_dot (ma_elem B1 i q) (unit_vector k) * ma_elem B2 j q)%sc.

(** The entries as the sized overloads compute them: the reduction of the
    array of the products [weight(q) * B1_i(q) * B2_j(q)], respectively
    [weight(q) * (B1_i(q) . B2_j(q))]. *)
Definition computed_entry_ss (B1 B2 : multi_array R) (qr : QuadratureRule R)
    (i j : nat) : R :=
  array_sum (map (fun q => (weight_at qr q * ma_elem B1 i q * ma_elem B2 j q)%sc)
                 (seq 0 (length qr))).

Definition computed_entry_vv (B1 B2 : multi_array (VectorRd R))
    (qr : QuadratureRule R) (i j : nat) : R :=
  array_sum (map (fun q => (weight_at qr q * v_dot (ma_elem B1 i q) (ma_elem B2 j q))%sc)
                 (seq 0 (length qr))).

(** The mixed overload: what [M(i, k * n2 + j)] holds after the first [n]
    nodes, the final value of the column [c], and the state of the matrix
    when the rows above [i] and the first [cpos] columns of the row [i] are
    complete. *)
Definition vs_partial (B1 : multi_array (VectorRd R)) (B2 : multi_array R)
    (qr : QuadratureRule R) (i k j n : nat) : R :=
  ssum (map (term_vs B1 B2 qr i k j) (seq 0 n)).

Definition vs_value (B1 : multi_array (VectorRd R)) (B2 : multi_array R)
    (qr : QuadratureRule R) (i c : nat) : R :=
  vs_partial B1 B2 qr i (c / ma_shape0 B2) (c mod ma_shape0 B2) (length qr).

Definition vs_inv (B1 : multi_array (VectorRd R)) (B2 : multi_array R)
    (qr : QuadratureRule R) (i cpos : nat) (M : MatrixXd R) : Prop :=
  mat_wf M ∧ m_rows M = ma_shape0 B1 ∧ m_cols M = dimspace * ma_shape0 B2
  ∧ ∀ i' c', i' < ma_shape0 B1 → c' < dimspace * ma_shape0 B2 →
      mat_get M i' c'
      = Some (if (i' <? i) || ((i' =? i) && (c' <? cpos))
              then vs_value B1 B2 qr i' c' else s_zero).

End GramLoop.

(** ** Concrete inputs *)

(** Two scalar families of two members, a vector family of two members and
    a rule of two nodes, over the integers. *)
Definition sample_B1 : multi_array Z :=
  {| ma_shape0 := 2; ma_shape1 := 2; ma_elem := fun i q => Z.of_nat (1 + i + 2 * q) |}.

Definition sample_B2 : multi_array Z :=
  {| ma_shape0 := 2; ma_shape1 := 2; ma_elem := fun i q => Z.of_nat (1 + 3 * i + q) |}.

Definition sample_Bv : multi_array (VectorRd Z) :=
  {| ma_shape0 := 2; ma_shape1 := 2;
     ma_elem := fun i q => mkV3 (Z.of_nat i) (Z.of_nat q) 1%Z |}.

Definition sample_qr : QuadratureRule Z :=
  [ {| qx := 0%Z; qy := 0%Z; qz := 0%Z; qw := 1%Z |};
    {| qx := 1%Z; qy := 0%Z; qz := 0%Z; qw := 2%Z |} ].

Definition sample_cell : Cell Z :=
  {| cell_center_mass := mkV3 0%Z 0%Z 0%Z; cell_diam := 2%Z |}.

Definition sample_face : Face Z :=
  {| face_center_mass := mkV3 0%Z 0%Z 0%Z;
     face_diam := 2%Z;
     face_normal := mkV3 0%Z 0%Z 1%Z;
     face_edge0_tangent := mkV3 1%Z 0%Z 0%Z;
     face_edge0_normal := mkV3 0%Z 1%Z 0%Z |}.

Definition sample_edge : Edge Z :=
  {| edge_center_mass := mkV3 0%Z 0%Z 0%Z;
     edge_diam := 2%Z;
     edge_tangent := mkV3 1%Z 0%Z 0%Z |}.

(** A mesh of one tetrahedral cell with its four faces, and collaborators
    over the integers: a rule of [doe + 1] unit-weight nodes, three basis
    functions with the constant values 1, 2 and 3, the identity as mass
    matrix and its solve, the weights (0, 1, 0, 0), and constant bases of
    value 1. *)
Definition sample_mesh : Mesh (R := Z) :=
  {| n_cells := 1;
     n_faces := 4;
     cell_center := fun _ => mkV3 0%Z 0%Z 0%Z;
     cell_n_faces := fun _ => 4;
     cell_face_index := fun _ ilF => ilF;
     face_center := fun _ => mkV3 0%Z 0%Z 0%Z |}.

Definition sample_rule_cell (iT doe : nat) : QuadratureRule Z :=
  map (fun q => {| qx := Z.of_nat (7 + q); qy := 0%Z; qz := 0%Z; qw := 1%Z |})
      (seq 0 (doe + 1)).

Definition sample_rule_face (iF doe : nat) : QuadratureRule Z :=
  map (fun q => {| qx := Z.of_nat (10 + 30 * iF + q); qy := 0%Z; qz := 0%Z; qw := 1%Z |})
      (seq 0 (doe + 1)).

Definition sample_basis_quad (cellface : string) (iTF : nat) (quad : QuadratureRule Z)
    (degree : nat) : list (list Z) :=
  map (fun i => map (fun _ => Z.of_nat (i + 1)) quad) (seq 0 3).

Definition sample_gram_matrix (f_quad g_quad : list (list Z)) (nrows ncols : nat)
    (quad : QuadratureRule Z) (sym : bool) : MatrixXd Z :=
  {| m_rows := nrows;
     m_cols := ncols;
     m_data := map (fun i => map (fun j => if i =? j then 1%Z else 0%Z) (seq 0 ncols))
                   (seq 0 nrows) |}.

Definition sample_ldlt_solve (M : MatrixXd Z) (b : list Z) : list Z := b.

Definition sample_weights (iT : nat) : list Z := [0%Z; 1%Z; 0%Z; 0%Z].

Definition sample_basis (iTF i : nat) (x y z : Z) : Z := 1%Z.

Definition sample_f (x y z : Z) : Z := x.

(** Face degree 1 with no cell unknown, and face degree 1 with cell
    degree 0. *)
Definition sample_hc_faces_only : HybridCore (R := Z) :=
  {| hc_mesh := sample_mesh; hc_K := 1; hc_L := (-1)%Z |}.

Definition sample_hc : HybridCore (R := Z) :=
  {| hc_mesh := sample_mesh; hc_K := 1; hc_L := 0%Z |}.

Definition sample_interpolate (hc : HybridCore (R := Z)) : list Z :=
  interpolate sample_rule_cell sample_rule_face sample_basis_quad sample_gram_matrix
    sample_ldlt_solve sample_weights sample_basis sample_basis hc sample_f 0.

(** ** Further operations of basis.cpp and hybridcore.hpp *)

(** The laws of a commutative ring, for the properties that rest on
    them. *)
Class ScalarRing (R : Type) `{ScalarOps R} : Prop := {
  r_add_0_l : ∀ x : R, (s_zero + x)%sc = x;
  r_add_comm : ∀ x y : R, (x + y)%sc = (y + x)%sc;
  r_add_assoc : ∀ x y z : R, (x + (y + z))%sc = ((x + y) + z)%sc;
  r_mul_1_l : ∀ x : R, (s_one * x)%sc = x;
  r_mul_comm : ∀ x y : R, (x * y)%sc = (y * x)%sc;
  r_mul_assoc : ∀ x y z : R, (x * (y * z))%sc = ((x * y) * z)%sc;
  r_distr_l : ∀ x y z : R, ((x + y) * z)%sc = (x * z + y * z)%sc;
  r_sub_def : ∀ x y : R, (x - y)%sc = (x + (s_zero - y))%sc;
  r_opp_def : ∀ x : R, (x + (s_zero - x))%sc = s_zero;
}.

Section Products.
Context {R : Type} `{ScalarOps R}.
Local Open Scope scalar_scope.

(** [x.cross(y)] *)
Definition v_cross (x y : VectorRd R) : VectorRd R :=
  mkV3 (c1 x * c2 y - c2 x * c1 y)
       (c2 x * c0 y - c0 x * c2 y)
       (c0 x * c1 y - c1 x * c0 y).

(** [MonomialScalarBasisFace::curl] *)
Definition face_curl (b : MonomialScalarBasisFace R) (i : nat) (x : VectorRd R)
  : option (VectorRd R) :=
  g ← face_gradient b i x;
  Some (v_cross g (mf_nF b)).

End Products.

Section Domain.
Context {R : Type} `{ScalarOps R}.
Variable generate_quadrature_rule_cell : nat → nat → QuadratureRule R.
Variable hc : HybridCore (R := R).

(** [integrate_over_domain]:
    [value = 0.0; for (iT < n_cells) value += integrate_over_cell(iT, f);] *)
Definition integrate_over_domain (f : R → R → R → R) : result R :=
  for_loopM 0 (n_cells (hc_mesh hc)) (fun iT value =>
    v ← integrate_over_cell generate_quadrature_rule_cell hc iT f;
    Ok (value + v)%sc)
  s_zero.

End Domain.

(** Families sampled at no node, and the hybrid space of lowest order
    without cell unknowns, for the sample mesh. *)
Definition sample_B_empty : multi_array Z :=
  {| ma_shape0 := 2; ma_shape1 := 0; ma_elem := fun _ _ => 0%Z |}.

Definition sample_Bv_empty : multi_array (VectorRd Z) :=
  {| ma_shape0 := 2; ma_shape1 := 0; ma_elem := fun _ _ => mkV3 0%Z 0%Z 0%Z |}.

Definition sample_hc_lowest : HybridCore (R := Z) :=
  {| hc_mesh := sample_mesh; hc_K := 0; hc_L := (-1)%Z |}.

(** A face of diameter 1 in the plane [z = 0]. *)
Definition sample_face_unit : Face Z :=
  {| face_center_mass := mkV3 0%Z 0%Z 0%Z;
     face_diam := 1%Z;
     face_normal := mkV3 0%Z 0%Z 1%Z;
     face_edge0_tangent := mkV3 1%Z 0%Z 0%Z;
     face_edge0_normal := mkV3 0%Z 1%Z 0%Z |}.

(** * Properties *)

(** ** Loops *)

Lemma for_loop_empty {S : Type} (lo hi : nat) (body : nat → S → S) (s : S) :
  hi ≤ lo → for_loop lo hi body s = s.
Proof.
  intros Hle. unfold for_loop. replace (hi - lo) with 0 by lia. reflexivity.
Qed.

Lemma for_loop_S {S : Type} (lo hi : nat) (body : nat → S → S) (s : S) :
  lo ≤ hi → for_loop lo (Datatypes.S hi) body s = body hi (for_loop lo hi body s).
Proof.
  intros Hle. unfold for_loop.
  replace (Datatypes.S hi - lo) with (Datatypes.S (hi - lo)) by lia.
  rewrite seq_S, fold_left_app. simpl.
  replace (lo + (hi - lo)) with hi by lia. reflexivity.
Qed.

(** An invariant [P x s] of the state before iteration [x] holds at exit. *)
Lemma for_loop_inv {S : Type} (P : nat → S → Prop) (lo hi : nat)
    (body : nat → S → S) (s : S) :
  lo ≤ hi →
  P lo s →
  (∀ x s', lo ≤ x < hi → P x s' → P (Datatypes.S x) (body x s')) →
  P hi (for_loop lo hi body s).
Proof.
  intros Hle Hinit Hstep. induction hi as [|hi IH].
  - assert (lo = 0) as -> by lia. exact Hinit.
  - destruct (decide (lo = Datatypes.S hi)) as [->|Hne].
    + rewrite for_loop_empty by lia. exact Hinit.
    + rewrite for_loop_S by lia. apply Hstep; [lia|].
      apply IH; [lia|]. intros x s' Hx. apply Hstep. lia.
Qed.

Lemma for_loop_ext {S : Type} (lo hi : nat) (body body' : nat → S → S) (s : S) :
  (∀ x s', lo ≤ x < hi → body x s' = body' x s') →
  for_loop lo hi body s = for_loop lo hi body' s.
Proof.
  intros Hext. destruct (decide (lo ≤ hi)) as [Hle|Hgt].
  - induction hi as [|hi IH].
    + rewrite !for_loop_empty by lia. reflexivity.
    + destruct (decide (lo = Datatypes.S hi)) as [->|Hne].
      * rewrite !for_loop_empty by lia. reflexivity.
      * rewrite !for_loop_S by lia. rewrite IH; [|intros; apply Hext; lia|lia].
        apply Hext. lia.
  - rewrite !for_loop_empty by lia. reflexivity.
Qed.

(** A loop that only appends is the concatenation of what it appends. *)
Lemma for_loop_append {A : Type} (lo hi : nat) (g : nat → list A) (s : list A) :
  for_loop lo hi (fun x s => s ++ g x) s = s ++ flat_map g (seq lo (hi - lo)).
Proof.
  unfold for_loop. generalize (seq lo (hi - lo)). intros l. revert s.
  induction l as [|x l IH]; intros s; simpl.
  - by rewrite app_nil_r.
  - rewrite IH. by rewrite <- app_assoc.
Qed.

Lemma for_loopM_empty {S : Type} (lo hi : nat) (body : nat → S → result S) (s : S) :
  hi ≤ lo → for_loopM lo hi body s = Ok s.
Proof.
  intros Hle. unfold for_loopM. replace (hi - lo) with 0 by lia. reflexivity.
Qed.

Lemma for_loopM_S {S : Type} (lo hi : nat) (body : nat → S → result S) (s : S) :
  lo ≤ hi →
  for_loopM lo (Datatypes.S hi) body s = (s' ← for_loopM lo hi body s; body hi s').
Proof.
  intros Hle. unfold for_loopM.
  replace (Datatypes.S hi - lo) with (Datatypes.S (hi - lo)) by lia.
  rewrite seq_S, fold_left_app. simpl.
  replace (lo + (hi - lo)) with hi by lia. reflexivity.
Qed.

(** If every iteration succeeds from a state that satisfies the invariant
    and re-establishes it, the loop succeeds and the invariant holds at
    exit. *)
Lemma for_loopM_inv {S : Type} (P : nat → S → Prop) (lo hi : nat)
    (body : nat → S → result S) (s : S) :
  lo ≤ hi →
  P lo s →
  (∀ x s', lo ≤ x < hi → P x s' → ∃ s'', body x s' = Ok s'' ∧ P (Datatypes.S x) s'') →
  ∃ s', for_loopM lo hi body s = Ok s' ∧ P hi s'.
Proof.
  intros Hle Hinit Hstep. induction hi as [|hi IH].
  - assert (lo = 0) as -> by lia. exists s. split; [by apply for_loopM_empty|done].
  - destruct (decide (lo = Datatypes.S hi)) as [->|Hne].
    + exists s. split; [by apply for_loopM_empty|done].
    + destruct IH as (s' & Hs' & HP); [lia| |].
      { intros x s0 Hx. apply Hstep. lia. }
      destruct (Hstep hi s') as (s'' & Hb & HP''); [lia|done|].
      exists s''. split; [|done].
      rewrite for_loopM_S by lia. rewrite Hs'. exact Hb.
Qed.

(** A failure inside the loop is the result of the loop. *)
Lemma for_loopM_fail {S : Type} (lo x hi : nat) (body : nat → S → result S)
    (s s' : S) (e : error) :
  lo ≤ x < hi →
  for_loopM lo x body s = Ok s' →
  body x s' = Err e →
  for_loopM lo hi body s = Err e.
Proof.
  intros Hx Hpre Hfail.
  assert (Hnext : for_loopM lo (Datatypes.S x) body s = Err e).
  { rewrite for_loopM_S by lia. rewrite Hpre. exact Hfail. }
  clear Hpre Hfail. induction hi as [|hi IH]; [lia|].
  destruct (decide (x = hi)) as [->|Hne]; [done|].
  rewrite for_loopM_S by lia. rewrite IH by lia. reflexivity.
Qed.

Lemma for_loopM_ext {S : Type} (lo hi : nat) (body body' : nat → S → result S) (s : S) :
  (∀ x s', lo ≤ x < hi → body x s' = body' x s') →
  for_loopM lo hi body s = for_loopM lo hi body' s.
Proof.
  intros Hext. destruct (decide (lo ≤ hi)) as [Hle|Hgt].
  - induction hi as [|hi IH].
    + rewrite !for_loopM_empty by lia. reflexivity.
    + destruct (decide (lo = Datatypes.S hi)) as [->|Hne].
      * rewrite !for_loopM_empty by lia. reflexivity.
      * rewrite !for_loopM_S by lia. rewrite IH; [|intros; apply Hext; lia|lia].
        destruct (for_loopM lo hi body' s); simpl; [|done]. apply Hext. lia.
  - rewrite !for_loopM_empty by lia. reflexivity.
Qed.

(** ** Monomial bases *)

Lemma cell_generate_powers_spec (m : nat) :
  cell_generate_powers m = cell_powers_spec m.
Proof.
  unfold cell_generate_powers, cell_powers_spec.
  erewrite for_loop_ext.
  2:{ intros l s _. erewrite for_loop_ext.
      2:{ intros i s' _.
          rewrite (for_loop_append 0 (S (l - i))
                     (fun j => [mkV3 (Z.of_nat i) (Z.of_nat j) (Z.of_nat (l - i - j))])).
          reflexivity. }
      rewrite (for_loop_append 0 (S l)). reflexivity. }
  rewrite for_loop_append, app_nil_l, Nat.sub_0_r.
  apply flat_map_ext. intros l. rewrite Nat.sub_0_r.
  apply flat_map_ext. intros i.
  rewrite Nat.sub_0_r. generalize (seq 0 (S (l - i))). intros js.
  induction js as [|j js IH]; simpl; [done|]. by rewrite IH.
Qed.

Lemma face_generate_powers_spec (m : nat) :
  face_generate_powers m = face_powers_spec m.
Proof.
  unfold face_generate_powers, face_powers_spec.
  erewrite for_loop_ext.
  2:{ intros l s _.
      rewrite (for_loop_append 0 (S l)
                 (fun i => [mkV2 (Z.of_nat i) (Z.of_nat (l - i))])).
      reflexivity. }
  rewrite for_loop_append, app_nil_l, Nat.sub_0_r.
  apply flat_map_ext. intros l.
  rewrite Nat.sub_0_r. generalize (seq 0 (S l)). intros js.
  induction js as [|j js IH]; simpl; [done|]. by rewrite IH.
Qed.

(** Twice the number of pairs [(i, j)] with [i <= k] and [i + j <= l]. *)
Lemma count_cell_degree (l k : nat) :
  k ≤ l →
  2 * length (flat_map (fun i =>
        map (fun j => mkV3 (Z.of_nat i) (Z.of_nat j) (Z.of_nat (l - i - j)))
            (seq 0 (S (l - i))))
      (seq 0 (S k)))
  = (k + 1) * (2 * l - k + 2).
Proof.
  induction k as [|k IH]; intros Hk.
  - change (seq 0 1) with [0]. cbn [flat_map].
    rewrite app_nil_r, length_map, length_seq. lia.
  - rewrite seq_S, flat_map_app, length_app. cbn [flat_map].
    rewrite app_nil_r, length_map, length_seq.
    specialize (IH ltac:(lia)).
    remember (length (flat_map _ (seq 0 (S k)))) as n eqn:Hn. clear Hn.
    assert (∃ d, l = k + 1 + d) as [d ->] by (exists (l - k - 1); lia).
    replace (2 * (k + 1 + d) - k + 2) with (k + 2 * d + 4) in IH by lia.
    replace (2 * (k + 1 + d) - S k + 2) with (k + 2 * d + 3) by lia.
    replace (S (k + 1 + d - (0 + S k))) with (d + 1) by lia.
    nia.
Qed.

Lemma cell_powers_spec_count (m : nat) :
  6 * length (cell_powers_spec m) = (m + 1) * (m + 2) * (m + 3).
Proof.
  unfold cell_powers_spec. induction m as [|m IH].
  - reflexivity.
  - rewrite seq_S, flat_map_app, length_app. cbn [flat_map].
    rewrite app_nil_r.
    pose proof (count_cell_degree (S m) (S m) ltac:(lia)) as Hrow.
    replace (0 + S m) with (S m) by lia.
    remember (length (flat_map _ (seq 0 (S m)))) as a eqn:Ha. clear Ha.
    remember (length (flat_map _ (seq 0 (S (S m))))) as b eqn:Hb. clear Hb.
    replace (2 * S m - S m + 2) with (m + 3) in Hrow by lia.
    nia.
Qed.

Lemma face_powers_spec_count (m : nat) :
  2 * length (face_powers_spec m) = (m + 1) * (m + 2).
Proof.
  unfold face_powers_spec. induction m as [|m IH].
  - reflexivity.
  - rewrite seq_S, flat_map_app, length_app. cbn [flat_map].
    rewrite app_nil_r, length_map, length_seq.
    remember (length (flat_map _ (seq 0 (S m)))) as a eqn:Ha. clear Ha.
    nia.
Qed.

Lemma cell_powers_head (m : nat) :
  cell_generate_powers m !! 0 = Some (mkV3 0%Z 0%Z 0%Z).
Proof. rewrite cell_generate_powers_spec. reflexivity. Qed.

Lemma face_powers_head (m : nat) :
  face_generate_powers m !! 0 = Some (mkV2 0%Z 0%Z).
Proof. rewrite face_generate_powers_spec. reflexivity. Qed.

Section BasisProperties.
Context {R : Type} `{ScalarOps R}.

(** C5.  For every degree [m], the constructor of the cell basis generates
    [(m+1)(m+2)(m+3)/6] exponent tuples, the constructor of the face basis
    [(m+1)(m+2)/2], and the edge basis has [m+1] slots; the tuples come in
    the order of the enumeration by total degree, then first exponent,
    then second exponent, and the exponents of the edge slots are
    [0 .. m] in increasing order; for [m = 1] the cell sequence is
    (0,0,0), (0,0,1), (0,1,0), (1,0,0) and the face sequence is
    (0,0), (0,1), (1,0). *)
Theorem monomial_enumeration (m : nat) (T : Cell R) (F : Face R) (E : Edge R) :
  length (mc_powers (MonomialScalarBasisCell_new T m))
    = (m + 1) * (m + 2) * (m + 3) / 6
  ∧ length (mf_powers (MonomialScalarBasisFace_new F m)) = (m + 1) * (m + 2) / 2
  ∧ edge_dimension (MonomialScalarBasisEdge_new E m) = m + 1
  ∧ mc_powers (MonomialScalarBasisCell_new T m) = cell_powers_spec m
  ∧ mf_powers (MonomialScalarBasisFace_new F m) = face_powers_spec m
  ∧ edge_exponents (MonomialScalarBasisEdge_new E m) = map Z.of_nat (seq 0 (m + 1))
  ∧ mc_powers (MonomialScalarBasisCell_new T 1)
      = [mkV3 0 0 0; mkV3 0 0 1; mkV3 0 1 0; mkV3 1 0 0]%Z
  ∧ mf_powers (MonomialScalarBasisFace_new F 1)
      = [mkV2 0 0; mkV2 0 1; mkV2 1 0]%Z.
Proof.
  cbn [MonomialScalarBasisCell_new MonomialScalarBasisFace_new mc_powers mf_powers].
  split; [|split; [|split; [|split; [|split; [|split; [|split]]]]]].
  - rewrite cell_generate_powers_spec.
    pose proof (cell_powers_spec_count m) as Hc.
    apply Nat.div_unique_exact; lia.
  - rewrite face_generate_powers_spec.
    pose proof (face_powers_spec_count m) as Hc.
    apply Nat.div_unique_exact; lia.
  - reflexivity.
  - apply cell_generate_powers_spec.
  - apply face_generate_powers_spec.
  - reflexivity.
  - reflexivity.
  - reflexivity.
Qed.

Context `{!ScalarLaws R}.

(** C6.  For a cell, a face and an edge, every degree and every point [x],
    the basis function of slot 0 evaluates to 1 and its gradient to the
    zero vector (the diameter of the cell, by which its gradient is
    divided, is not zero). *)
Theorem slot0_constant (degree : nat) (x : VectorRd R)
    (T : Cell R) (F : Face R) (E : Edge R) :
  cell_diam T ≠ s_zero →
  cell_function (MonomialScalarBasisCell_new T degree) 0 x = Some s_one
  ∧ cell_gradient (MonomialScalarBasisCell_new T degree) 0 x = Some v_zero
  ∧ face_function (MonomialScalarBasisFace_new F degree) 0 x = Some s_one
  ∧ face_gradient (MonomialScalarBasisFace_new F degree) 0 x = Some v_zero
  ∧ edge_function (MonomialScalarBasisEdge_new E degree) 0 x = s_one
  ∧ edge_gradient (MonomialScalarBasisEdge_new E degree) 0 x = v_zero.
Proof.
  intros HhT.
  unfold cell_function, cell_gradient, face_function, face_gradient.
  simpl mc_powers. simpl mf_powers.
  rewrite cell_powers_head, face_powers_head. simpl.
  unfold s_pow. simpl. repeat split.
  - by rewrite !s_mul_1_l.
  - unfold v_div, v_zero. simpl. by rewrite !s_div_0_l.
  - by rewrite s_mul_1_l.
  - unfold jacobian_transpose_mul, v_zero. simpl.
    by rewrite !s_mul_0_r, !s_add_0_l.
  - unfold edge_gradient, v_scale, v_zero. simpl. by rewrite !s_mul_0_l.
Qed.

End BasisProperties.

(** ** Matrices and arrays *)

Section MatrixProperties.
Context {R : Type} `{ScalarOps R}.

Lemma mat_zero_wf (r c : nat) : mat_wf (mat_zero r c).
Proof.
  split; simpl.
  - apply length_replicate.
  - apply Forall_replicate, length_replicate.
Qed.

Lemma mat_get_zero (r c i j : nat) :
  i < r → j < c → mat_get (mat_zero r c) i j = Some s_zero.
Proof.
  intros Hi Hj. unfold mat_get, mat_in_range. simpl.
  rewrite (proj2 (Nat.ltb_lt i r) Hi), (proj2 (Nat.ltb_lt j c) Hj). simpl.
  rewrite lookup_replicate_2 by done. simpl. by apply lookup_replicate_2.
Qed.

Lemma mat_get_out_of_range (M : MatrixXd R) (i j : nat) :
  m_rows M ≤ i ∨ m_cols M ≤ j → mat_get M i j = None.
Proof.
  intros Hout. unfold mat_get, mat_in_range.
  destruct (Nat.ltb_spec i (m_rows M)), (Nat.ltb_spec j (m_cols M));
    simpl; try done; lia.
Qed.

Lemma mat_set_out_of_range (M : MatrixXd R) (i j : nat) (v : R) :
  m_rows M ≤ i ∨ m_cols M ≤ j → mat_set M i j v = None.
Proof.
  intros Hout. unfold mat_set, mat_in_range.
  destruct (Nat.ltb_spec i (m_rows M)), (Nat.ltb_spec j (m_cols M));
    simpl; try done; lia.
Qed.

(** A write inside the matrix succeeds, keeps the dimensions, and changes
    the written entry only. *)
Lemma mat_set_spec (M : MatrixXd R) (i j : nat) (v : R) :
  mat_wf M → i < m_rows M → j < m_cols M →
  ∃ M', mat_set M i j v = Some M'
        ∧ mat_wf M' ∧ m_rows M' = m_rows M ∧ m_cols M' = m_cols M
        ∧ mat_get M' i j = Some v
        ∧ ∀ i' j', (i', j') ≠ (i, j) → mat_get M' i' j' = mat_get M i' j'.
Proof.
  intros [Hlen Hrows] Hi Hj. unfold mat_set, mat_in_range.
  rewrite (proj2 (Nat.ltb_lt _ _) Hi), (proj2 (Nat.ltb_lt _ _) Hj). simpl.
  eexists. split; [reflexivity|].
  destruct (lookup_lt_is_Some_2 (m_data M) i) as [row Hrow]; [lia|].
  assert (Hrowlen : length row = m_cols M).
  { eapply (Forall_lookup_1 _ _ _ _ Hrows Hrow). }
  split; [|split; [done|split; [done|split]]].
  - split; simpl.
    + by rewrite length_alter.
    + apply Forall_lookup_2. intros i' row'.
      destruct (decide (i = i')) as [<-|Hne].
      * rewrite list_lookup_alter_eq, Hrow. simpl. intros [= <-].
        by rewrite length_insert.
      * rewrite list_lookup_alter_ne by done. intros Hrow'.
        eapply (Forall_lookup_1 _ _ _ _ Hrows Hrow').
  - unfold mat_get, mat_in_range. simpl.
    rewrite (proj2 (Nat.ltb_lt _ _) Hi), (proj2 (Nat.ltb_lt _ _) Hj). simpl.
    rewrite list_lookup_alter_eq, Hrow. simpl.
    apply list_lookup_insert_eq. lia.
  - intros i' j' Hne. unfold mat_get, mat_in_range. simpl.
    destruct ((i' <? m_rows M) && (j' <? m_cols M)); [|done].
    destruct (decide (i = i')) as [<-|Hne'].
    + rewrite list_lookup_alter_eq, Hrow. simpl.
      apply list_lookup_insert_ne. congruence.
    + by rewrite list_lookup_alter_ne.
Qed.

(** Two matrices with the same dimensions and the same entries are equal. *)
Lemma mat_ext (M N : MatrixXd R) :
  mat_wf M → mat_wf N →
  m_rows M = m_rows N → m_cols M = m_cols N →
  (∀ i j, i < m_rows M → j < m_cols M → mat_get M i j = mat_get N i j) →
  M = N.
Proof.
  destruct M as [r c d], N as [r' c' d']. simpl.
  intros [Hl Hr] [Hl' Hr'] <- <- Hget. simpl in *. f_equal.
  apply (list_eq_same_length _ _ r); [done..|].
  intros i row row' Hi Hrow Hrow'.
  assert (length row = c) by (eapply (Forall_lookup_1 _ _ _ _ Hr Hrow)).
  assert (length row' = c) by (eapply (Forall_lookup_1 _ _ _ _ Hr' Hrow')).
  apply (list_eq_same_length _ _ c); [done..|].
  intros j x y Hj Hx Hy.
  specialize (Hget i j Hi Hj). unfold mat_get, mat_in_range in Hget. simpl in Hget.
  rewrite (proj2 (Nat.ltb_lt _ _) Hi), (proj2 (Nat.ltb_lt _ _) Hj) in Hget.
  simpl in Hget. rewrite Hrow, Hrow' in Hget. simpl in Hget. congruence.
Qed.

Lemma mat_transpose_wf (M : MatrixXd R) : mat_wf (mat_transpose M).
Proof.
  split; simpl.
  - by rewrite length_map, length_seq.
  - apply Forall_forall. intros row Hin.
    apply list_elem_of_In, in_map_iff in Hin as (j & <- & _).
    by rewrite length_map, length_seq.
Qed.

Lemma lookup_map_seq {A : Type} (g : nat → A) (n i : nat) :
  i < n → map g (seq 0 n) !! i = Some (g i).
Proof.
  intros Hi. change (map g (seq 0 n)) with (g <$> seq 0 n).
  rewrite list_lookup_fmap, lookup_seq_lt by done. reflexivity.
Qed.

Lemma mat_get_transpose (M : MatrixXd R) (i j : nat) (v : R) :
  i < m_cols M → j < m_rows M →
  mat_get M j i = Some v → mat_get (mat_transpose M) i j = Some v.
Proof.
  intros Hi Hj Hget. unfold mat_get at 1, mat_in_range. simpl.
  rewrite (proj2 (Nat.ltb_lt _ _) Hi), (proj2 (Nat.ltb_lt _ _) Hj). simpl.
  rewrite lookup_map_seq by done. simpl.
  rewrite lookup_map_seq by done. by rewrite Hget.
Qed.

(** Filling an array slot by slot gives the array of the values. *)
Lemma fill_array_spec (n : nat) (f : nat → result R) (g : nat → R) :
  (∀ i, i < n → f i = Ok (g i)) →
  fill_array n f = Ok (map g (seq 0 n)).
Proof.
  intros Hf. unfold fill_array.
  destruct (for_loopM_inv
              (fun i a => length a = n ∧ ∀ i', i' < i → a !! i' = Some (g i'))
              0 n (fun i a => v ← f i; Ok (<[i := v]> a)) (replicate n s_zero))
    as (a & -> & Hlen & Ha).
  - lia.
  - split; [apply length_replicate|]. intros; lia.
  - intros i a Hi [Hlen Ha]. rewrite Hf by lia. simpl.
    eexists. split; [reflexivity|]. split; [by rewrite length_insert|].
    intros i' Hi'. destruct (decide (i = i')) as [<-|Hne].
    + apply list_lookup_insert_eq. lia.
    + rewrite list_lookup_insert_ne by done. apply Ha. lia.
  - f_equal. apply (list_eq_same_length _ _ n); [by rewrite length_map, length_seq|done|].
    intros i x y Hi Hx Hy. rewrite Ha in Hx by done.
    rewrite lookup_map_seq in Hy by done. congruence.
Qed.

Lemma quadrature_weights_spec (qr : QuadratureRule R) :
  quadrature_weights qr = Ok (map (weight_at qr) (seq 0 (length qr))).
Proof.
  apply fill_array_spec. intros i Hi. unfold weight_at.
  destruct (lookup_lt_is_Some_2 qr i Hi) as [nd Hnd]. by rewrite Hnd.
Qed.

Lemma zip_with_map_seq {A B C : Type} (f : A → B → C) (g : nat → A) (h : nat → B)
    (l : list nat) :
  zip_with f (map g l) (map h l) = map (fun q => f (g q) (h q)) l.
Proof. induction l as [|q l IH]; simpl; [done|]. by rewrite IH. Qed.

End MatrixProperties.

(** ** The loop nest of the sized overloads *)

Section GramLoopProperties.
Context {R : Type} `{ScalarOps R}.
Variable entry : nat → nat → result R.
Variable e : nat → nat → R.
Variable sym_mode : bool.
Variables nrows ncols : nat.
Hypothesis entry_value : ∀ i j, i < nrows → j < ncols → entry i j = Ok (e i j).

(** One row of the loop nest, from the state before it to the state
    after it.  In symmetric mode the row is below the column count. *)
Lemma gram_row (i : nat) (M : MatrixXd R) :
  i < nrows →
  (sym_mode = true → i = 0 ∨ i < ncols) →
  gram_inv sym_mode e nrows ncols i M →
  ∃ M',
    (M1 ← copy_from_transpose i (if sym_mode then i else 0) M;
     for_loopM (if sym_mode then i else 0) ncols (fun j M =>
       v ← entry i j; of_option (mat_set M i j v)) M1) = Ok M'
    ∧ gram_inv sym_mode e nrows ncols (S i) M'.
Proof.
  intros Hi Hsym (Hwf & Hr & Hc & Hrows).
  set (Q := fun (j : nat) (M : MatrixXd R) =>
    mat_wf M ∧ m_rows M = nrows ∧ m_cols M = ncols
    ∧ (∀ i' j', i' < i → j' < ncols →
         mat_get M i' j' = Some (gram_value sym_mode e i' j'))
    ∧ (∀ j', j' < j → j' < ncols →
         mat_get M i j' = Some (gram_value sym_mode e i j'))).
  set (jcut := if sym_mode then i else 0).
  assert (Hjcut : jcut ≤ ncols).
  { unfold jcut. destruct sym_mode eqn:Hs; [|lia]. destruct Hsym; [done|lia|lia]. }
  assert (Hjcut' : ∀ j, j < jcut → sym_mode = true ∧ j < i ∧ i < ncols).
  { unfold jcut. intros j Hj. destruct sym_mode eqn:Hs; [|lia].
    split; [done|]. destruct Hsym; [done|lia|lia]. }
  assert (Hjcut'' : ∀ j, jcut ≤ j → sym_mode && (j <? i) = false).
  { unfold jcut. intros j Hj. destruct sym_mode eqn:Hs; [|done]. simpl.
    apply Nat.ltb_ge. lia. }
  (* the copy from the transpose *)
  destruct (for_loopM_inv Q 0 jcut
              (fun j M => v ← of_option (mat_get M j i); of_option (mat_set M i j v)) M)
    as (M1 & HM1 & HQ1).
  { lia. }
  { unfold Q. split_and!; try done. intros; lia. }
  { intros j M0 Hj (Hwf0 & Hr0 & Hc0 & Hrows0 & Hrow0).
    destruct (Hjcut' j) as (Hs & Hji & Hic); [lia|].
    rewrite (Hrows0 j i) by lia. simpl.
    destruct (mat_set_spec M0 i j (gram_value sym_mode e j i))
      as (M0' & -> & Hwf' & Hr' & Hc' & Hget & Hother); [done|lia|lia|].
    exists M0'. split; [done|]. unfold Q. split_and!; try done; try congruence.
    - intros i' j' Hi' Hj'. rewrite Hother by (intros [= -> ->]; lia).
      by apply Hrows0.
    - intros j' Hj' Hj'c. destruct (decide (j' = j)) as [->|Hne].
      + rewrite Hget. f_equal. unfold gram_value. rewrite Hs. simpl.
        rewrite (proj2 (Nat.ltb_lt j i)) by lia.
        rewrite (proj2 (Nat.ltb_ge i j)) by lia. done.
      + rewrite Hother by (intros [= ->]; done). apply Hrow0; lia. }
  unfold copy_from_transpose. fold jcut. rewrite HM1. simpl.
  (* the computed entries *)
  destruct (for_loopM_inv Q jcut ncols
              (fun j M => v ← entry i j; of_option (mat_set M i j v)) M1)
    as (M2 & HM2 & HQ2).
  { done. }
  { done. }
  { intros j M0 Hj (Hwf0 & Hr0 & Hc0 & Hrows0 & Hrow0).
    rewrite entry_value by lia. simpl.
    destruct (mat_set_spec M0 i j (e i j))
      as (M0' & -> & Hwf' & Hr' & Hc' & Hget & Hother); [done|lia|lia|].
    exists M0'. split; [done|]. unfold Q. split_and!; try done; try congruence.
    - intros i' j' Hi' Hj'. rewrite Hother by (intros [= -> ->]; lia).
      by apply Hrows0.
    - intros j' Hj' Hj'c. destruct (decide (j' = j)) as [->|Hne].
      + rewrite Hget. f_equal. unfold gram_value. by rewrite Hjcut'' by lia.
      + rewrite Hother by (intros [= ->]; done). apply Hrow0; lia. }
  exists M2. split; [done|].
  destruct HQ2 as (Hwf2 & Hr2 & Hc2 & Hrows2 & Hrow2).
  unfold gram_inv. split_and!; try done.
  intros i' j' Hi' Hj'. destruct (decide (i' = i)) as [->|Hne].
  - by apply Hrow2.
  - apply Hrows2; lia.
Qed.

(** The first [k] rows, as long as symmetric mode stays below the column
    count. *)
Lemma gram_loop_prefix (k : nat) :
  k ≤ nrows →
  (sym_mode = true → ∀ i, i < k → i = 0 ∨ i < ncols) →
  ∃ M,
    for_loopM 0 k (fun i M =>
      M1 ← copy_from_transpose i (if sym_mode then i else 0) M;
      for_loopM (if sym_mode then i else 0) ncols (fun j M =>
        v ← entry i j; of_option (mat_set M i j v)) M1)
      (mat_zero nrows ncols) = Ok M
    ∧ gram_inv sym_mode e nrows ncols k M.
Proof.
  intros Hk Hsym.
  apply (for_loopM_inv (gram_inv sym_mode e nrows ncols)); [lia| |].
  - split; [apply mat_zero_wf|]. split_and!; try done. intros; lia.
  - intros i M Hi Hinv. apply gram_row; [lia| |done].
    intros Hs. apply Hsym; [done|lia].
Qed.

(** The loop nest succeeds when symmetric mode has no more rows than
    columns (or a single row). *)
Lemma gram_loop_ok :
  (sym_mode = true → nrows ≤ ncols ∨ nrows ≤ 1) →
  ∃ M, gram_loop entry sym_mode nrows ncols = Ok M
       ∧ gram_inv sym_mode e nrows ncols nrows M.
Proof.
  intros Hsym. apply gram_loop_prefix; [done|].
  intros Hs i Hi. destruct (Hsym Hs); lia.
Qed.

(** In symmetric mode with at least two rows and fewer columns than rows,
    the read [M(0, i)] of the row [i = max ncols 1] is outside the matrix. *)
Lemma gram_loop_out_of_range :
  sym_mode = true → 2 ≤ nrows → ncols < nrows →
  gram_loop entry sym_mode nrows ncols = Err IndexOutOfRange.
Proof.
  intros Hs Hrows Hcols.
  destruct (gram_loop_prefix (Nat.max ncols 1)) as (M & HM & Hinv); [lia| |].
  { intros _ i Hi. lia. }
  unfold gram_loop.
  apply (for_loopM_fail 0 (Nat.max ncols 1) nrows _ _ M); [lia|exact HM|].
  destruct Hinv as (Hwf & Hr & Hc & _). rewrite Hs.
  unfold copy_from_transpose.
  rewrite (for_loopM_fail 0 0 (Nat.max ncols 1) _ M M IndexOutOfRange); [done|lia| |].
  - by apply for_loopM_empty.
  - rewrite mat_get_out_of_range by lia. done.
Qed.

End GramLoopProperties.

(** ** The sized overloads as instances of the loop nest *)

Section GramOverloads.
Context {R : Type} `{ScalarOps R}.

Lemma bind_not_err {A B : Type} (m : result A) (k : A → result B) (e0 : error) :
  m ≠ Err e0 → (∀ a, k a ≠ Err e0) → (m ≫= k) ≠ Err e0.
Proof. destruct m; simpl; [auto|congruence]. Qed.

Lemma of_option_not_precondition {A : Type} (o : option A) :
  of_option o ≠ Err PreconditionFailure.
Proof. by destruct o. Qed.

Lemma for_loopM_not_err {S : Type} (e0 : error) (lo hi : nat)
    (body : nat → S → result S) (s : S) :
  (∀ x s', body x s' ≠ Err e0) → for_loopM lo hi body s ≠ Err e0.
Proof.
  intros Hbody. induction hi as [|hi IH].
  - by rewrite for_loopM_empty by lia.
  - destruct (decide (lo ≤ hi)).
    + rewrite for_loopM_S by done. by apply bind_not_err.
    + by rewrite for_loopM_empty by lia.
Qed.

Lemma fill_array_not_precondition (n : nat) (f : nat → result R) :
  (∀ i, f i ≠ Err PreconditionFailure) →
  fill_array n f ≠ Err PreconditionFailure.
Proof.
  intros Hf. apply for_loopM_not_err. intros x a.
  apply bind_not_err; [apply Hf|done].
Qed.

Lemma gram_loop_not_precondition (entry : nat → nat → result R) (sym_mode : bool)
    (nrows ncols : nat) :
  (∀ i j, entry i j ≠ Err PreconditionFailure) →
  gram_loop entry sym_mode nrows ncols ≠ Err PreconditionFailure.
Proof.
  intros Hentry. apply for_loopM_not_err. intros i M.
  apply bind_not_err.
  - apply for_loopM_not_err. intros j M'.
    apply bind_not_err; intros; apply of_option_not_precondition.
  - intros M'. apply for_loopM_not_err. intros j M''.
    apply bind_not_err; [apply Hentry|]. intros; apply of_option_not_precondition.
Qed.

Lemma compute_gram_matrix_ss_loop (B1 B2 : multi_array R) (qr : QuadratureRule R)
    (nrows ncols : nat) (sym : string) :
  compute_gram_matrix_ss B1 B2 qr nrows ncols sym
  = (_ ← assert ((length qr =? ma_shape1 B1) && (length qr =? ma_shape1 B2));
     _ ← assert ((nrows <=? ma_shape0 B1) && (ncols <=? ma_shape0 B2));
     qr_weights ← quadrature_weights qr;
     gram_loop (entry_ss B1 B2 qr_weights) (String.eqb sym "sym") nrows ncols).
Proof.
  unfold compute_gram_matrix_ss, gram_loop.
  destruct (assert _); simpl; [|done]. destruct (assert _); simpl; [|done].
  destruct (quadrature_weights qr) as [ws|]; simpl; [|done].
  apply for_loopM_ext. intros i M _.
  destruct (copy_from_transpose _ _ _); simpl; [|done].
  apply for_loopM_ext. intros j M' _. unfold entry_ss.
  destruct (ma_row_range B1 _ _) as [B1i|]; [|done].
  destruct (ma_row_range B2 _ _) as [B2j|]; [|done].
  cbn [of_option mbind result_bind].
  destruct (origin_pointer B1i) as [p1|]; [|done].
  by destruct (origin_pointer B2j) as [p2|].
Qed.

Lemma compute_gram_matrix_vv_loop (B1 B2 : multi_array (VectorRd R))
    (qr : QuadratureRule R) (nrows ncols : nat) (sym : string) :
  compute_gram_matrix_vv B1 B2 qr nrows ncols sym
  = (_ ← assert ((length qr =? ma_shape1 B1) && (length qr =? ma_shape1 B2));
     _ ← assert ((nrows <=? ma_shape0 B1) && (ncols <=? ma_shape0 B2));
     qr_weights ← quadrature_weights qr;
     gram_loop (entry_vv B1 B2 qr qr_weights) (String.eqb sym "sym") nrows ncols).
Proof.
  unfold compute_gram_matrix_vv, gram_loop.
  destruct (assert _); simpl; [|done]. destruct (assert _); simpl; [|done].
  destruct (quadrature_weights qr) as [ws|]; simpl; [|done].
  apply for_loopM_ext. intros i M _.
  destruct (copy_from_transpose _ _ _); simpl; [|done].
  apply for_loopM_ext. intros j M' _. unfold entry_vv.
  by destruct (fill_array _ _).
Qed.

Lemma assert_true (b : bool) : b = true → assert b = Ok tt.
Proof. by intros ->. Qed.

Lemma assert_false (b : bool) : b = false → assert b = Err PreconditionFailure.
Proof. by intros ->. Qed.

Lemma nodes_match_true {T U : Type} (B1 : multi_array T) (B2 : multi_array U)
    (n : nat) :
  n = ma_shape1 B1 → n = ma_shape1 B2 →
  (n =? ma_shape1 B1) && (n =? ma_shape1 B2) = true.
Proof. intros <- <-. by rewrite Nat.eqb_refl. Qed.

Lemma sizes_fit_true {T U : Type} (B1 : multi_array T) (B2 : multi_array U)
    (nrows ncols : nat) :
  nrows ≤ ma_shape0 B1 → ncols ≤ ma_shape0 B2 →
  (nrows <=? ma_shape0 B1) && (ncols <=? ma_shape0 B2) = true.
Proof.
  intros H1 H2. by rewrite (proj2 (Nat.leb_le _ _) H1), (proj2 (Nat.leb_le _ _) H2).
Qed.

(** The pointer to the first element of a sampled row exists when there
    is a node, and the array mapped at it is the row. *)
Lemma origin_pointer_row {T : Type} (g : nat → T) (n : nat) :
  0 < n → origin_pointer (map g (seq 0 n)) = Some (map g (seq 0 n)).
Proof.
  intros Hn. unfold origin_pointer. by rewrite lookup_map_seq by done.
Qed.

Lemma eigen_map_all {T : Type} (a : list T) : eigen_map a (length a) = a.
Proof. unfold eigen_map. by apply take_ge. Qed.

(** The entry of the scalar overload, with the preconditions, for a rule
    that has a node. *)
Lemma entry_ss_value (B1 B2 : multi_array R) (qr : QuadratureRule R) (i j : nat) :
  length qr = ma_shape1 B1 → length qr = ma_shape1 B2 →
  0 < length qr →
  i < ma_shape0 B1 → j < ma_shape0 B2 →
  entry_ss B1 B2 (map (weight_at qr) (seq 0 (length qr))) i j
  = Ok (computed_entry_ss B1 B2 qr i j).
Proof.
  intros Hq1 Hq2 Hpos Hi Hj. unfold entry_ss, ma_row_range.
  rewrite (proj2 (Nat.ltb_lt _ _) Hi), (proj2 (Nat.ltb_lt _ _) Hj).
  rewrite Nat.leb_refl, <- Hq1, Hq2, Nat.leb_refl. simpl.
  rewrite <- Hq2, !origin_pointer_row by done. simpl.
  rewrite !eigen_map_all.
  unfold computed_entry_ss, array_mul.
  by rewrite !zip_with_map_seq.
Qed.

(** For families sampled at no node, the entry of the scalar overload
    ends on the range check of [&B1i[0]]. *)
Lemma entry_ss_no_node (B1 B2 : multi_array R) (qr_weights : list R) (i j : nat) :
  ma_shape1 B1 = 0 →
  i < ma_shape0 B1 → j < ma_shape0 B2 →
  entry_ss B1 B2 qr_weights i j = Err IndexOutOfRange.
Proof.
  intros Hn Hi Hj. unfold entry_ss, ma_row_range.
  rewrite (proj2 (Nat.ltb_lt _ _) Hi), (proj2 (Nat.ltb_lt _ _) Hj), Hn.
  reflexivity.
Qed.

(** A failure of the first entry is the result of the loop nest. *)
Lemma gram_loop_first_entry (entry : nat → nat → result R) (sym_mode : bool)
    (nrows ncols : nat) (e0 : error) :
  0 < nrows → 0 < ncols → entry 0 0 = Err e0 →
  gram_loop entry sym_mode nrows ncols = Err e0.
Proof.
  intros Hr Hc Hfail. unfold gram_loop.
  apply (for_loopM_fail 0 0 nrows _ _ (mat_zero nrows ncols));
    [lia|by apply for_loopM_empty|].
  replace (if sym_mode then 0 else 0) with 0 by (by destruct sym_mode).
  unfold copy_from_transpose. rewrite for_loopM_empty by lia. simpl.
  apply (for_loopM_fail 0 0 ncols _ _ (mat_zero nrows ncols));
    [lia|by apply for_loopM_empty|].
  by rewrite Hfail.
Qed.

(** The entry of the vector overload, with the preconditions. *)
Lemma entry_vv_value (B1 B2 : multi_array (VectorRd R)) (qr : QuadratureRule R)
    (i j : nat) :
  length qr = ma_shape1 B1 → length qr = ma_shape1 B2 →
  i < ma_shape0 B1 → j < ma_shape0 B2 →
  entry_vv B1 B2 qr (map (weight_at qr) (seq 0 (length qr))) i j
  = Ok (computed_entry_vv B1 B2 qr i j).
Proof.
  intros Hq1 Hq2 Hi Hj. unfold entry_vv.
  rewrite (fill_array_spec _ _
             (fun q => v_dot (ma_elem B1 i q) (ma_elem B2 j q))).
  - simpl. unfold computed_entry_vv, array_mul. by rewrite zip_with_map_seq.
  - intros q Hq. unfold ma_get.
    rewrite (proj2 (Nat.ltb_lt _ _) Hi), (proj2 (Nat.ltb_lt _ _) Hj).
    rewrite <- Hq1, <- Hq2, (proj2 (Nat.ltb_lt _ _) Hq). reflexivity.
Qed.

(** With the preconditions, the sized overloads are the loop nest. *)
Lemma compute_gram_matrix_ss_checked (B1 B2 : multi_array R)
    (qr : QuadratureRule R) (nrows ncols : nat) (sym : string) :
  length qr = ma_shape1 B1 → length qr = ma_shape1 B2 →
  nrows ≤ ma_shape0 B1 → ncols ≤ ma_shape0 B2 →
  compute_gram_matrix_ss B1 B2 qr nrows ncols sym
  = gram_loop (entry_ss B1 B2 (map (weight_at qr) (seq 0 (length qr))))
      (String.eqb sym "sym") nrows ncols.
Proof.
  intros Hq1 Hq2 Hr Hc. rewrite compute_gram_matrix_ss_loop.
  rewrite (assert_true _ (nodes_match_true B1 B2 _ Hq1 Hq2)). simpl.
  rewrite (assert_true _ (sizes_fit_true B1 B2 _ _ Hr Hc)). simpl.
  by rewrite quadrature_weights_spec.
Qed.

Lemma compute_gram_matrix_vv_checked (B1 B2 : multi_array (VectorRd R))
    (qr : QuadratureRule R) (nrows ncols : nat) (sym : string) :
  length qr = ma_shape1 B1 → length qr = ma_shape1 B2 →
  nrows ≤ ma_shape0 B1 → ncols ≤ ma_shape0 B2 →
  compute_gram_matrix_vv B1 B2 qr nrows ncols sym
  = gram_loop (entry_vv B1 B2 qr (map (weight_at qr) (seq 0 (length qr))))
      (String.eqb sym "sym") nrows ncols.
Proof.
  intros Hq1 Hq2 Hr Hc. rewrite compute_gram_matrix_vv_loop.
  rewrite (assert_true _ (nodes_match_true B1 B2 _ Hq1 Hq2)). simpl.
  rewrite (assert_true _ (sizes_fit_true B1 B2 _ _ Hr Hc)). simpl.
  by rewrite quadrature_weights_spec.
Qed.

End GramOverloads.

(** ** The mixed overload *)

Section GramMixed.
Context {R : Type} `{ScalarOps R}.
Variable B1 : multi_array (VectorRd R).
Variable B2 : multi_array R.
Variable qr : QuadratureRule R.
Hypothesis nodes1 : length qr = ma_shape1 B1.
Hypothesis nodes2 : length qr = ma_shape1 B2.

Lemma column_decode (k j : nat) :
  j < ma_shape0 B2 →
  (k * ma_shape0 B2 + j) / ma_shape0 B2 = k
  ∧ (k * ma_shape0 B2 + j) mod ma_shape0 B2 = j.
Proof.
  intros Hj. split.
  - rewrite Nat.div_add_l by lia. rewrite Nat.div_small by done. lia.
  - rewrite Nat.add_comm, Nat.Div0.mod_add. by apply Nat.mod_small.
Qed.

Lemma vs_partial_S (i k j n : nat) :
  vs_partial B1 B2 qr i k j (S n)
  = (vs_partial B1 B2 qr i k j n + term_vs B1 B2 qr i k j n)%sc.
Proof. unfold vs_partial, ssum. by rewrite seq_S, map_app, fold_left_app. Qed.

(** The loop over the nodes completes the column [k * n2 + j] of the
    row [i]. *)
Lemma vs_column (i k j : nat) (M : MatrixXd R) :
  i < ma_shape0 B1 → k < dimspace → j < ma_shape0 B2 →
  vs_inv B1 B2 qr i (k * ma_shape0 B2 + j) M →
  ∃ M',
    for_loopM 0 (length qr) (fun iqn M =>
      nd ← of_option (qr !! iqn);
      b1 ← of_option (ma_get B1 i iqn);
      b2 ← of_option (ma_get B2 j iqn);
      old ← of_option (mat_get M i (k * ma_shape0 B2 + j));
      of_option (mat_set M i (k * ma_shape0 B2 + j)
                   (old + qw nd * v_dot b1 (unit_vector k) * b2)%sc)) M = Ok M'
    ∧ vs_inv B1 B2 qr i (k * ma_shape0 B2 + S j) M'.
Proof.
  intros Hi Hk Hj (Hwf & Hr & Hc & Hget).
  set (c := k * ma_shape0 B2 + j).
  assert (Hcr : c < dimspace * ma_shape0 B2) by (unfold c, dimspace in *; nia).
  set (Q := fun (n : nat) (M : MatrixXd R) =>
    mat_wf M ∧ m_rows M = ma_shape0 B1 ∧ m_cols M = dimspace * ma_shape0 B2
    ∧ (∀ i' c', i' < ma_shape0 B1 → c' < dimspace * ma_shape0 B2 →
         (i', c') ≠ (i, c) →
         mat_get M i' c'
         = Some (if (i' <? i) || ((i' =? i) && (c' <? c))
                 then vs_value B1 B2 qr i' c' else s_zero))
    ∧ mat_get M i c = Some (vs_partial B1 B2 qr i k j n)).
  destruct (for_loopM_inv Q 0 (length qr) (fun iqn M =>
      nd ← of_option (qr !! iqn);
      b1 ← of_option (ma_get B1 i iqn);
      b2 ← of_option (ma_get B2 j iqn);
      old ← of_option (mat_get M i c);
      of_option (mat_set M i c (old + qw nd * v_dot b1 (unit_vector k) * b2)%sc)) M)
    as (M' & HM' & HQ).
  { lia. }
  { unfold Q. split_and!; try done.
    - intros i' c' Hi' Hc' _. by apply Hget.
    - rewrite Hget by done. rewrite Nat.ltb_irrefl, Nat.eqb_refl, Nat.ltb_irrefl.
      reflexivity. }
  { intros n M0 Hn (Hwf0 & Hr0 & Hc0 & Hother0 & Hcur0).
    destruct (lookup_lt_is_Some_2 qr n) as [nd Hnd]; [lia|].
    rewrite Hnd. simpl. unfold ma_get.
    rewrite (proj2 (Nat.ltb_lt _ _) Hi), (proj2 (Nat.ltb_lt _ _) Hj).
    rewrite <- nodes1, <- nodes2, (proj2 (Nat.ltb_lt n (length qr))) by lia. simpl.
    rewrite Hcur0. simpl.
    destruct (mat_set_spec M0 i c
                (vs_partial B1 B2 qr i k j n
                 + qw nd * v_dot (ma_elem B1 i n) (unit_vector k) * ma_elem B2 j n)%sc)
      as (M0' & -> & Hwf' & Hr' & Hc' & Hset & Hoth); [done|lia|lia|].
    exists M0'. split; [done|]. unfold Q. split_and!; try done; try congruence.
    - intros i' c' Hi' Hc'' Hne. rewrite Hoth by done. by apply Hother0.
    - rewrite Hset, vs_partial_S. unfold term_vs, weight_at. by rewrite Hnd. }
  exists M'. split; [exact HM'|].
  destruct HQ as (Hwf' & Hr' & Hc' & Hother & Hcur).
  unfold vs_inv. split_and!; try done.
  intros i' c' Hi' Hc''. fold c. replace (c + 1) with (S c) by lia.
  destruct (decide ((i', c') = (i, c))) as [[= -> ->]|Hne].
  - rewrite Hcur. f_equal.
    rewrite Nat.ltb_irrefl, Nat.eqb_refl, (proj2 (Nat.ltb_lt c (k * ma_shape0 B2 + S j)))
      by (unfold c; lia).
    simpl. unfold vs_value, c.
    destruct (column_decode k j Hj) as [-> ->]. reflexivity.
  - rewrite Hother by done. f_equal.
    destruct (Nat.ltb_spec i' i); simpl; [done|].
    destruct (Nat.eqb_spec i' i) as [->|]; simpl; [|done].
    assert (c' ≠ c) by congruence.
    destruct (Nat.ltb_spec c' c), (Nat.ltb_spec c' (k * ma_shape0 B2 + S j));
      try done; unfold c in *; lia.
Qed.

(** The loop over the members of [B2] completes the column block of the
    axis [k]. *)
Lemma vs_block (i k : nat) (M : MatrixXd R) :
  i < ma_shape0 B1 → k < dimspace →
  vs_inv B1 B2 qr i (k * ma_shape0 B2) M →
  ∃ M',
    for_loopM 0 (ma_shape0 B2) (fun j M =>
      for_loopM 0 (length qr) (fun iqn M =>
        nd ← of_option (qr !! iqn);
        b1 ← of_option (ma_get B1 i iqn);
        b2 ← of_option (ma_get B2 j iqn);
        old ← of_option (mat_get M i (k * ma_shape0 B2 + j));
        of_option (mat_set M i (k * ma_shape0 B2 + j)
                     (old + qw nd * v_dot b1 (unit_vector k) * b2)%sc)) M) M = Ok M'
    ∧ vs_inv B1 B2 qr i (S k * ma_shape0 B2) M'.
Proof.
  intros Hi Hk Hinv.
  replace (S k * ma_shape0 B2) with (k * ma_shape0 B2 + ma_shape0 B2) by lia.
  apply (for_loopM_inv (fun j M => vs_inv B1 B2 qr i (k * ma_shape0 B2 + j) M));
    [lia|by rewrite Nat.add_0_r|].
  intros j M0 Hj Hinv0. apply vs_column; [done|done|lia|done].
Qed.

(** The loop over the axes completes the row [i]. *)
Lemma vs_row (i : nat) (M : MatrixXd R) :
  i < ma_shape0 B1 →
  vs_inv B1 B2 qr i 0 M →
  ∃ M',
    for_loopM 0 dimspace (fun k M =>
      let ek := unit_vector k in
      for_loopM 0 (ma_shape0 B2) (fun j M =>
        for_loopM 0 (length qr) (fun iqn M =>
          nd ← of_option (qr !! iqn);
          b1 ← of_option (ma_get B1 i iqn);
          b2 ← of_option (ma_get B2 j iqn);
          old ← of_option (mat_get M i (k * ma_shape0 B2 + j));
          of_option (mat_set M i (k * ma_shape0 B2 + j)
                       (old + qw nd * v_dot b1 ek * b2)%sc)) M) M) M = Ok M'
    ∧ vs_inv B1 B2 qr (S i) 0 M'.
Proof.
  intros Hi Hinv.
  destruct (for_loopM_inv (fun k M => vs_inv B1 B2 qr i (k * ma_shape0 B2) M)
              0 dimspace (fun k M =>
      let ek := unit_vector k in
      for_loopM 0 (ma_shape0 B2) (fun j M =>
        for_loopM 0 (length qr) (fun iqn M =>
          nd ← of_option (qr !! iqn);
          b1 ← of_option (ma_get B1 i iqn);
          b2 ← of_option (ma_get B2 j iqn);
          old ← of_option (mat_get M i (k * ma_shape0 B2 + j));
          of_option (mat_set M i (k * ma_shape0 B2 + j)
                       (old + qw nd * v_dot b1 ek * b2)%sc)) M) M) M)
    as (M' & HM' & Hwf & Hr & Hc & Hget).
  { lia. }
  { done. }
  { intros k M0 Hk Hinv0. apply vs_block; [done|lia|done]. }
  exists M'. split; [exact HM'|]. unfold vs_inv. split_and!; try done.
  intros i' c' Hi' Hc'. rewrite Hget by done. f_equal.
  rewrite (proj2 (Nat.ltb_lt c' (dimspace * ma_shape0 B2))) by done.
  replace (c' <? 0) with false by (symmetry; apply Nat.ltb_ge; lia).
  rewrite !andb_true_r, andb_false_r, orb_false_r.
  destruct (Nat.ltb_spec i' i), (Nat.eqb_spec i' i), (Nat.ltb_spec i' (S i));
    simpl; try done; lia.
Qed.

(** The mixed overload returns the matrix of the column values. *)
Lemma compute_gram_matrix_vs_spec :
  ∃ M, compute_gram_matrix_vs B1 B2 qr = Ok M
       ∧ mat_wf M ∧ m_rows M = ma_shape0 B1 ∧ m_cols M = dimspace * ma_shape0 B2
       ∧ ∀ i k j, i < ma_shape0 B1 → k < dimspace → j < ma_shape0 B2 →
           mat_get M i (k * ma_shape0 B2 + j)
           = Some (vs_partial B1 B2 qr i k j (length qr)).
Proof.
  unfold compute_gram_matrix_vs.
  rewrite (assert_true _ (nodes_match_true B1 B2 _ nodes1 nodes2)). simpl.
  destruct (for_loopM_inv (fun i M => vs_inv B1 B2 qr i 0 M) 0 (ma_shape0 B1)
              (fun i M =>
    for_loopM 0 dimspace (fun k M =>
      let ek := unit_vector k in
      for_loopM 0 (ma_shape0 B2) (fun j M =>
        for_loopM 0 (length qr) (fun iqn M =>
          nd ← of_option (qr !! iqn);
          b1 ← of_option (ma_get B1 i iqn);
          b2 ← of_option (ma_get B2 j iqn);
          old ← of_option (mat_get M i (k * ma_shape0 B2 + j));
          of_option (mat_set M i (k * ma_shape0 B2 + j)
                       (old + qw nd * v_dot b1 ek * b2)%sc)) M) M) M)
              (mat_zero (ma_shape0 B1) (dimspace * ma_shape0 B2)))
    as (M & HM & Hwf & Hr & Hc & Hget).
  { lia. }
  { split; [apply mat_zero_wf|]. split_and!; try done.
    intros i' c' Hi' Hc'. rewrite mat_get_zero by done.
    replace (i' <? 0) with false by (symmetry; apply Nat.ltb_ge; lia).
    replace (c' <? 0) with false by (symmetry; apply Nat.ltb_ge; lia).
    by rewrite andb_false_r. }
  { intros i M0 Hi Hinv. apply vs_row; [lia|done]. }
  exists M. split; [exact HM|]. split_and!; try done.
  intros i k j Hi Hk Hj.
  rewrite Hget by (try done; unfold dimspace in *; nia).
  rewrite (proj2 (Nat.ltb_lt i (ma_shape0 B1))) by done. simpl.
  unfold vs_value. destruct (column_decode k j Hj) as [-> ->]. reflexivity.
Qed.

End GramMixed.

(** ** Gram matrices *)

#[export] Instance Z_scalar_laws : ScalarLaws Z.
Proof.
  split; simpl; intros; try lia. apply Zdiv_0_l.
Qed.

Section GramClaims.
Context {R : Type} `{ScalarOps R}.

Lemma sym_mode_off (sym : string) : sym ≠ "sym" → String.eqb sym "sym" = false.
Proof. intros Hne. by apply String.eqb_neq. Qed.

Lemma gram_value_transpose (e : nat → nat → R) (i j : nat) :
  gram_value true e i j = gram_value true e j i.
Proof.
  unfold gram_value. simpl.
  destruct (Nat.ltb_spec j i), (Nat.ltb_spec i j); try done; try lia.
  by replace j with i by lia.
Qed.

(** A square matrix filled in symmetric mode is its own transpose. *)
Lemma gram_inv_symmetric (e : nat → nat → R) (n : nat) (M : MatrixXd R) :
  gram_inv true e n n n M → M = mat_transpose M.
Proof.
  intros (Hwf & Hr & Hc & Hget).
  apply mat_ext; [done|apply mat_transpose_wf|simpl; congruence..|].
  intros i j Hi Hj. rewrite Hget by lia. symmetry.
  apply mat_get_transpose; [lia..|].
  rewrite Hget by lia. by rewrite gram_value_transpose.
Qed.

(** C4.  For a family [B] (scalar- or vector-valued) sampled at the nodes
    of the rule, and [n] rows and columns within the family (in
    particular the whole family), [compute_gram_matrix(B, B, qr, n, n,
    "sym")] returns a matrix that is equal to its own transpose, entry for
    entry, whatever the arithmetic of the scalars is.  The scalar
    overloads take the address of the first sample of a row: for them the
    rule has at least one node. *)
Theorem gram_sym_equals_transpose
    (B : multi_array R) (Bv : multi_array (VectorRd R)) (qr : QuadratureRule R)
    (n nv : nat) :
  length qr = ma_shape1 B → length qr = ma_shape1 Bv →
  n ≤ ma_shape0 B → nv ≤ ma_shape0 Bv →
  (0 < length qr →
   (∃ M, compute_gram_matrix_ss B B qr n n "sym" = Ok M ∧ M = mat_transpose M)
   ∧ (∃ M, compute_gram_matrix_ss_full B B qr "sym" = Ok M ∧ M = mat_transpose M))
  ∧ (∃ M, compute_gram_matrix_vv Bv Bv qr nv nv "sym" = Ok M ∧ M = mat_transpose M)
  ∧ (∃ M, compute_gram_matrix_vv_full Bv Bv qr "sym" = Ok M ∧ M = mat_transpose M).
Proof.
  intros Hq Hqv Hn Hnv.
  assert (Hss : 0 < length qr → ∀ m, m ≤ ma_shape0 B →
    ∃ M, compute_gram_matrix_ss B B qr m m "sym" = Ok M ∧ M = mat_transpose M).
  { intros Hpos m Hm. rewrite compute_gram_matrix_ss_checked by done.
    destruct (gram_loop_ok (entry_ss B B (map (weight_at qr) (seq 0 (length qr))))
        (computed_entry_ss B B qr) true m m) as (M & HM & Hinv).
    - intros i j Hi Hj. apply entry_ss_value; [done|done|done|lia|lia].
    - intros _. lia.
    - exists M. split; [exact HM|]. by eapply gram_inv_symmetric. }
  assert (Hvv : ∀ m, m ≤ ma_shape0 Bv →
    ∃ M, compute_gram_matrix_vv Bv Bv qr m m "sym" = Ok M ∧ M = mat_transpose M).
  { intros m Hm. rewrite compute_gram_matrix_vv_checked by done.
    destruct (gram_loop_ok (entry_vv Bv Bv qr (map (weight_at qr) (seq 0 (length qr))))
        (computed_entry_vv Bv Bv qr) true m m) as (M & HM & Hinv).
    - intros i j Hi Hj. apply entry_vv_value; [done|done|lia|lia].
    - intros _. lia.
    - exists M. split; [exact HM|]. by eapply gram_inv_symmetric. }
  split_and!; [|by apply Hvv|by apply Hvv].
  intros Hpos. split; by apply Hss.
Qed.

(** C7.  Each overload of [compute_gram_matrix] fails with a precondition
    failure exactly when the node count of the rule differs from the
    sampled node count of a family, or (sized overloads) when [nrows]
    exceeds the size of the first family or [ncols] the size of the
    second. *)
Theorem gram_precondition_failure
    (B1 B2 : multi_array R) (Bv1 Bv2 : multi_array (VectorRd R))
    (qr : QuadratureRule R) (nrows ncols : nat) (sym : string) :
  (compute_gram_matrix_ss B1 B2 qr nrows ncols sym = Err PreconditionFailure
   ↔ length qr ≠ ma_shape1 B1 ∨ length qr ≠ ma_shape1 B2
     ∨ ma_shape0 B1 < nrows ∨ ma_shape0 B2 < ncols)
  ∧ (compute_gram_matrix_vv Bv1 Bv2 qr nrows ncols sym = Err PreconditionFailure
     ↔ length qr ≠ ma_shape1 Bv1 ∨ length qr ≠ ma_shape1 Bv2
       ∨ ma_shape0 Bv1 < nrows ∨ ma_shape0 Bv2 < ncols)
  ∧ (compute_gram_matrix_vs Bv1 B2 qr = Err PreconditionFailure
     ↔ length qr ≠ ma_shape1 Bv1 ∨ length qr ≠ ma_shape1 B2)
  ∧ (compute_gram_matrix_ss_full B1 B2 qr sym = Err PreconditionFailure
     ↔ length qr ≠ ma_shape1 B1 ∨ length qr ≠ ma_shape1 B2)
  ∧ (compute_gram_matrix_vv_full Bv1 Bv2 qr sym = Err PreconditionFailure
     ↔ length qr ≠ ma_shape1 Bv1 ∨ length qr ≠ ma_shape1 Bv2).
Proof.
  assert (Hnodes : ∀ (T U : Type) (C1 : multi_array T) (C2 : multi_array U),
    (length qr ≠ ma_shape1 C1 ∨ length qr ≠ ma_shape1 C2) →
    (length qr =? ma_shape1 C1) && (length qr =? ma_shape1 C2) = false).
  { intros T U C1 C2 Hne.
    destruct (Nat.eqb_spec (length qr) (ma_shape1 C1)),
             (Nat.eqb_spec (length qr) (ma_shape1 C2)); simpl; try done.
    destruct Hne; done. }
  assert (Hsizes : ∀ (T U : Type) (C1 : multi_array T) (C2 : multi_array U) r c,
    (ma_shape0 C1 < r ∨ ma_shape0 C2 < c) →
    (r <=? ma_shape0 C1) && (c <=? ma_shape0 C2) = false).
  { intros T U C1 C2 r c Hlt.
    destruct (Nat.leb_spec r (ma_shape0 C1)), (Nat.leb_spec c (ma_shape0 C2));
      simpl; try done. lia. }
  assert (Hss : ∀ r c,
    compute_gram_matrix_ss B1 B2 qr r c sym = Err PreconditionFailure
    ↔ length qr ≠ ma_shape1 B1 ∨ length qr ≠ ma_shape1 B2
      ∨ ma_shape0 B1 < r ∨ ma_shape0 B2 < c).
  { intros r c. split.
    - intros Herr.
      destruct (decide (length qr = ma_shape1 B1)) as [Hq1|]; [|by left].
      destruct (decide (length qr = ma_shape1 B2)) as [Hq2|]; [|by right; left].
      destruct (decide (r ≤ ma_shape0 B1)); [|right; right; left; lia].
      destruct (decide (c ≤ ma_shape0 B2)); [|right; right; right; lia].
      exfalso. rewrite compute_gram_matrix_ss_checked in Herr by done.
      revert Herr. apply gram_loop_not_precondition. intros i j. unfold entry_ss.
      apply bind_not_err; [apply of_option_not_precondition|]. intros a.
      apply bind_not_err; [apply of_option_not_precondition|]. intros b.
      apply bind_not_err; [apply of_option_not_precondition|]. intros p1.
      apply bind_not_err; [apply of_option_not_precondition|done].
    - intros Hbad. rewrite compute_gram_matrix_ss_loop.
      destruct (decide (length qr = ma_shape1 B1 ∧ length qr = ma_shape1 B2))
        as [[Hq1 Hq2]|Hn].
      + rewrite (assert_true _ (nodes_match_true B1 B2 _ Hq1 Hq2)). simpl.
        rewrite (assert_false _ (Hsizes _ _ B1 B2 r c ltac:(tauto))). done.
      + rewrite (assert_false _ (Hnodes _ _ B1 B2 ltac:(lia))). done. }
  assert (Hvv : ∀ r c,
    compute_gram_matrix_vv Bv1 Bv2 qr r c sym = Err PreconditionFailure
    ↔ length qr ≠ ma_shape1 Bv1 ∨ length qr ≠ ma_shape1 Bv2
      ∨ ma_shape0 Bv1 < r ∨ ma_shape0 Bv2 < c).
  { intros r c. split.
    - intros Herr.
      destruct (decide (length qr = ma_shape1 Bv1)) as [Hq1|]; [|by left].
      destruct (decide (length qr = ma_shape1 Bv2)) as [Hq2|]; [|by right; left].
      destruct (decide (r ≤ ma_shape0 Bv1)); [|right; right; left; lia].
      destruct (decide (c ≤ ma_shape0 Bv2)); [|right; right; right; lia].
      exfalso. rewrite compute_gram_matrix_vv_checked in Herr by done.
      revert Herr. apply gram_loop_not_precondition. intros i j. unfold entry_vv.
      apply bind_not_err; [|done]. apply fill_array_not_precondition. intros q.
      apply bind_not_err; [apply of_option_not_precondition|]. intros a.
      apply bind_not_err; [apply of_option_not_precondition|done].
    - intros Hbad. rewrite compute_gram_matrix_vv_loop.
      destruct (decide (length qr = ma_shape1 Bv1 ∧ length qr = ma_shape1 Bv2))
        as [[Hq1 Hq2]|Hn].
      + rewrite (assert_true _ (nodes_match_true Bv1 Bv2 _ Hq1 Hq2)). simpl.
        rewrite (assert_false _ (Hsizes _ _ Bv1 Bv2 r c ltac:(tauto))). done.
      + rewrite (assert_false _ (Hnodes _ _ Bv1 Bv2 ltac:(lia))). done. }
  split_and!.
  - apply Hss.
  - apply Hvv.
  - split.
    + intros Herr.
      destruct (decide (length qr = ma_shape1 Bv1)) as [Hq1|]; [|by left].
      destruct (decide (length qr = ma_shape1 B2)) as [Hq2|]; [|by right].
      destruct (compute_gram_matrix_vs_spec Bv1 B2 qr Hq1 Hq2) as (M & HM & _).
      congruence.
    + intros Hbad. unfold compute_gram_matrix_vs.
      by rewrite (assert_false _ (Hnodes _ _ Bv1 B2 Hbad)).
  - unfold compute_gram_matrix_ss_full. rewrite Hss. split; [|tauto].
    intros [?|[?|[?|?]]]; [tauto|tauto|lia|lia].
  - unfold compute_gram_matrix_vv_full. rewrite Hvv. split; [|tauto].
    intros [?|[?|[?|?]]]; [tauto|tauto|lia|lia].
Qed.

Lemma in_copy_accesses (nrows r c : nat) :
  In (r, c) (copy_accesses nrows)
  ↔ ∃ i j, j < i ∧ i < nrows ∧ ((r, c) = (j, i) ∨ (r, c) = (i, j)).
Proof.
  unfold copy_accesses. rewrite in_flat_map. split.
  - intros (i & Hi & Hin). apply in_flat_map in Hin as (j & Hj & Hin).
    apply in_seq in Hi, Hj. exists i, j.
    destruct Hin as [<-|[<-|[]]]; (split; [lia|split; [lia|tauto]]).
  - intros (i & j & Hji & Hi & Hrc).
    exists i. split; [apply in_seq; lia|]. apply in_flat_map.
    exists j. split; [apply in_seq; lia|].
    destruct Hrc as [->| ->]; simpl; tauto.
Qed.

(** C9.  In the sized overloads with [sym = "sym"] (preconditions
    satisfied): when [nrows <= ncols] every access of the copy from the
    transpose is inside the [nrows x ncols] result and the call returns a
    matrix (the scalar overload for a rule of at least one node, since it
    takes the address of the first sample of a row); when [nrows >= 2] and
    [nrows > ncols] the copy performs an access [M(j, i)] whose column
    index [i >= ncols] is outside the result (reading it gives nothing),
    and the call ends on a range failure. *)
Theorem sym_copy_out_of_range
    (B1 B2 : multi_array R) (Bv1 Bv2 : multi_array (VectorRd R))
    (qr : QuadratureRule R) (nrows ncols : nat) :
  length qr = ma_shape1 B1 → length qr = ma_shape1 B2 →
  length qr = ma_shape1 Bv1 → length qr = ma_shape1 Bv2 →
  nrows ≤ ma_shape0 B1 → ncols ≤ ma_shape0 B2 →
  nrows ≤ ma_shape0 Bv1 → ncols ≤ ma_shape0 Bv2 →
  (nrows ≤ ncols →
     (∀ r c, In (r, c) (copy_accesses nrows) → r < nrows ∧ c < ncols)
     ∧ (0 < length qr →
        ∃ M, compute_gram_matrix_ss B1 B2 qr nrows ncols "sym" = Ok M)
     ∧ (∃ M, compute_gram_matrix_vv Bv1 Bv2 qr nrows ncols "sym" = Ok M))
  ∧ (2 ≤ nrows → ncols < nrows →
     (∃ i j, j < i ∧ i < nrows ∧ ncols ≤ i
             ∧ In (j, i) (copy_accesses nrows)
             ∧ ∀ M : MatrixXd R, m_rows M = nrows → m_cols M = ncols →
                 mat_get M j i = None)
     ∧ compute_gram_matrix_ss B1 B2 qr nrows ncols "sym" = Err IndexOutOfRange
     ∧ compute_gram_matrix_vv Bv1 Bv2 qr nrows ncols "sym" = Err IndexOutOfRange).
Proof.
  intros Hq1 Hq2 Hqv1 Hqv2 Hr Hc Hrv Hcv. split.
  - intros Hle. split_and!.
    + intros r c Hin. apply in_copy_accesses in Hin as (i & j & Hji & Hi & Hrc).
      destruct Hrc as [[= -> ->]|[= -> ->]]; lia.
    + intros Hpos. rewrite compute_gram_matrix_ss_checked by done.
      destruct (gram_loop_ok (entry_ss B1 B2 (map (weight_at qr) (seq 0 (length qr))))
        (computed_entry_ss B1 B2 qr) true nrows ncols)
        as (M & HM & _); [|tauto|by exists M].
      intros i j Hi Hj. apply entry_ss_value; [done|done|done|lia|lia].
    + rewrite compute_gram_matrix_vv_checked by done.
      destruct (gram_loop_ok (entry_vv Bv1 Bv2 qr (map (weight_at qr) (seq 0 (length qr))))
        (computed_entry_vv Bv1 Bv2 qr) true nrows ncols)
        as (M & HM & _); [|tauto|by exists M].
      intros i j Hi Hj. apply entry_vv_value; [done|done|lia|lia].
  - intros Hrows Hlt. split_and!.
    + exists (Nat.max ncols 1), 0. split_and!; try lia.
      * apply in_copy_accesses. exists (Nat.max ncols 1), 0.
        split_and!; [lia|lia|by left].
      * intros M HMr HMc. apply mat_get_out_of_range. lia.
    + rewrite compute_gram_matrix_ss_checked by done.
      destruct (decide (0 < length qr ∨ ncols = 0)) as [Hfine|Hnone].
      * apply (gram_loop_out_of_range
                 (entry_ss B1 B2 (map (weight_at qr) (seq 0 (length qr))))
                 (computed_entry_ss B1 B2 qr)); try done.
        intros i j Hi Hj. apply entry_ss_value; [done|done|lia|lia|lia].
      * apply gram_loop_first_entry; [lia|lia|].
        apply entry_ss_no_node; lia.
    + rewrite compute_gram_matrix_vv_checked by done.
      apply (gram_loop_out_of_range (entry_vv Bv1 Bv2 qr (map (weight_at qr) (seq 0 (length qr))))
        (computed_entry_vv Bv1 Bv2 qr)); try done.
      intros i j Hi Hj. apply entry_vv_value; [done|done|lia|lia].
Qed.

(** C10.  In the sized overloads, a [sym] argument other than the string
    "sym" (such as "Sym", "symmetric" or the empty string) gives the same
    result as any other such argument, and with the preconditions
    satisfied every entry [(i, j)] of the result is the reduction over the
    nodes of the products [weight(q) * B1_i(q) * B2_j(q)] (scalar
    overload, for a rule of at least one node) or
    [weight(q) * (B1_i(q) . B2_j(q))] (vector overload): no entry is
    copied. *)
Theorem sym_flag_exact_string
    (B1 B2 : multi_array R) (Bv1 Bv2 : multi_array (VectorRd R))
    (qr : QuadratureRule R) (nrows ncols : nat) (sym sym' : string) :
  sym ≠ "sym" → sym' ≠ "sym" →
  compute_gram_matrix_ss B1 B2 qr nrows ncols sym
    = compute_gram_matrix_ss B1 B2 qr nrows ncols sym'
  ∧ compute_gram_matrix_vv Bv1 Bv2 qr nrows ncols sym
    = compute_gram_matrix_vv Bv1 Bv2 qr nrows ncols sym'
  ∧ (length qr = ma_shape1 B1 → length qr = ma_shape1 B2 →
     nrows ≤ ma_shape0 B1 → ncols ≤ ma_shape0 B2 →
     0 < length qr →
     ∃ M, compute_gram_matrix_ss B1 B2 qr nrows ncols sym = Ok M
          ∧ m_rows M = nrows ∧ m_cols M = ncols
          ∧ ∀ i j, i < nrows → j < ncols →
              mat_get M i j = Some (computed_entry_ss B1 B2 qr i j))
  ∧ (length qr = ma_shape1 Bv1 → length qr = ma_shape1 Bv2 →
     nrows ≤ ma_shape0 Bv1 → ncols ≤ ma_shape0 Bv2 →
     ∃ M, compute_gram_matrix_vv Bv1 Bv2 qr nrows ncols sym = Ok M
          ∧ m_rows M = nrows ∧ m_cols M = ncols
          ∧ ∀ i j, i < nrows → j < ncols →
              mat_get M i j = Some (computed_entry_vv Bv1 Bv2 qr i j))
  ∧ "Sym" ≠ "sym" ∧ "symmetric" ≠ "sym" ∧ "" ≠ "sym".
Proof.
  intros Hs Hs'. apply sym_mode_off in Hs, Hs'. split_and!; try done.
  - by rewrite !compute_gram_matrix_ss_loop, Hs, Hs'.
  - by rewrite !compute_gram_matrix_vv_loop, Hs, Hs'.
  - intros Hq1 Hq2 Hr Hc Hpos. rewrite compute_gram_matrix_ss_checked, Hs by done.
    destruct (gram_loop_ok (entry_ss B1 B2 (map (weight_at qr) (seq 0 (length qr))))
        (computed_entry_ss B1 B2 qr) false nrows ncols)
      as (M & HM & Hwf & HMr & HMc & Hget); [|done|].
    { intros i j Hi Hj. apply entry_ss_value; [done|done|done|lia|lia]. }
    exists M. split_and!; try done.
  - intros Hq1 Hq2 Hr Hc. rewrite compute_gram_matrix_vv_checked, Hs by done.
    destruct (gram_loop_ok (entry_vv Bv1 Bv2 qr (map (weight_at qr) (seq 0 (length qr))))
        (computed_entry_vv Bv1 Bv2 qr) false nrows ncols)
      as (M & HM & Hwf & HMr & HMc & Hget); [|done|].
    { intros i j Hi Hj. apply entry_vv_value; [done|done|lia|lia]. }
    exists M. split_and!; try done.
Qed.

End GramClaims.

Section GramEntries.
Context {R : Type} `{ScalarOps R} `{!ScalarLaws R}.
Hypothesis s_mul_comm : ∀ x y : R, (x * y)%sc = (y * x)%sc.

Lemma array_sum_ssum (a : list R) : array_sum a = ssum a.
Proof. destruct a as [|x a]; [done|]. unfold ssum. simpl. by rewrite s_add_0_l. Qed.

Lemma computed_entry_ss_spec (B1 B2 : multi_array R) (qr : QuadratureRule R)
    (i j : nat) :
  computed_entry_ss B1 B2 qr i j = gram_entry s_mul B1 B2 qr i j.
Proof.
  unfold computed_entry_ss, gram_entry. rewrite array_sum_ssum. f_equal.
  apply map_ext. intros q. by rewrite s_mul_assoc.
Qed.

Lemma computed_entry_vv_spec (B1 B2 : multi_array (VectorRd R))
    (qr : QuadratureRule R) (i j : nat) :
  computed_entry_vv B1 B2 qr i j = gram_entry v_dot B1 B2 qr i j.
Proof. unfold computed_entry_vv, gram_entry. by rewrite array_sum_ssum. Qed.

Lemma vs_partial_spec (B1 : multi_array (VectorRd R)) (B2 : multi_array R)
    (qr : QuadratureRule R) (i k j : nat) :
  vs_partial B1 B2 qr i k j (length qr) = gram_entry_axis B1 B2 qr i k j.
Proof.
  unfold vs_partial, gram_entry_axis. f_equal.
  apply map_ext. intros q. unfold term_vs. by rewrite s_mul_assoc.
Qed.

Lemma v_dot_comm (x y : VectorRd R) : v_dot x y = v_dot y x.
Proof.
  unfold v_dot.
  by rewrite (s_mul_comm (c0 x)), (s_mul_comm (c1 x)), (s_mul_comm (c2 x)).
Qed.

(** For one family on both sides, the sum for [(j, i)] is the sum for
    [(i, j)]. *)
Lemma gram_entry_sym {T : Type} (ip : T → T → R) (B : multi_array T)
    (qr : QuadratureRule R) (i j : nat) :
  (∀ x y, ip x y = ip y x) →
  gram_entry ip B B qr j i = gram_entry ip B B qr i j.
Proof.
  intros Hip. unfold gram_entry. f_equal. apply map_ext. intros q. by rewrite Hip.
Qed.

(** C3.  For families sampled at the nodes of the rule, with [nrows] and
    [ncols] within the sizes of the families, and [sym = "sym"] only for
    one and the same family on both sides with [nrows = ncols] (the
    contract of the caller): the sized overloads return an
    [nrows x ncols] matrix whose entry [(i, j)] is the sum over the nodes
    of [weight(q)] times the product (scalar overload, for a rule of at
    least one node) or the dot product (vector overload) of [B1_i(q)] and
    [B2_j(q)]; the mixed overload returns a matrix of [|B1|] rows and
    [dimspace * |B2|] columns whose entry [(i, k * |B2| + j)] is the sum
    of [weight(q) * ((B1_i(q) . e_k) * B2_j(q))].  The sums are those of
    exact arithmetic: the scalars satisfy [ScalarLaws] and their product
    is commutative. *)
Theorem gram_matrix_entries
    (B1 B2 : multi_array R) (Bv1 Bv2 : multi_array (VectorRd R))
    (qr : QuadratureRule R) (nrows ncols : nat) (sym : string) :
  length qr = ma_shape1 B1 → length qr = ma_shape1 B2 →
  length qr = ma_shape1 Bv1 → length qr = ma_shape1 Bv2 →
  nrows ≤ ma_shape0 B1 → ncols ≤ ma_shape0 B2 →
  nrows ≤ ma_shape0 Bv1 → ncols ≤ ma_shape0 Bv2 →
  (sym = "sym" → B1 = B2 ∧ Bv1 = Bv2 ∧ nrows = ncols) →
  (0 < length qr →
   ∃ M, compute_gram_matrix_ss B1 B2 qr nrows ncols sym = Ok M
        ∧ m_rows M = nrows ∧ m_cols M = ncols
        ∧ ∀ i j, i < nrows → j < ncols →
            mat_get M i j = Some (gram_entry s_mul B1 B2 qr i j))
  ∧ (∃ M, compute_gram_matrix_vv Bv1 Bv2 qr nrows ncols sym = Ok M
          ∧ m_rows M = nrows ∧ m_cols M = ncols
          ∧ ∀ i j, i < nrows → j < ncols →
              mat_get M i j = Some (gram_entry v_dot Bv1 Bv2 qr i j))
  ∧ (∃ M, compute_gram_matrix_vs Bv1 B2 qr = Ok M
          ∧ m_rows M = ma_shape0 Bv1 ∧ m_cols M = dimspace * ma_shape0 B2
          ∧ ∀ i k j, i < ma_shape0 Bv1 → k < dimspace → j < ma_shape0 B2 →
              mat_get M i (k * ma_shape0 B2 + j)
              = Some (gram_entry_axis Bv1 B2 qr i k j)).
Proof.
  intros Hq1 Hq2 Hqv1 Hqv2 Hr Hc Hrv Hcv Hsym.
  assert (Hmode : String.eqb sym "sym" = true → nrows ≤ ncols ∨ nrows ≤ 1).
  { intros Heq. apply String.eqb_eq in Heq. destruct (Hsym Heq) as (_ & _ & ->).
    by left. }
  split_and!.
  - intros Hpos. rewrite compute_gram_matrix_ss_checked by done.
    destruct (gram_loop_ok
                (entry_ss B1 B2 (map (weight_at qr) (seq 0 (length qr))))
                (computed_entry_ss B1 B2 qr) (String.eqb sym "sym") nrows ncols)
      as (M & HM & Hwf & HMr & HMc & Hget); [|done|].
    { intros i j Hi Hj. apply entry_ss_value; [done|done|done|lia|lia]. }
    exists M. split_and!; try done.
    intros i j Hi Hj. rewrite Hget by done. f_equal. unfold gram_value.
    rewrite !computed_entry_ss_spec.
    destruct (String.eqb sym "sym" && (j <? i)) eqn:Hcase; [|done].
    apply andb_true_iff in Hcase as [Heq _]. apply String.eqb_eq in Heq.
    destruct (Hsym Heq) as (-> & _ & _). apply gram_entry_sym, s_mul_comm.
  - rewrite compute_gram_matrix_vv_checked by done.
    destruct (gram_loop_ok
                (entry_vv Bv1 Bv2 qr (map (weight_at qr) (seq 0 (length qr))))
                (computed_entry_vv Bv1 Bv2 qr) (String.eqb sym "sym") nrows ncols)
      as (M & HM & Hwf & HMr & HMc & Hget); [|done|].
    { intros i j Hi Hj. apply entry_vv_value; [done|done|lia|lia]. }
    exists M. split_and!; try done.
    intros i j Hi Hj. rewrite Hget by done. f_equal. unfold gram_value.
    rewrite !computed_entry_vv_spec.
    destruct (String.eqb sym "sym" && (j <? i)) eqn:Hcase; [|done].
    apply andb_true_iff in Hcase as [Heq _]. apply String.eqb_eq in Heq.
    destruct (Hsym Heq) as (_ & -> & _). apply gram_entry_sym, v_dot_comm.
  - destruct (compute_gram_matrix_vs_spec Bv1 B2 qr Hqv1 Hq2)
      as (M & HM & Hwf & HMr & HMc & Hget).
    exists M. split_and!; try done.
    intros i k j Hi Hk Hj. rewrite Hget by done. by rewrite vs_partial_spec.
Qed.

End GramEntries.

Lemma gram_matrix_entries_witness :
  ∃ M, compute_gram_matrix_ss sample_B1 sample_B1 sample_qr 2 2 "sym" = Ok M
       ∧ m_rows M = 2 ∧ m_cols M = 2
       ∧ ∀ i j, i < 2 → j < 2 →
           mat_get M i j = Some (gram_entry s_mul sample_B1 sample_B1 sample_qr i j).
Proof.
  refine (proj1 (gram_matrix_entries _ sample_B1 sample_B1 sample_Bv sample_Bv
                   sample_qr 2 2 "sym" _ _ _ _ _ _ _ _ _) _).
  - intros x y. simpl. lia.
  - reflexivity.
  - reflexivity.
  - reflexivity.
  - reflexivity.
  - simpl. lia.
  - simpl. lia.
  - simpl. lia.
  - simpl. lia.
  - intros _. split_and!; reflexivity.
  - simpl. lia.
Defined.

Lemma gram_sym_equals_transpose_witness :
  ∃ M, compute_gram_matrix_ss sample_B1 sample_B1 sample_qr 2 2 "sym" = Ok M
       ∧ M = mat_transpose M.
Proof.
  refine (proj1 (proj1 (gram_sym_equals_transpose sample_B1 sample_Bv sample_qr 2 2
                          _ _ _ _) _));
    try reflexivity; simpl; lia.
Defined.

Lemma sym_copy_out_of_range_witness :
  compute_gram_matrix_ss sample_B1 sample_B2 sample_qr 2 1 "sym" = Err IndexOutOfRange
  ∧ ∃ M, compute_gram_matrix_ss sample_B1 sample_B2 sample_qr 2 2 "sym" = Ok M.
Proof.
  split.
  - refine (proj1 (proj2 (proj2 (sym_copy_out_of_range sample_B1 sample_B2 sample_Bv
                     sample_Bv sample_qr 2 1 _ _ _ _ _ _ _ _) _ _)));
      try reflexivity; simpl; lia.
  - refine (proj1 (proj2 (proj1 (sym_copy_out_of_range sample_B1 sample_B2 sample_Bv
                     sample_Bv sample_qr 2 2 _ _ _ _ _ _ _ _) _)) _);
      try reflexivity; simpl; lia.
Defined.

Lemma sym_flag_exact_string_witness :
  compute_gram_matrix_ss sample_B1 sample_B2 sample_qr 2 2 "Sym"
  = compute_gram_matrix_ss sample_B1 sample_B2 sample_qr 2 2 "symmetric"
  ∧ ∃ M, compute_gram_matrix_ss sample_B1 sample_B2 sample_qr 2 2 "Sym" = Ok M
         ∧ m_rows M = 2 ∧ m_cols M = 2
         ∧ ∀ i j, i < 2 → j < 2 →
             mat_get M i j = Some (computed_entry_ss sample_B1 sample_B2 sample_qr i j).
Proof.
  assert (Hs : "Sym" ≠ "sym") by discriminate.
  assert (Hs' : "symmetric" ≠ "sym") by discriminate.
  pose proof (sym_flag_exact_string sample_B1 sample_B2 sample_Bv sample_Bv
                sample_qr 2 2 "Sym" "symmetric" Hs Hs') as (Heq & _ & Hentries & _).
  split; [exact Heq|].
  apply Hentries; try reflexivity; simpl; lia.
Defined.

(** ** The hybrid space *)

Section HybridCoreProperties.
Context {R : Type} `{ScalarOps R}.
Variable generate_quadrature_rule_cell : nat → nat → QuadratureRule R.
Variable generate_quadrature_rule_face : nat → nat → QuadratureRule R.
Variable basis_quad : string → nat → QuadratureRule R → nat → list (list R).
Variable gram_matrix :
  list (list R) → list (list R) → nat → nat → QuadratureRule R → bool → MatrixXd R.
Variable ldlt_solve : MatrixXd R → list R → list R.
Variable compute_weights : nat → list R.
Variable cell_basis : nat → nat → R → R → R → R.
Variable face_basis : nat → nat → R → R → R → R.
Variable hc : HybridCore (R := R).

Local Abbreviation face_block' :=
  (face_block generate_quadrature_rule_face basis_quad gram_matrix ldlt_solve hc).
Local Abbreviation cell_block' :=
  (cell_block generate_quadrature_rule_cell basis_quad gram_matrix ldlt_solve hc).
Local Abbreviation rescaled_weights' :=
  (rescaled_weights compute_weights cell_basis face_basis hc).
Local Abbreviation cell_average' :=
  (cell_average compute_weights cell_basis face_basis hc).
Local Abbreviation averaged_cell_value' :=
  (averaged_cell_value compute_weights cell_basis face_basis hc).
Local Abbreviation zero_order_average' :=
  (zero_order_average compute_weights cell_basis face_basis hc).
Local Abbreviation interpolate_faces' :=
  (interpolate_faces generate_quadrature_rule_face basis_quad gram_matrix
     ldlt_solve hc).
Local Abbreviation interpolate' :=
  (interpolate generate_quadrature_rule_cell generate_quadrature_rule_face
     basis_quad gram_matrix ldlt_solve compute_weights cell_basis face_basis hc).
Local Abbreviation face_mass_matrix' :=
  (face_mass_matrix generate_quadrature_rule_face basis_quad gram_matrix hc).
Local Abbreviation face_load_vector' :=
  (face_load_vector generate_quadrature_rule_face basis_quad hc).
Local Abbreviation cell_mass_matrix' :=
  (cell_mass_matrix generate_quadrature_rule_cell basis_quad gram_matrix hc).
Local Abbreviation cell_load_vector' :=
  (cell_load_vector generate_quadrature_rule_cell basis_quad hc).

Lemma vec_get_lookup (v : list R) (i : nat) (x : R) :
  v !! i = Some x → vec_get v i = x.
Proof. unfold vec_get. by intros ->. Qed.

Lemma ssum_snoc (l : list R) (x : R) : ssum (l ++ [x]) = (ssum l + x)%sc.
Proof. unfold ssum. by rewrite fold_left_app. Qed.

(** *** Integration helpers *)

Lemma node_at_app_l (l : QuadratureRule R) (x : QuadratureNode R) (i : nat) :
  i < length l → node_at (l ++ [x]) i = node_at l i.
Proof. intros Hi. unfold node_at. by rewrite lookup_app_l. Qed.

Lemma node_at_app_r (l : QuadratureRule R) (x : QuadratureNode R) :
  node_at (l ++ [x]) (length l) = x.
Proof.
  unfold node_at. rewrite lookup_app_r by lia. by rewrite Nat.sub_diag.
Qed.

(** The loop over the indices of a rule visits the nodes in order. *)
Lemma for_loop_nodes {S : Type} (F : nat → QuadratureNode R → S → S)
    (quad : QuadratureRule R) (s : S) :
  for_loop 0 (length quad) (fun iqn s => F iqn (node_at quad iqn) s) s
  = fold_left (fun s p => F p.1 p.2 s) (zip (seq 0 (length quad)) quad) s.
Proof.
  induction quad as [|x quad IH] using rev_ind; [done|].
  rewrite length_app. simpl length. rewrite Nat.add_1_r.
  rewrite for_loop_S by lia. rewrite node_at_app_r.
  rewrite (for_loop_ext 0 (length quad) _
             (fun iqn s => F iqn (node_at quad iqn) s)).
  2:{ intros i s' Hi. by rewrite node_at_app_l by lia. }
  rewrite IH, seq_S, zip_with_app by (by rewrite length_seq).
  by rewrite fold_left_app.
Qed.

Lemma record_calls (quad : QuadratureRule R) :
  for_loop 0 (length quad) (fun iqn calls =>
    let nd := node_at quad iqn in
    record_call iqn (qx nd) (qy nd) (qz nd) (qw nd) calls) []
  = zip (seq 0 (length quad)) quad.
Proof.
  etransitivity.
  { apply (for_loop_nodes
             (fun iqn nd calls => record_call iqn (qx nd) (qy nd) (qz nd) (qw nd) calls)). }
  generalize (zip (seq 0 (length quad)) quad). intros l.
  assert (Hgen : ∀ acc : list (nat * QuadratureNode R),
    fold_left (fun s p => record_call p.1 (qx p.2) (qy p.2) (qz p.2) (qw p.2) s) l acc
    = acc ++ l).
  { induction l as [|[i [x y z w]] l IH]; intros acc; simpl.
    - by rewrite app_nil_r.
    - rewrite IH. unfold record_call. by rewrite <- app_assoc. }
  apply (Hgen []).
Qed.

Lemma accumulate_nodes (quad : QuadratureRule R) (f : R → R → R → R) :
  for_loop 0 (length quad) (fun iqn ans =>
    let nd := node_at quad iqn in
    (ans + qw nd * f (qx nd) (qy nd) (qz nd))%sc) s_zero
  = quadrature_sum quad f.
Proof.
  induction quad as [|x quad IH] using rev_ind; [done|].
  rewrite length_app. simpl length. rewrite Nat.add_1_r.
  rewrite for_loop_S by lia. cbv zeta. rewrite node_at_app_r.
  rewrite (for_loop_ext 0 (length quad) _
             (fun iqn ans =>
                let nd := node_at quad iqn in
                (ans + qw nd * f (qx nd) (qy nd) (qz nd))%sc)).
  2:{ intros i s' Hi. by rewrite node_at_app_l by lia. }
  rewrite IH. unfold quadrature_sum. rewrite map_app. cbn [map].
  by rewrite ssum_snoc.
Qed.

(** C8, as the code has it.  For a valid cell index [iT] and face index
    [iF], [quadrature_over_cell] generates its rule at the degree of
    exactness [2 * Ldeg + 2], where [Ldeg] is [L] when [L >= 0] and 0 when
    [L = -1], and [quadrature_over_face] at [2 * K + 2]; each calls the
    evaluator once per node, with the index, the point and the weight of
    the node, in the order of the rule; [integrate_over_cell] and
    [integrate_over_face] return the sum over the nodes of the weight
    times [f] at the point. *)
Theorem quadrature_helpers {S : Type} (iT iF : nat)
    (f : nat → R → R → R → R → S → S) (s : S) (g : R → R → R → R) :
  iT < n_cells (hc_mesh hc) → iF < n_faces (hc_mesh hc) →
  quadrature_over_cell generate_quadrature_rule_cell hc iT f s
    = Ok (fold_left (fun s p => f p.1 (qx p.2) (qy p.2) (qz p.2) (qw p.2) s)
            (zip (seq 0 (length (generate_quadrature_rule_cell iT (2 * Ldeg hc + 2))))
                 (generate_quadrature_rule_cell iT (2 * Ldeg hc + 2))) s)
  ∧ quadrature_over_face generate_quadrature_rule_face hc iF f s
    = Ok (fold_left (fun s p => f p.1 (qx p.2) (qy p.2) (qz p.2) (qw p.2) s)
            (zip (seq 0 (length (generate_quadrature_rule_face iF (2 * hc_K hc + 2))))
                 (generate_quadrature_rule_face iF (2 * hc_K hc + 2))) s)
  ∧ quadrature_over_cell generate_quadrature_rule_cell hc iT record_call []
    = Ok (zip (seq 0 (length (generate_quadrature_rule_cell iT (2 * Ldeg hc + 2))))
              (generate_quadrature_rule_cell iT (2 * Ldeg hc + 2)))
  ∧ quadrature_over_face generate_quadrature_rule_face hc iF record_call []
    = Ok (zip (seq 0 (length (generate_quadrature_rule_face iF (2 * hc_K hc + 2))))
              (generate_quadrature_rule_face iF (2 * hc_K hc + 2)))
  ∧ integrate_over_cell generate_quadrature_rule_cell hc iT g
    = Ok (quadrature_sum (generate_quadrature_rule_cell iT (2 * Ldeg hc + 2)) g)
  ∧ integrate_over_face generate_quadrature_rule_face hc iF g
    = Ok (quadrature_sum (generate_quadrature_rule_face iF (2 * hc_K hc + 2)) g)
  ∧ ((0 ≤ hc_L hc)%Z → Z.of_nat (2 * Ldeg hc + 2) = (2 * hc_L hc + 2)%Z)
  ∧ (hc_L hc = (-1)%Z → 2 * Ldeg hc + 2 = 2).
Proof.
  intros HiT HiF.
  unfold integrate_over_cell, integrate_over_face, quadrature_over_cell,
    quadrature_over_face.
  rewrite (assert_true _ (proj2 (Nat.ltb_lt _ _) HiT)).
  rewrite (assert_true _ (proj2 (Nat.ltb_lt _ _) HiF)). simpl.
  split_and!.
  - f_equal. apply (for_loop_nodes (fun iqn nd s => f iqn (qx nd) (qy nd) (qz nd) (qw nd) s)).
  - f_equal. apply (for_loop_nodes (fun iqn nd s => f iqn (qx nd) (qy nd) (qz nd) (qw nd) s)).
  - f_equal. apply record_calls.
  - f_equal. apply record_calls.
  - f_equal. apply accumulate_nodes.
  - f_equal. apply accumulate_nodes.
  - intros HL. unfold Ldeg. lia.
  - intros HL. unfold Ldeg. rewrite HL. reflexivity.
Qed.

(** *** Interpolation *)

Lemma load_vector_spec (n : nat) (quad : QuadratureRule R)
    (phi_quad : list (list R)) (f : R → R → R → R) :
  length (load_vector n quad phi_quad f) = n
  ∧ ∀ i, i < n →
      load_vector n quad phi_quad f !! i = Some (load_entry quad phi_quad f i).
Proof.
  unfold load_vector.
  pose (term := fun i iqn =>
    let nd := node_at quad iqn in
    (qw nd * phi_at phi_quad i iqn * f (qx nd) (qy nd) (qz nd))%sc).
  assert (Hinv :
    length (for_loop 0 n (fun i b =>
      for_loop 0 (length quad) (fun iqn b =>
        <[i := (vec_get b i + term i iqn)%sc]> b) b) (replicate n s_zero)) = n
    ∧ (∀ i, i < n →
         for_loop 0 n (fun i b =>
           for_loop 0 (length quad) (fun iqn b =>
             <[i := (vec_get b i + term i iqn)%sc]> b) b) (replicate n s_zero) !! i
         = Some (load_entry quad phi_quad f i))
    ∧ ∀ i, n ≤ i < n →
         for_loop 0 n (fun i b =>
           for_loop 0 (length quad) (fun iqn b =>
             <[i := (vec_get b i + term i iqn)%sc]> b) b) (replicate n s_zero) !! i
         = Some s_zero).
  { apply (for_loop_inv (fun i b =>
      length b = n
      ∧ (∀ i', i' < i → b !! i' = Some (load_entry quad phi_quad f i'))
      ∧ (∀ i', i ≤ i' < n → b !! i' = Some s_zero))); [lia| |].
    - split_and!; [apply length_replicate|intros; lia|].
      intros i' Hi'. apply lookup_replicate_2. lia.
    - intros i b Hi (Hlen & Hdone & Htodo).
      assert (Hrow :
        length (for_loop 0 (length quad) (fun iqn b =>
                  <[i := (vec_get b i + term i iqn)%sc]> b) b) = n
        ∧ (∀ i', i' ≠ i →
             for_loop 0 (length quad) (fun iqn b =>
               <[i := (vec_get b i + term i iqn)%sc]> b) b !! i' = b !! i')
        ∧ for_loop 0 (length quad) (fun iqn b =>
            <[i := (vec_get b i + term i iqn)%sc]> b) b !! i
          = Some (ssum (map (term i) (seq 0 (length quad))))).
      { apply (for_loop_inv (fun iqn b' =>
          length b' = n
          ∧ (∀ i', i' ≠ i → b' !! i' = b !! i')
          ∧ b' !! i = Some (ssum (map (term i) (seq 0 iqn))))); [lia| |].
        - split_and!; [done|done|]. apply Htodo. lia.
        - intros iqn b' Hiqn (Hlen' & Hoth & Hcur). split_and!.
          + by rewrite length_insert.
          + intros i' Hne. rewrite list_lookup_insert_ne by done. by apply Hoth.
          + rewrite list_lookup_insert_eq by lia. f_equal.
            rewrite (vec_get_lookup _ _ _ Hcur).
            rewrite seq_S, map_app. cbn [map]. by rewrite ssum_snoc. }
      destruct Hrow as (Hlen' & Hoth & Hcur). split_and!; [done| |].
      + intros i' Hi'. destruct (decide (i' = i)) as [->|Hne]; [exact Hcur|].
        rewrite Hoth by done. apply Hdone. lia.
      + intros i' Hi'. rewrite Hoth by lia. apply Htodo. lia. }
  destruct Hinv as (Hlen & Hget & _). split; [exact Hlen|exact Hget].
Qed.

Lemma set_segment_length (offset n : nat) (U X : list R) :
  length (set_segment offset n U X) = length X.
Proof.
  unfold set_segment.
  apply (for_loop_inv (fun _ X' => length X' = length X)); [lia|done|].
  intros k X' _ Hlen. by rewrite length_insert.
Qed.

Lemma set_segment_lookup (offset n : nat) (U X : list R) :
  offset + n ≤ length X →
  (∀ p, offset ≤ p < offset + n →
     set_segment offset n U X !! p = Some (vec_get U (p - offset)))
  ∧ (∀ p, ¬ (offset ≤ p < offset + n) → set_segment offset n U X !! p = X !! p).
Proof.
  intros Hfit. unfold set_segment.
  apply (for_loop_inv (fun k X' =>
    k ≤ n → 
    length X' = length X
    ∧ (∀ p, offset ≤ p < offset + k → X' !! p = Some (vec_get U (p - offset)))
    ∧ (∀ p, ¬ (offset ≤ p < offset + k) → X' !! p = X !! p))); [lia| | |lia].
  - intros _. split_and!; [done|intros; lia|done].
  - intros k X' Hk IH _. destruct IH as (Hlen & Hin & Hout); [lia|].
    split_and!; [by rewrite length_insert| |].
    + intros p Hp. destruct (decide (p = offset + k)) as [->|Hne].
      * rewrite list_lookup_insert_eq by lia. do 2 f_equal. lia.
      * rewrite list_lookup_insert_ne by done. apply Hin. lia.
    + intros p Hp. rewrite list_lookup_insert_ne by lia. apply Hout. lia.
Qed.

Lemma dofs_faces_only : hc_L hc = (-1)%Z → nlocal_cell_dofs hc = 1.
Proof. intros HL. unfold nlocal_cell_dofs, Ldeg. rewrite HL. reflexivity. Qed.

(** After the loop over the faces, every face block holds the solution of
    its local system. *)
Lemma interpolate_faces_spec (f : R → R → R → R) (doe : nat) :
  length (interpolate_faces' f doe) = ntotal_dofs hc
  ∧ ∀ iF k, iF < n_faces (hc_mesh hc) → k < nlocal_face_dofs hc →
      interpolate_faces' f doe
        !! (ntotal_cell_dofs hc + iF * nlocal_face_dofs hc + k)
      = Some (vec_get (face_block' f doe iF) k).
Proof.
  unfold interpolate_faces.
  apply (for_loop_inv (fun iF X =>
    iF ≤ n_faces (hc_mesh hc) →
    length X = ntotal_dofs hc
    ∧ ∀ iF' k, iF' < iF → k < nlocal_face_dofs hc →
        X !! (ntotal_cell_dofs hc + iF' * nlocal_face_dofs hc + k)
        = Some (vec_get (face_block' f doe iF') k))); [lia| | |lia].
  - intros _. split; [apply length_replicate|intros; lia].
  - intros iF X HiF IH _. destruct IH as (Hlen & Hblocks); [lia|].
    assert (Hfit : ntotal_cell_dofs hc + iF * nlocal_face_dofs hc
                   + nlocal_face_dofs hc ≤ length X).
    { rewrite Hlen. unfold ntotal_dofs, ntotal_face_dofs. nia. }
    destruct (set_segment_lookup
                (ntotal_cell_dofs hc + iF * nlocal_face_dofs hc)
                (nlocal_face_dofs hc) (face_block' f doe iF) X Hfit) as (Hin & Hout).
    split; [by rewrite set_segment_length|].
    intros iF' k HiF' Hk. destruct (decide (iF' = iF)) as [->|Hne].
    + rewrite Hin by lia. do 2 f_equal. lia.
    + rewrite Hout by nia. apply Hblocks; lia.
Qed.

Lemma averaged_cell_value_ext (iT : nat) (X Y : list R) :
  (∀ p, ntotal_cell_dofs hc ≤ p → X !! p = Y !! p) →
  averaged_cell_value' iT X = averaged_cell_value' iT Y.
Proof.
  intros Hxy. unfold averaged_cell_value. f_equal. apply map_ext. intros ilF.
  unfold vec_get at 2 4. by rewrite Hxy by lia.
Qed.

(** The special case [L = -1] changes the slot [iT] only. *)
Lemma cell_average_spec (iT : nat) (X : list R) :
  iT < ntotal_cell_dofs hc → iT < length X →
  length (cell_average' iT X) = length X
  ∧ (∀ p, p ≠ iT → cell_average' iT X !! p = X !! p)
  ∧ cell_average' iT X !! iT = Some (averaged_cell_value' iT X).
Proof.
  intros HiT Hlen. unfold cell_average, averaged_cell_value.
  apply (for_loop_inv (fun ilF X' =>
    length X' = length X
    ∧ (∀ p, p ≠ iT → X' !! p = X !! p)
    ∧ X' !! iT
      = Some (ssum (map (fun ilF =>
                 (vec_get (rescaled_weights' iT) ilF
                  * vec_get X (ntotal_cell_dofs hc
                               + cell_face_index (hc_mesh hc) iT ilF))%sc)
               (seq 0 ilF))))); [lia| |].
  - split_and!.
    + by rewrite length_insert.
    + intros p Hp. by rewrite list_lookup_insert_ne.
    + by rewrite list_lookup_insert_eq.
  - intros ilF X' HilF (Hlen' & Hoth & Hcur). split_and!.
    + by rewrite length_insert.
    + intros p Hp. rewrite list_lookup_insert_ne by done. by apply Hoth.
    + rewrite list_lookup_insert_eq by lia. f_equal.
      rewrite (vec_get_lookup _ _ _ Hcur).
      rewrite seq_S, map_app. cbn [map]. rewrite ssum_snoc. do 2 f_equal.
      unfold vec_get. by rewrite Hoth by lia.
Qed.

(** The state of the vector returned by [interpolate]. *)
Lemma interpolate_spec (f : R → R → R → R) (doe : nat) :
  length (interpolate' f doe) = ntotal_dofs hc
  ∧ (∀ p, ntotal_cell_dofs hc ≤ p →
       interpolate' f doe !! p = interpolate_faces' f doe !! p)
  ∧ (hc_L hc ≠ (-1)%Z →
     ∀ iT k, iT < n_cells (hc_mesh hc) → k < nlocal_cell_dofs hc →
       interpolate' f doe !! (iT * nlocal_cell_dofs hc + k)
       = Some (vec_get (cell_block' f doe iT) k))
  ∧ (hc_L hc = (-1)%Z →
     ∀ iT, iT < n_cells (hc_mesh hc) →
       interpolate' f doe !! iT
       = Some (averaged_cell_value' iT (interpolate_faces' f doe))).
Proof.
  destruct (interpolate_faces_spec f doe) as (Hlenf & _).
  change (interpolate' f doe) with
    (for_loop 0 (n_cells (hc_mesh hc)) (fun iT XTF =>
       let UT := cell_block' f doe iT in
       let offset_T := iT * nlocal_cell_dofs hc in
       let XTF := set_segment offset_T (nlocal_cell_dofs hc) UT XTF in
       if (hc_L hc =? -1)%Z then cell_average' iT XTF else XTF)
     (interpolate_faces' f doe)).
  apply (for_loop_inv (fun iT X =>
    iT ≤ n_cells (hc_mesh hc) →
    length X = ntotal_dofs hc
    ∧ (∀ p, ntotal_cell_dofs hc ≤ p → X !! p = interpolate_faces' f doe !! p)
    ∧ (hc_L hc ≠ (-1)%Z →
       ∀ iT' k, iT' < iT → k < nlocal_cell_dofs hc →
         X !! (iT' * nlocal_cell_dofs hc + k)
         = Some (vec_get (cell_block' f doe iT') k))
    ∧ (hc_L hc = (-1)%Z →
       ∀ iT', iT' < iT →
         X !! iT' = Some (averaged_cell_value' iT' (interpolate_faces' f doe)))));
    [lia| | |lia].
  - intros _. split_and!; [done|done|intros; lia|intros; lia].
  - intros iT X HiT IH _. destruct IH as (Hlen & Hfaces & Hcells & Havg); [lia|].
    assert (Hfit : iT * nlocal_cell_dofs hc + nlocal_cell_dofs hc ≤ length X).
    { rewrite Hlen. unfold ntotal_dofs, ntotal_cell_dofs. nia. }
    assert (Hblock : iT * nlocal_cell_dofs hc + nlocal_cell_dofs hc
                     ≤ ntotal_cell_dofs hc).
    { unfold ntotal_cell_dofs. nia. }
    destruct (set_segment_lookup (iT * nlocal_cell_dofs hc) (nlocal_cell_dofs hc)
                (cell_block' f doe iT) X Hfit) as (Hin & Hout).
    cbv zeta. destruct (Z.eqb_spec (hc_L hc) (-1)) as [HL|HL].
    + (* no cell unknown: the slot becomes the average *)
      pose proof (dofs_faces_only HL) as Hone.
      destruct (cell_average_spec iT
                  (set_segment (iT * nlocal_cell_dofs hc) (nlocal_cell_dofs hc)
                     (cell_block' f doe iT) X)) as (Hlen' & Hoth & Hcur).
      { lia. }
      { rewrite set_segment_length. lia. }
      split_and!.
      * by rewrite Hlen', set_segment_length.
      * intros p Hp. rewrite Hoth by lia. rewrite Hout by lia. by apply Hfaces.
      * intros Hneq. done.
      * intros _ iT' HiT'. destruct (decide (iT' = iT)) as [->|Hne].
        -- rewrite Hcur. f_equal. apply averaged_cell_value_ext.
           intros p Hp. rewrite Hout by lia. by apply Hfaces.
        -- rewrite Hoth by done. rewrite Hout by lia. apply Havg; [done|lia].
    + split_and!.
      * by rewrite set_segment_length.
      * intros p Hp. rewrite Hout by lia. by apply Hfaces.
      * intros _ iT' k HiT' Hk. destruct (decide (iT' = iT)) as [->|Hne].
        -- rewrite Hin by lia. do 2 f_equal. lia.
        -- rewrite Hout by nia. apply Hcells; [done|lia|done].
      * intros Heq. done.
Qed.


(** What the code computes when the cell degree is -1: the slot of the
    cell [iT] is the sum over the faces [ilF] of the cell of the rescaled
    weight times the entry [ntotal_cell_dofs + iF] of the vector, and the
    rescaled weight is the weight of [compute_weights] times the quotient
    of the constant basis values. *)
Lemma interpolate_cell_average (f : R → R → R → R) (doe iT : nat) :
  hc_L hc = (-1)%Z → iT < n_cells (hc_mesh hc) →
  interpolate' f doe !! iT
  = Some (averaged_cell_value' iT (interpolate' f doe)).
Proof.
  intros HL HiT.
  destruct (interpolate_spec f doe) as (_ & Hfaces & _ & Havg).
  rewrite Havg by done. f_equal. symmetry. by apply averaged_cell_value_ext.
Qed.

Lemma rescaled_weights_spec (iT ilF : nat) :
  cell_n_faces (hc_mesh hc) iT ≤ length (compute_weights iT) →
  ilF < cell_n_faces (hc_mesh hc) iT →
  vec_get (rescaled_weights' iT) ilF
  = (vec_get (compute_weights iT) ilF
     * (face_basis (cell_face_index (hc_mesh hc) iT ilF) 0
          (c0 (face_center (hc_mesh hc) (cell_face_index (hc_mesh hc) iT ilF)))
          (c1 (face_center (hc_mesh hc) (cell_face_index (hc_mesh hc) iT ilF)))
          (c2 (face_center (hc_mesh hc) (cell_face_index (hc_mesh hc) iT ilF)))
        / cell_basis iT 0 (c0 (cell_center (hc_mesh hc) iT))
            (c1 (cell_center (hc_mesh hc) iT)) (c2 (cell_center (hc_mesh hc) iT))))%sc.
Proof.
  intros Hlen HilF. unfold rescaled_weights. cbv zeta.
  set (scale := fun ilF =>
    (face_basis (cell_face_index (hc_mesh hc) iT ilF) 0
       (c0 (face_center (hc_mesh hc) (cell_face_index (hc_mesh hc) iT ilF)))
       (c1 (face_center (hc_mesh hc) (cell_face_index (hc_mesh hc) iT ilF)))
       (c2 (face_center (hc_mesh hc) (cell_face_index (hc_mesh hc) iT ilF)))
     / cell_basis iT 0 (c0 (cell_center (hc_mesh hc) iT))
         (c1 (cell_center (hc_mesh hc) iT)) (c2 (cell_center (hc_mesh hc) iT)))%sc).
  change (vec_get
            (for_loop 0 (cell_n_faces (hc_mesh hc) iT) (fun ilF b =>
               <[ilF := (vec_get b ilF * scale ilF)%sc]> b) (compute_weights iT)) ilF
          = (vec_get (compute_weights iT) ilF * scale ilF)%sc).
  assert (Hinv :
    length (for_loop 0 (cell_n_faces (hc_mesh hc) iT) (fun ilF b =>
              <[ilF := (vec_get b ilF * scale ilF)%sc]> b) (compute_weights iT))
      = length (compute_weights iT)
    ∧ ∀ i,
        vec_get (for_loop 0 (cell_n_faces (hc_mesh hc) iT) (fun ilF b =>
                   <[ilF := (vec_get b ilF * scale ilF)%sc]> b) (compute_weights iT)) i
        = if i <? cell_n_faces (hc_mesh hc) iT
          then (vec_get (compute_weights iT) i * scale i)%sc
          else vec_get (compute_weights iT) i).
  { apply (for_loop_inv (fun n b =>
      n ≤ cell_n_faces (hc_mesh hc) iT →
      length b = length (compute_weights iT)
      ∧ ∀ i, vec_get b i
             = if i <? n then (vec_get (compute_weights iT) i * scale i)%sc
               else vec_get (compute_weights iT) i)); [lia| | |lia].
    - intros _. split; [done|]. intros i. by rewrite (proj2 (Nat.ltb_ge i 0)) by lia.
    - intros n b Hn IH _. destruct IH as (Hlen' & Hval); [lia|].
      split; [by rewrite length_insert|]. intros i. unfold vec_get at 1.
      destruct (decide (i = n)) as [->|Hne].
      + rewrite list_lookup_insert_eq by lia. simpl.
        rewrite Hval, Nat.ltb_irrefl, (proj2 (Nat.ltb_lt n (S n))) by lia. done.
      + rewrite list_lookup_insert_ne by done. fold (vec_get b i). rewrite Hval.
        destruct (Nat.ltb_spec i n), (Nat.ltb_spec i (S n)); try done; lia. }
  destruct Hinv as (_ & Hval). rewrite Hval.
  by rewrite (proj2 (Nat.ltb_lt _ _) HilF).
Qed.

(** With one unknown per face (face degree 0), the entry that the code
    reads for a face is the first entry of the block of that face. *)
Lemma averaged_is_zero_order (iT : nat) (X : list R) :
  nlocal_face_dofs hc = 1 →
  averaged_cell_value' iT X = zero_order_average' iT X.
Proof.
  intros Hone. unfold averaged_cell_value, zero_order_average.
  f_equal. apply map_ext. intros ilF. by rewrite Hone, Nat.mul_1_r.
Qed.

End HybridCoreProperties.

(** C8 as stated fails for the cell degree -1: the rule of
    [quadrature_over_cell] is generated at the degree 2, not at
    [2 * L + 2 = 0]. *)
Lemma quadrature_helpers_counterexample :
  hc_L sample_hc_faces_only = (-1)%Z
  ∧ 0 < n_cells (hc_mesh sample_hc_faces_only)
  ∧ quadrature_over_cell sample_rule_cell sample_hc_faces_only 0 record_call []
    = Ok (zip (seq 0 3) (sample_rule_cell 0 2))
  ∧ quadrature_over_cell sample_rule_cell sample_hc_faces_only 0 record_call []
    ≠ Ok (zip (seq 0 (length (sample_rule_cell 0
                                 (Z.to_nat (2 * hc_L sample_hc_faces_only + 2)))))
              (sample_rule_cell 0 (Z.to_nat (2 * hc_L sample_hc_faces_only + 2)))).
Proof.
  split; [reflexivity|]. split; [simpl; lia|]. split; [reflexivity|].
  vm_compute. discriminate.
Qed.

Lemma quadrature_helpers_witness :
  integrate_over_cell sample_rule_cell sample_hc 0 sample_f
  = Ok (quadrature_sum (sample_rule_cell 0 (2 * Ldeg sample_hc + 2)) sample_f).
Proof.
  refine (proj1 (proj2 (proj2 (proj2 (proj2
            (quadrature_helpers sample_rule_cell sample_rule_face sample_hc 0 0
               record_call [] sample_f _ _)))))); simpl; lia.
Defined.



(** C1 at a failing input: face degree 1 and cell degree -1 on a cell with
    the faces 0, 1, 2, 3 and the weights (0, 1, 0, 0).  The face blocks are
    (10, 20, 30), (40, 80, 120), (70, 140, 210) and (100, 200, 300); for the
    face 1 the code reads the entry [ntotal_cell_dofs + 1], which is the
    second entry 20 of the block of the face 0, and stores 20 in the slot of
    the cell, where the first entry of the block of the face 1 is 40. *)
Theorem cell_average_reads_shifted_entry :
  hc_L sample_hc_faces_only = (-1)%Z
  ∧ nlocal_face_dofs sample_hc_faces_only = 3
  ∧ sample_interpolate sample_hc_faces_only
    = [20; 10; 20; 30; 40; 80; 120; 70; 140; 210; 100; 200; 300]%Z
  ∧ averaged_cell_value sample_weights sample_basis sample_basis sample_hc_faces_only
      0 (sample_interpolate sample_hc_faces_only) = 20%Z
  ∧ zero_order_average sample_weights sample_basis sample_basis sample_hc_faces_only
      0 (sample_interpolate sample_hc_faces_only) = 40%Z
  ∧ sample_interpolate sample_hc_faces_only !! 0
    ≠ Some (zero_order_average sample_weights sample_basis sample_basis
              sample_hc_faces_only 0 (sample_interpolate sample_hc_faces_only)).
Proof.
  split; [reflexivity|]. split; [reflexivity|]. split; [reflexivity|].
  split; [reflexivity|]. split; [reflexivity|]. vm_compute. discriminate.
Qed.

Lemma slot0_constant_witness :
  cell_diam sample_cell ≠ 0%Z
  ∧ cell_function (MonomialScalarBasisCell_new sample_cell 2) 0 (mkV3 1 2 3)%Z
    = Some 1%Z
  ∧ cell_gradient (MonomialScalarBasisCell_new sample_cell 2) 0 (mkV3 1 2 3)%Z
    = Some (mkV3 0 0 0)%Z.
Proof.
  assert (Hd : cell_diam sample_cell ≠ 0%Z) by (simpl; lia).
  split; [exact Hd|].
  pose proof (slot0_constant 2 (mkV3 1 2 3)%Z sample_cell sample_face sample_edge Hd)
    as (Hf & Hg & _).
  split; [exact Hf|exact Hg].
Defined.


(** * Further properties *)

(** ** The exponent tuples *)

Lemma NoDup_flat_map {A B : Type} (f : A → list B) (l : list A) :
  NoDup l →
  (∀ x, In x l → NoDup (f x)) →
  (∀ x y z, In x l → In y l → In z (f x) → In z (f y) → x = y) →
  NoDup (flat_map f l).
Proof.
  induction l as [|a l IH]; intros Hl Hpieces Hdisjoint; simpl.
  - constructor.
  - apply NoDup_cons in Hl as [Ha Hl].
    apply NoDup_app. split_and!.
    + apply Hpieces. by left.
    + intros z Hz Hz'. apply list_elem_of_In in Hz, Hz'.
      apply in_flat_map in Hz' as (y & Hy & Hzy).
      assert (a = y) as -> by (apply (Hdisjoint a y z); simpl; auto).
      apply Ha. by apply list_elem_of_In.
    + apply IH; [done| |].
      * intros x Hx. apply Hpieces. by right.
      * intros x y z Hx Hy. apply Hdisjoint; by right.
Qed.

Lemma in_cell_powers_spec (m : nat) (p : VectorZd) :
  In p (cell_powers_spec m)
  ↔ ∃ a b c : nat,
      p = mkV3 (Z.of_nat a) (Z.of_nat b) (Z.of_nat c) ∧ a + b + c ≤ m.
Proof.
  unfold cell_powers_spec. rewrite in_flat_map. split.
  - intros (l & Hl & Hp). apply in_flat_map in Hp as (i & Hi & Hp).
    apply in_map_iff in Hp as (j & <- & Hj). apply in_seq in Hl, Hi, Hj.
    exists i, j, (l - i - j). split; [done|lia].
  - intros (a & b & c & -> & Hsum). exists (a + b + c).
    split; [apply in_seq; lia|]. apply in_flat_map. exists a.
    split; [apply in_seq; lia|]. apply in_map_iff. exists b.
    split; [|apply in_seq; lia]. do 2 f_equal. lia.
Qed.

Lemma cell_powers_spec_NoDup (m : nat) : NoDup (cell_powers_spec m).
Proof.
  unfold cell_powers_spec. apply NoDup_flat_map.
  - apply NoDup_seq.
  - intros l _. apply NoDup_flat_map.
    + apply NoDup_seq.
    + intros i _.
      change (NoDup ((fun j => mkV3 (Z.of_nat i) (Z.of_nat j) (Z.of_nat (l - i - j)))
                       <$> seq 0 (S (l - i)))).
      apply NoDup_fmap_2; [|apply NoDup_seq]. intros j j' [= Hj _]. lia.
    + intros i i' z _ _ Hz Hz'.
      apply in_map_iff in Hz as (j & <- & _), Hz' as (j' & [= Hi _ _] & _). lia.
  - intros l l' z _ _ Hz Hz'.
    apply in_flat_map in Hz as (i & Hi & Hz), Hz' as (i' & Hi' & Hz').
    apply in_map_iff in Hz as (j & <- & Hj), Hz' as (j' & [= Hii Hjj Hll] & Hj').
    apply in_seq in Hi, Hi', Hj, Hj'. lia.
Qed.

Lemma in_face_powers_spec (m : nat) (p : Vector2i) :
  In p (face_powers_spec m)
  ↔ ∃ a b : nat, p = mkV2 (Z.of_nat a) (Z.of_nat b) ∧ a + b ≤ m.
Proof.
  unfold face_powers_spec. rewrite in_flat_map. split.
  - intros (l & Hl & Hp). apply in_map_iff in Hp as (i & <- & Hi).
    apply in_seq in Hl, Hi. exists i, (l - i). split; [done|lia].
  - intros (a & b & -> & Hsum). exists (a + b).
    split; [apply in_seq; lia|]. apply in_map_iff. exists a.
    split; [|apply in_seq; lia]. do 2 f_equal. lia.
Qed.

Lemma face_powers_spec_NoDup (m : nat) : NoDup (face_powers_spec m).
Proof.
  unfold face_powers_spec. apply NoDup_flat_map.
  - apply NoDup_seq.
  - intros l _.
    change (NoDup ((fun i => mkV2 (Z.of_nat i) (Z.of_nat (l - i))) <$> seq 0 (S l))).
    apply NoDup_fmap_2; [|apply NoDup_seq]. intros i i' [= Hi _]. lia.
  - intros l l' z _ _ Hz Hz'.
    apply in_map_iff in Hz as (i & <- & Hi), Hz' as (i' & [= Hii Hll] & Hi').
    apply in_seq in Hi, Hi'. lia.
Qed.

(** X1.  The exponent tuples that the constructor of the cell basis
    generates for the degree [m] are, without repetition, exactly the
    triples of natural numbers of sum at most [m]. *)
Theorem cell_powers_enumerate_degree (m : nat) :
  NoDup (cell_generate_powers m)
  ∧ ∀ p : VectorZd,
      In p (cell_generate_powers m)
      ↔ ∃ a b c : nat,
          p = mkV3 (Z.of_nat a) (Z.of_nat b) (Z.of_nat c) ∧ a + b + c ≤ m.
Proof.
  rewrite cell_generate_powers_spec. split.
  - apply cell_powers_spec_NoDup.
  - apply in_cell_powers_spec.
Qed.

(** X2.  The exponent tuples that the constructor of the face basis
    generates for the degree [m] are, without repetition, exactly the pairs
    of natural numbers of sum at most [m]. *)
Theorem face_powers_enumerate_degree (m : nat) :
  NoDup (face_generate_powers m)
  ∧ ∀ p : Vector2i,
      In p (face_generate_powers m)
      ↔ ∃ a b : nat, p = mkV2 (Z.of_nat a) (Z.of_nat b) ∧ a + b ≤ m.
Proof.
  rewrite face_generate_powers_spec. split.
  - apply face_powers_spec_NoDup.
  - apply in_face_powers_spec.
Qed.

Lemma cell_powers_spec_extend (m k : nat) :
  ∃ tail, cell_powers_spec (m + k) = cell_powers_spec m ++ tail.
Proof.
  induction k as [|k (tail & IH)].
  - exists []. by rewrite Nat.add_0_r, app_nil_r.
  - replace (m + S k) with (S (m + k)) by lia.
    unfold cell_powers_spec at 1. rewrite seq_S, flat_map_app.
    fold (cell_powers_spec (m + k)). rewrite IH, <- app_assoc. eauto.
Qed.

Lemma face_powers_spec_extend (m k : nat) :
  ∃ tail, face_powers_spec (m + k) = face_powers_spec m ++ tail.
Proof.
  induction k as [|k (tail & IH)].
  - exists []. by rewrite Nat.add_0_r, app_nil_r.
  - replace (m + S k) with (S (m + k)) by lia.
    unfold face_powers_spec at 1. rewrite seq_S, flat_map_app.
    fold (face_powers_spec (m + k)). rewrite IH, <- app_assoc. eauto.
Qed.

Lemma cell_powers_length (m : nat) :
  length (cell_generate_powers m) = (m + 1) * (m + 2) * (m + 3) / 6.
Proof.
  rewrite cell_generate_powers_spec.
  pose proof (cell_powers_spec_count m). apply Nat.div_unique_exact; lia.
Qed.

Lemma face_powers_length (m : nat) :
  length (face_generate_powers m) = (m + 1) * (m + 2) / 2.
Proof.
  rewrite face_generate_powers_spec.
  pose proof (face_powers_spec_count m). apply Nat.div_unique_exact; lia.
Qed.

Lemma cell_powers_lookup_extend (m k i : nat) :
  i < length (cell_generate_powers m) →
  cell_generate_powers (m + k) !! i = cell_generate_powers m !! i.
Proof.
  rewrite !cell_generate_powers_spec. intros Hi.
  destruct (cell_powers_spec_extend m k) as (tail & ->). by apply lookup_app_l.
Qed.

Lemma face_powers_lookup_extend (m k i : nat) :
  i < length (face_generate_powers m) →
  face_generate_powers (m + k) !! i = face_generate_powers m !! i.
Proof.
  rewrite !face_generate_powers_spec. intros Hi.
  destruct (face_powers_spec_extend m k) as (tail & ->). by apply lookup_app_l.
Qed.

Section BasisFurther.
Context {R : Type} `{ScalarOps R}.

(** X3.  The bases are hierarchical: the first [(m+1)(m+2)(m+3)/6] slots of
    the cell basis of a degree [m + k] have the values and the gradients of
    the cell basis of the degree [m], and the first [(m+1)(m+2)/2] slots of
    the face basis of the degree [m + k] those of the face basis of the
    degree [m]. *)
Theorem bases_hierarchical (m k i : nat) (x : VectorRd R) (T : Cell R) (F : Face R) :
  (i < (m + 1) * (m + 2) * (m + 3) / 6 →
   cell_function (MonomialScalarBasisCell_new T (m + k)) i x
     = cell_function (MonomialScalarBasisCell_new T m) i x
   ∧ cell_gradient (MonomialScalarBasisCell_new T (m + k)) i x
     = cell_gradient (MonomialScalarBasisCell_new T m) i x)
  ∧ (i < (m + 1) * (m + 2) / 2 →
     face_function (MonomialScalarBasisFace_new F (m + k)) i x
       = face_function (MonomialScalarBasisFace_new F m) i x
     ∧ face_gradient (MonomialScalarBasisFace_new F (m + k)) i x
       = face_gradient (MonomialScalarBasisFace_new F m) i x).
Proof.
  split.
  - intros Hi. rewrite <- cell_powers_length in Hi.
    pose proof (cell_powers_lookup_extend m k i Hi) as Heq.
    unfold cell_function, cell_gradient. cbn [MonomialScalarBasisCell_new mc_powers].
    unfold VectorZd in *. by rewrite Heq.
  - intros Hi. rewrite <- face_powers_length in Hi.
    pose proof (face_powers_lookup_extend m k i Hi) as Heq.
    unfold face_function, face_gradient. cbn [MonomialScalarBasisFace_new mf_powers].
    unfold Vector2i in *. by rewrite Heq.
Qed.

(** X4.  The value and the gradient of a slot [i] are defined exactly for
    the slots below the dimension of the basis: [i < (m+1)(m+2)(m+3)/6] on a
    cell and [i < (m+1)(m+2)/2] on a face; any other index reads past the
    end of the exponent table. *)
Theorem basis_slots_in_range (m i : nat) (x : VectorRd R) (T : Cell R) (F : Face R) :
  (is_Some (cell_function (MonomialScalarBasisCell_new T m) i x)
   ↔ i < (m + 1) * (m + 2) * (m + 3) / 6)
  ∧ (is_Some (cell_gradient (MonomialScalarBasisCell_new T m) i x)
     ↔ i < (m + 1) * (m + 2) * (m + 3) / 6)
  ∧ (is_Some (face_function (MonomialScalarBasisFace_new F m) i x)
     ↔ i < (m + 1) * (m + 2) / 2)
  ∧ (is_Some (face_gradient (MonomialScalarBasisFace_new F m) i x)
     ↔ i < (m + 1) * (m + 2) / 2).
Proof.
  rewrite <- cell_powers_length, <- face_powers_length.
  unfold cell_function, cell_gradient, face_function, face_gradient.
  cbn [MonomialScalarBasisCell_new MonomialScalarBasisFace_new mc_powers mf_powers].
  unfold VectorZd, Vector2i. rewrite <- !lookup_lt_is_Some.
  split_and!.
  all: destruct (_ !! i); simpl; split; intros [? ?]; try done; eauto.
Qed.

End BasisFurther.

#[export] Instance Z_scalar_ring : ScalarRing Z.
Proof. split; simpl; intros; lia. Qed.

Section RingProperties.
Context {R : Type} `{ScalarOps R} `{!ScalarRing R}.

Lemma scalar_ring_theory :
  ring_theory s_zero s_one s_add s_mul s_sub (fun x : R => (s_zero - x)%sc) eq.
Proof.
  constructor.
  - apply r_add_0_l.
  - apply r_add_comm.
  - apply r_add_assoc.
  - apply r_mul_1_l.
  - apply r_mul_comm.
  - apply r_mul_assoc.
  - apply r_distr_l.
  - apply r_sub_def.
  - apply r_opp_def.
Qed.

Add Ring scalar_ring : scalar_ring_theory.

Lemma v_sub_diag (x : VectorRd R) : v_sub x x = v_zero.
Proof. unfold v_sub, v_zero. f_equal; ring. Qed.

Context `{!ScalarLaws R}.

Lemma s_pow_zero (n : nat) :
  s_pow s_zero (Z.of_nat n) = if n =? 0 then s_one else s_zero.
Proof.
  unfold s_pow. rewrite (proj2 (Z.leb_le 0 (Z.of_nat n))) by lia.
  rewrite Nat2Z.id. destruct n as [|n]; simpl; [done|]. apply s_mul_0_l.
Qed.

Lemma v_dot_zero_r (j : VectorRd R) : v_dot j v_zero = s_zero.
Proof. unfold v_dot, v_zero. simpl. by rewrite !s_mul_0_r, !s_add_0_l. Qed.

Lemma v_dot_zero_l (j : VectorRd R) : v_dot v_zero j = s_zero.
Proof. unfold v_dot, v_zero. simpl. by rewrite !s_mul_0_l, !s_add_0_l. Qed.

(** X5.  At the centre of mass of its entity, the slot 0 of a monomial
    basis evaluates to 1 and every other slot to 0 (the diameters of the
    cell and of the edge, by which their local coordinate is divided, are
    not zero). *)
Theorem basis_at_center_of_mass (m i : nat) (T : Cell R) (F : Face R) (E : Edge R) :
  cell_diam T ≠ s_zero → edge_diam E ≠ s_zero →
  (i < (m + 1) * (m + 2) * (m + 3) / 6 →
   cell_function (MonomialScalarBasisCell_new T m) i (cell_center_mass T)
   = Some (if i =? 0 then s_one else s_zero))
  ∧ (i < (m + 1) * (m + 2) / 2 →
     face_function (MonomialScalarBasisFace_new F m) i (face_center_mass F)
     = Some (if i =? 0 then s_one else s_zero))
  ∧ edge_function (MonomialScalarBasisEdge_new E m) i (edge_center_mass E)
    = (if i =? 0 then s_one else s_zero).
Proof.
  intros HhT HhE. split_and!.
  - intros Hi. rewrite <- cell_powers_length in Hi.
    destruct (lookup_lt_is_Some_2 _ _ Hi) as [p Hp].
    pose proof (cell_powers_spec_NoDup m) as Hnd.
    rewrite <- cell_generate_powers_spec in Hnd.
    destruct (proj1 (in_cell_powers_spec m p)) as (a & b & c & -> & _).
    { rewrite <- cell_generate_powers_spec.
      apply list_elem_of_In, list_elem_of_lookup. eauto. }
    assert (Hzero : i = 0 ↔ (a = 0 ∧ b = 0 ∧ c = 0)).
    { split.
      - intros ->. rewrite cell_powers_head in Hp. injection Hp as Ha Hb Hc. lia.
      - intros (-> & -> & ->).
        apply (NoDup_lookup _ _ _ _ Hnd Hp). apply cell_powers_head. }
    unfold cell_function, cell_coordinate_transform.
    cbn [MonomialScalarBasisCell_new mc_powers mc_xT mc_hT].
    rewrite v_sub_diag. unfold VectorZd in *. rewrite Hp. simpl. f_equal.
    rewrite !s_div_0_l by done. rewrite !s_pow_zero.
    destruct i as [|i].
    + destruct (proj1 Hzero eq_refl) as (-> & -> & ->). simpl.
      by rewrite !s_mul_1_l.
    + assert (Hnz : ¬ (a = 0 ∧ b = 0 ∧ c = 0)) by (intros Habc; apply Hzero in Habc; lia).
      destruct a, b, c; simpl; [exfalso; apply Hnz; done|..];
        repeat (rewrite s_mul_0_l || rewrite s_mul_0_r); done.
  - intros Hi. rewrite <- face_powers_length in Hi.
    destruct (lookup_lt_is_Some_2 _ _ Hi) as [p Hp].
    pose proof (face_powers_spec_NoDup m) as Hnd.
    rewrite <- face_generate_powers_spec in Hnd.
    destruct (proj1 (in_face_powers_spec m p)) as (a & b & -> & _).
    { rewrite <- face_generate_powers_spec.
      apply list_elem_of_In, list_elem_of_lookup. eauto. }
    assert (Hzero : i = 0 ↔ (a = 0 ∧ b = 0)).
    { split.
      - intros ->. rewrite face_powers_head in Hp. injection Hp as Ha Hb. lia.
      - intros (-> & ->).
        apply (NoDup_lookup _ _ _ _ Hnd Hp). apply face_powers_head. }
    unfold face_function, face_coordinate_transform.
    cbn [MonomialScalarBasisFace_new mf_powers mf_xF mf_jacobian d0 d1].
    rewrite v_sub_diag, !v_dot_zero_r. unfold Vector2i in *. rewrite Hp. simpl.
    f_equal. rewrite !s_pow_zero.
    destruct i as [|i].
    + destruct (proj1 Hzero eq_refl) as (-> & ->). simpl. by rewrite s_mul_1_l.
    + assert (Hnz : ¬ (a = 0 ∧ b = 0)) by (intros Hab; apply Hzero in Hab; lia).
      destruct a, b; simpl; [exfalso; apply Hnz; done|..];
        repeat (rewrite s_mul_0_l || rewrite s_mul_0_r); done.
  - unfold edge_function, edge_coordinate_transform, edge_exponent.
    cbn [MonomialScalarBasisEdge_new me_xE me_hE me_tE].
    rewrite v_sub_diag, v_dot_zero_l, s_div_0_l by done. apply s_pow_zero.
Qed.

End RingProperties.

Section LinearSlots.
Context {R : Type} `{ScalarOps R} `{!ScalarLaws R}.

Lemma s_pow_one (y : R) : s_pow y 1 = y.
Proof. unfold s_pow. simpl. apply s_mul_1_r. Qed.

(** X18.  For a degree of at least 1, the slots 1, 2, 3 of the cell basis
    are the third, the second and the first local coordinate, and the
    slots 1, 2 of the face basis the second and the first local
    coordinate. *)
Theorem linear_slots_are_coordinates (m : nat) (x : VectorRd R) (T : Cell R) (F : Face R) :
  1 ≤ m →
  cell_function (MonomialScalarBasisCell_new T m) 1 x
    = Some (c2 (cell_coordinate_transform (MonomialScalarBasisCell_new T m) x))
  ∧ cell_function (MonomialScalarBasisCell_new T m) 2 x
    = Some (c1 (cell_coordinate_transform (MonomialScalarBasisCell_new T m) x))
  ∧ cell_function (MonomialScalarBasisCell_new T m) 3 x
    = Some (c0 (cell_coordinate_transform (MonomialScalarBasisCell_new T m) x))
  ∧ face_function (MonomialScalarBasisFace_new F m) 1 x
    = Some (d1 (face_coordinate_transform (MonomialScalarBasisFace_new F m) x))
  ∧ face_function (MonomialScalarBasisFace_new F m) 2 x
    = Some (d0 (face_coordinate_transform (MonomialScalarBasisFace_new F m) x)).
Proof.
  intros Hm. replace m with (1 + (m - 1)) by lia.
  unfold cell_function, face_function.
  cbn [MonomialScalarBasisCell_new MonomialScalarBasisFace_new mc_powers mf_powers].
  pose proof (cell_powers_lookup_extend 1 (m - 1) 1 ltac:(simpl; lia)) as Hc1.
  pose proof (cell_powers_lookup_extend 1 (m - 1) 2 ltac:(simpl; lia)) as Hc2.
  pose proof (cell_powers_lookup_extend 1 (m - 1) 3 ltac:(simpl; lia)) as Hc3.
  pose proof (face_powers_lookup_extend 1 (m - 1) 1 ltac:(simpl; lia)) as Hf1.
  pose proof (face_powers_lookup_extend 1 (m - 1) 2 ltac:(simpl; lia)) as Hf2.
  unfold VectorZd, Vector2i in *. rewrite Hc1, Hc2, Hc3, Hf1, Hf2.
  change (cell_generate_powers 1) with
    [mkV3 0 0 0; mkV3 0 0 1; mkV3 0 1 0; mkV3 1 0 0]%Z.
  change (face_generate_powers 1) with [mkV2 0 0; mkV2 0 1; mkV2 1 0]%Z.
  cbn [lookup list_lookup mbind option_bind c0 c1 c2 d0 d1].
  rewrite !s_pow_one.
  change (s_pow ?y 0) with (@s_one R _).
  split_and!; f_equal; rewrite ?s_mul_1_l, ?s_mul_1_r; done.
Qed.

End LinearSlots.

Section CurlSlots.
Context {R : Type} `{ScalarOps R} `{!ScalarLaws R}.

Lemma face_gradient_constant (m : nat) (x : VectorRd R) (F : Face R) :
  face_gradient (MonomialScalarBasisFace_new F m) 0 x = Some v_zero.
Proof.
  unfold face_gradient. cbn [MonomialScalarBasisFace_new mf_powers mf_jacobian].
  rewrite face_powers_head. simpl.
  unfold jacobian_transpose_mul, v_zero. simpl.
  by rewrite !s_mul_0_r, !s_add_0_l.
Qed.

(** X6.  The curl of a slot of the face basis is defined exactly for the
    slots below the dimension [(m+1)(m+2)/2] of the basis, and the curl of
    the slot 0, the constant function, is the zero vector (the scalars
    satisfy [0 * y = 0] and [0 - 0 = 0]). *)
Theorem face_curl_slots (m i : nat) (x : VectorRd R) (F : Face R) :
  (s_zero - s_zero)%sc = s_zero →
  (is_Some (face_curl (MonomialScalarBasisFace_new F m) i x)
   ↔ i < (m + 1) * (m + 2) / 2)
  ∧ face_curl (MonomialScalarBasisFace_new F m) 0 x = Some v_zero.
Proof.
  intros Hsub. split.
  - rewrite <- face_powers_length. unfold face_curl, face_gradient.
    cbn [MonomialScalarBasisFace_new mf_powers].
    unfold Vector2i. rewrite <- lookup_lt_is_Some.
    destruct (_ !! i); simpl; split; intros [? ?]; try done; eauto.
  - unfold face_curl. rewrite face_gradient_constant. simpl.
    unfold v_cross, v_zero. simpl. by rewrite !s_mul_0_l, Hsub.
Qed.

End CurlSlots.

(** ** Further properties of the Gram matrices *)

Section GramFurther.
Context {R : Type} `{ScalarOps R}.

(** The outcome of a sized overload, from the outcome of its checks and of
    its loop nest. *)
Lemma gram_outcome_cases (compute : result (MatrixXd R)) (pre : Prop)
    (entry : nat → nat → result R) (e : nat → nat → R) (sym_mode : bool)
    (nrows ncols : nat) :
  Decision pre →
  (¬ pre → compute = Err PreconditionFailure) →
  (pre → compute = gram_loop entry sym_mode nrows ncols) →
  (pre → ∀ i j, i < nrows → j < ncols → entry i j = Ok (e i j)) →
  ((∃ M, compute = Ok M)
   ↔ pre ∧ (sym_mode = true → nrows ≤ ncols ∨ nrows ≤ 1))
  ∧ (compute = Err IndexOutOfRange
     ↔ pre ∧ sym_mode = true ∧ 2 ≤ nrows ∧ ncols < nrows).
Proof.
  intros Hdec Hbad Hgood Hentry.
  destruct (decide pre) as [Hpre|Hpre].
  - rewrite (Hgood Hpre). specialize (Hentry Hpre).
    destruct (decide (sym_mode = true → nrows ≤ ncols ∨ nrows ≤ 1)) as [Hfit|Hfit].
    + destruct (gram_loop_ok entry e sym_mode nrows ncols Hentry Hfit) as (M & HM & _).
      rewrite HM. split.
      * split; [done|]. intros _. by exists M.
      * split; [done|]. intros (_ & Hs & Hr & Hc). specialize (Hfit Hs). lia.
    + assert (Hs : sym_mode = true) by (destruct sym_mode; [done|]; exfalso; by apply Hfit).
      assert (Hr : 2 ≤ nrows ∧ ncols < nrows).
      { destruct (decide (2 ≤ nrows ∧ ncols < nrows)); [done|].
        exfalso. apply Hfit. intros _. lia. }
      rewrite (gram_loop_out_of_range entry e sym_mode nrows ncols Hentry Hs)
        by apply Hr.
      split.
      * split; [intros [M HM]; done|]. intros [_ Hfit']. done.
      * split; [done|]. done.
  - rewrite (Hbad Hpre). split.
    + split; [intros [M HM]; done|]. intros [? _]. done.
    + split; [done|]. intros [? _]. done.
Qed.

Lemma compute_gram_matrix_ss_unchecked (B1 B2 : multi_array R) (qr : QuadratureRule R)
    (nrows ncols : nat) (sym : string) :
  ¬ (length qr = ma_shape1 B1 ∧ length qr = ma_shape1 B2
     ∧ nrows ≤ ma_shape0 B1 ∧ ncols ≤ ma_shape0 B2) →
  compute_gram_matrix_ss B1 B2 qr nrows ncols sym = Err PreconditionFailure.
Proof.
  intros Hbad. rewrite compute_gram_matrix_ss_loop.
  destruct ((length qr =? ma_shape1 B1) && (length qr =? ma_shape1 B2)) eqn:Hn;
    simpl; [|done].
  destruct ((nrows <=? ma_shape0 B1) && (ncols <=? ma_shape0 B2)) eqn:Hs;
    simpl; [|done].
  exfalso. apply Hbad.
  apply andb_true_iff in Hn as [Hn1 Hn2]. apply andb_true_iff in Hs as [Hs1 Hs2].
  apply Nat.eqb_eq in Hn1, Hn2. apply Nat.leb_le in Hs1, Hs2. done.
Qed.

Lemma compute_gram_matrix_vv_unchecked (B1 B2 : multi_array (VectorRd R))
    (qr : QuadratureRule R) (nrows ncols : nat) (sym : string) :
  ¬ (length qr = ma_shape1 B1 ∧ length qr = ma_shape1 B2
     ∧ nrows ≤ ma_shape0 B1 ∧ ncols ≤ ma_shape0 B2) →
  compute_gram_matrix_vv B1 B2 qr nrows ncols sym = Err PreconditionFailure.
Proof.
  intros Hbad. rewrite compute_gram_matrix_vv_loop.
  destruct ((length qr =? ma_shape1 B1) && (length qr =? ma_shape1 B2)) eqn:Hn;
    simpl; [|done].
  destruct ((nrows <=? ma_shape0 B1) && (ncols <=? ma_shape0 B2)) eqn:Hs;
    simpl; [|done].
  exfalso. apply Hbad.
  apply andb_true_iff in Hn as [Hn1 Hn2]. apply andb_true_iff in Hs as [Hs1 Hs2].
  apply Nat.eqb_eq in Hn1, Hn2. apply Nat.leb_le in Hs1, Hs2. done.
Qed.

Lemma sym_mode_iff (sym : string) : String.eqb sym "sym" = true ↔ sym = "sym".
Proof. apply String.eqb_eq. Qed.

(** The scalar overload with a rule of no node and at least one entry to
    compute: the first entry ends on the range check of [&B1i[0]]. *)
Lemma compute_gram_matrix_ss_no_node (B1 B2 : multi_array R) (qr : QuadratureRule R)
    (nrows ncols : nat) (sym : string) :
  length qr = ma_shape1 B1 → length qr = ma_shape1 B2 →
  nrows ≤ ma_shape0 B1 → ncols ≤ ma_shape0 B2 →
  length qr = 0 → 0 < nrows → 0 < ncols →
  compute_gram_matrix_ss B1 B2 qr nrows ncols sym = Err IndexOutOfRange.
Proof.
  intros Hq1 Hq2 Hr Hc Hnone Hrows Hcols.
  rewrite compute_gram_matrix_ss_checked by done.
  apply gram_loop_first_entry; [done|done|].
  apply entry_ss_no_node; lia.
Qed.

(** X11.  The outcome of a sized overload is decided by its arguments.
    The vector overload returns a matrix exactly when the node counts
    match, [nrows] and [ncols] are within the families and, for
    [sym = "sym"], [nrows <= ncols] or there is at most one row; it ends
    on an out-of-range access exactly when the checks pass,
    [sym = "sym"], and there are at least two rows and fewer columns than
    rows.  The scalar overload moreover takes the address of the first
    sample of a row for each entry that it computes: it returns a matrix
    only if the rule has a node or the result has no entry, and ends on
    an out-of-range access also when the checks pass, the rule has no
    node and the result has an entry. *)
Theorem gram_outcomes
    (B1 B2 : multi_array R) (Bv1 Bv2 : multi_array (VectorRd R))
    (qr : QuadratureRule R) (nrows ncols : nat) (sym : string) :
  ((∃ M, compute_gram_matrix_ss B1 B2 qr nrows ncols sym = Ok M)
   ↔ (length qr = ma_shape1 B1 ∧ length qr = ma_shape1 B2
      ∧ nrows ≤ ma_shape0 B1 ∧ ncols ≤ ma_shape0 B2)
     ∧ (sym = "sym" → nrows ≤ ncols ∨ nrows ≤ 1)
     ∧ (length qr = 0 → nrows = 0 ∨ ncols = 0))
  ∧ (compute_gram_matrix_ss B1 B2 qr nrows ncols sym = Err IndexOutOfRange
     ↔ (length qr = ma_shape1 B1 ∧ length qr = ma_shape1 B2
        ∧ nrows ≤ ma_shape0 B1 ∧ ncols ≤ ma_shape0 B2)
       ∧ ((sym = "sym" ∧ 2 ≤ nrows ∧ ncols < nrows)
          ∨ (length qr = 0 ∧ 0 < nrows ∧ 0 < ncols)))
  ∧ ((∃ M, compute_gram_matrix_vv Bv1 Bv2 qr nrows ncols sym = Ok M)
     ↔ (length qr = ma_shape1 Bv1 ∧ length qr = ma_shape1 Bv2
        ∧ nrows ≤ ma_shape0 Bv1 ∧ ncols ≤ ma_shape0 Bv2)
       ∧ (sym = "sym" → nrows ≤ ncols ∨ nrows ≤ 1))
  ∧ (compute_gram_matrix_vv Bv1 Bv2 qr nrows ncols sym = Err IndexOutOfRange
     ↔ (length qr = ma_shape1 Bv1 ∧ length qr = ma_shape1 Bv2
        ∧ nrows ≤ ma_shape0 Bv1 ∧ ncols ≤ ma_shape0 Bv2)
       ∧ sym = "sym" ∧ 2 ≤ nrows ∧ ncols < nrows).
Proof.
  rewrite <- !sym_mode_iff.
  assert (Hvv := gram_outcome_cases
              (compute_gram_matrix_vv Bv1 Bv2 qr nrows ncols sym)
              (length qr = ma_shape1 Bv1 ∧ length qr = ma_shape1 Bv2
               ∧ nrows ≤ ma_shape0 Bv1 ∧ ncols ≤ ma_shape0 Bv2)
              (entry_vv Bv1 Bv2 qr (map (weight_at qr) (seq 0 (length qr))))
              (computed_entry_vv Bv1 Bv2 qr) (String.eqb sym "sym") nrows ncols).
  destruct Hvv as [Hokv Herrv].
  { apply _. }
  { apply compute_gram_matrix_vv_unchecked. }
  { intros (?&?&?&?). by apply compute_gram_matrix_vv_checked. }
  { intros (?&?&?&?) i j Hi Hj. apply entry_vv_value; [done|done|lia|lia]. }
  split; [|split; [|split; [exact Hokv|exact Herrv]]].
  - (* the scalar overload returns a matrix *)
    destruct (decide (length qr = 0 ∧ 0 < nrows ∧ 0 < ncols)) as [Hnone|Hfine].
    + split.
      * intros [M HM]. exfalso.
        destruct (decide (length qr = ma_shape1 B1 ∧ length qr = ma_shape1 B2
                          ∧ nrows ≤ ma_shape0 B1 ∧ ncols ≤ ma_shape0 B2))
          as [(?&?&?&?)|Hpre].
        -- rewrite compute_gram_matrix_ss_no_node in HM by tauto. done.
        -- rewrite compute_gram_matrix_ss_unchecked in HM by done. done.
      * intros (_ & _ & Hentries). lia.
    + destruct (gram_outcome_cases
              (compute_gram_matrix_ss B1 B2 qr nrows ncols sym)
              (length qr = ma_shape1 B1 ∧ length qr = ma_shape1 B2
               ∧ nrows ≤ ma_shape0 B1 ∧ ncols ≤ ma_shape0 B2)
              (entry_ss B1 B2 (map (weight_at qr) (seq 0 (length qr))))
              (computed_entry_ss B1 B2 qr) (String.eqb sym "sym") nrows ncols)
        as [Hok _].
      { apply _. }
      { apply compute_gram_matrix_ss_unchecked. }
      { intros (?&?&?&?). by apply compute_gram_matrix_ss_checked. }
      { intros (?&?&?&?) i j Hi Hj. apply entry_ss_value; [done|done|lia|lia|lia]. }
      rewrite Hok. split; [|tauto]. intros [Hpre Hsym]. split; [done|]. split; [done|lia].
  - destruct (decide (length qr = 0 ∧ 0 < nrows ∧ 0 < ncols)) as [Hnone|Hfine].
    + split.
      * intros Herr.
        destruct (decide (length qr = ma_shape1 B1 ∧ length qr = ma_shape1 B2
                          ∧ nrows ≤ ma_shape0 B1 ∧ ncols ≤ ma_shape0 B2))
          as [Hpre|Hpre]; [by split; [|right]|].
        rewrite compute_gram_matrix_ss_unchecked in Herr by done. done.
      * intros [(?&?&?&?) _]. apply compute_gram_matrix_ss_no_node; tauto.
    + destruct (gram_outcome_cases
              (compute_gram_matrix_ss B1 B2 qr nrows ncols sym)
              (length qr = ma_shape1 B1 ∧ length qr = ma_shape1 B2
               ∧ nrows ≤ ma_shape0 B1 ∧ ncols ≤ ma_shape0 B2)
              (entry_ss B1 B2 (map (weight_at qr) (seq 0 (length qr))))
              (computed_entry_ss B1 B2 qr) (String.eqb sym "sym") nrows ncols)
        as [_ Herr].
      { apply _. }
      { apply compute_gram_matrix_ss_unchecked. }
      { intros (?&?&?&?). by apply compute_gram_matrix_ss_checked. }
      { intros (?&?&?&?) i j Hi Hj. apply entry_ss_value; [done|done|lia|lia|lia]. }
      rewrite Herr. split; [intros [Hpre Hs]; split; [done|by left]|].
      intros [Hpre [Hs|Hnone]]; [done|]. exfalso. by apply Hfine.
Qed.

(** The matrix that a sized overload returns, with its entries. *)
Lemma gram_ss_result (B1 B2 : multi_array R) (qr : QuadratureRule R)
    (nrows ncols : nat) (sym : string) :
  length qr = ma_shape1 B1 → length qr = ma_shape1 B2 →
  nrows ≤ ma_shape0 B1 → ncols ≤ ma_shape0 B2 →
  (sym = "sym" → nrows ≤ ncols ∨ nrows ≤ 1) →
  0 < length qr ∨ nrows = 0 ∨ ncols = 0 →
  ∃ M, compute_gram_matrix_ss B1 B2 qr nrows ncols sym = Ok M
       ∧ gram_inv (String.eqb sym "sym") (computed_entry_ss B1 B2 qr)
           nrows ncols nrows M.
Proof.
  intros Hq1 Hq2 Hr Hc Hsym Hnodes. rewrite compute_gram_matrix_ss_checked by done.
  apply gram_loop_ok.
  - intros i j Hi Hj. apply entry_ss_value; [done|done|lia|lia|lia].
  - intros Hs. apply Hsym. by apply sym_mode_iff.
Qed.

Lemma gram_vv_result (B1 B2 : multi_array (VectorRd R)) (qr : QuadratureRule R)
    (nrows ncols : nat) (sym : string) :
  length qr = ma_shape1 B1 → length qr = ma_shape1 B2 →
  nrows ≤ ma_shape0 B1 → ncols ≤ ma_shape0 B2 →
  (sym = "sym" → nrows ≤ ncols ∨ nrows ≤ 1) →
  ∃ M, compute_gram_matrix_vv B1 B2 qr nrows ncols sym = Ok M
       ∧ gram_inv (String.eqb sym "sym") (computed_entry_vv B1 B2 qr)
           nrows ncols nrows M.
Proof.
  intros Hq1 Hq2 Hr Hc Hsym. rewrite compute_gram_matrix_vv_checked by done.
  apply gram_loop_ok.
  - intros i j Hi Hj. apply entry_vv_value; [done|done|lia|lia].
  - intros Hs. apply Hsym. by apply sym_mode_iff.
Qed.

(** X9.  Restricting the families to their first [nrows] and [ncols]
    members gives the top-left block of the matrix of the complete
    families: the sized overloads and the complete-family overloads agree
    on every entry [(i, j)] with [i < nrows] and [j < ncols] (in symmetric
    mode both calls need no more rows than columns, and the scalar
    overloads a rule of at least one node). *)
Theorem partial_family_is_block
    (B1 B2 : multi_array R) (Bv1 Bv2 : multi_array (VectorRd R))
    (qr : QuadratureRule R) (nrows ncols : nat) (sym : string) :
  length qr = ma_shape1 B1 → length qr = ma_shape1 B2 →
  length qr = ma_shape1 Bv1 → length qr = ma_shape1 Bv2 →
  nrows ≤ ma_shape0 B1 → ncols ≤ ma_shape0 B2 →
  nrows ≤ ma_shape0 Bv1 → ncols ≤ ma_shape0 Bv2 →
  (sym = "sym" →
   nrows ≤ ncols ∧ ma_shape0 B1 ≤ ma_shape0 B2 ∧ ma_shape0 Bv1 ≤ ma_shape0 Bv2) →
  (0 < length qr →
   ∃ M Mfull,
     compute_gram_matrix_ss B1 B2 qr nrows ncols sym = Ok M
     ∧ compute_gram_matrix_ss_full B1 B2 qr sym = Ok Mfull
     ∧ ∀ i j, i < nrows → j < ncols → mat_get M i j = mat_get Mfull i j)
  ∧ (∃ M Mfull,
       compute_gram_matrix_vv Bv1 Bv2 qr nrows ncols sym = Ok M
       ∧ compute_gram_matrix_vv_full Bv1 Bv2 qr sym = Ok Mfull
       ∧ ∀ i j, i < nrows → j < ncols → mat_get M i j = mat_get Mfull i j).
Proof.
  intros Hq1 Hq2 Hqv1 Hqv2 Hr Hc Hrv Hcv Hsym. split.
  - intros Hpos.
    destruct (gram_ss_result B1 B2 qr nrows ncols sym)
      as (M & HM & _ & _ & _ & Hget); try done.
    { intros Hs. left. by apply Hsym. }
    { by left. }
    destruct (gram_ss_result B1 B2 qr (ma_shape0 B1) (ma_shape0 B2) sym)
      as (Mf & HMf & _ & _ & _ & Hgetf); try done.
    { intros Hs. left. by apply Hsym. }
    { by left. }
    exists M, Mf. split_and!; try done.
    intros i j Hi Hj. rewrite Hget, Hgetf by lia. done.
  - destruct (gram_vv_result Bv1 Bv2 qr nrows ncols sym)
      as (M & HM & _ & _ & _ & Hget); try done.
    { intros Hs. left. by apply Hsym. }
    destruct (gram_vv_result Bv1 Bv2 qr (ma_shape0 Bv1) (ma_shape0 Bv2) sym)
      as (Mf & HMf & _ & _ & _ & Hgetf); try done.
    { intros Hs. left. by apply Hsym. }
    exists M, Mf. split_and!; try done.
    intros i j Hi Hj. rewrite Hget, Hgetf by lia. done.
Qed.

(** The entries of a matrix filled in symmetric mode, read off a matrix
    filled with the same entries in full. *)
Lemma gram_inv_mirror (e : nat → nat → R) (nrows ncols : nat) (Ms M : MatrixXd R) :
  nrows ≤ ncols →
  gram_inv true e nrows ncols nrows Ms →
  gram_inv false e nrows ncols nrows M →
  ∀ i j, i < nrows → j < ncols →
    mat_get Ms i j = mat_get M (Nat.min i j) (Nat.max i j).
Proof.
  intros Hle (_ & _ & _ & Hgets) (_ & _ & _ & Hget) i j Hi Hj.
  rewrite Hgets, Hget by lia. f_equal. unfold gram_value. simpl.
  destruct (Nat.ltb_spec j i).
  - by rewrite Nat.min_r, Nat.max_l by lia.
  - by rewrite Nat.min_l, Nat.max_r by lia.
Qed.

(** X10.  What the symmetric fast path returns, for any two families and
    no more rows than columns: the entry [(i, j)] of the result for
    [sym = "sym"] is the entry [(min i j, max i j)] of the result of the
    full computation (any other [sym]), whatever the arithmetic of the
    scalars is: the entries on and above the diagonal are the same, and
    the entries below it mirror those above (for the scalar overload the
    rule has at least one node). *)
Theorem sym_fast_path_mirrors_upper_triangle
    (B1 B2 : multi_array R) (Bv1 Bv2 : multi_array (VectorRd R))
    (qr : QuadratureRule R) (nrows ncols : nat) (sym : string) :
  length qr = ma_shape1 B1 → length qr = ma_shape1 B2 →
  length qr = ma_shape1 Bv1 → length qr = ma_shape1 Bv2 →
  nrows ≤ ma_shape0 B1 → ncols ≤ ma_shape0 B2 →
  nrows ≤ ma_shape0 Bv1 → ncols ≤ ma_shape0 Bv2 →
  nrows ≤ ncols → sym ≠ "sym" →
  (0 < length qr →
   ∃ Ms M,
     compute_gram_matrix_ss B1 B2 qr nrows ncols "sym" = Ok Ms
     ∧ compute_gram_matrix_ss B1 B2 qr nrows ncols sym = Ok M
     ∧ ∀ i j, i < nrows → j < ncols →
         mat_get Ms i j = mat_get M (Nat.min i j) (Nat.max i j))
  ∧ (∃ Ms M,
       compute_gram_matrix_vv Bv1 Bv2 qr nrows ncols "sym" = Ok Ms
       ∧ compute_gram_matrix_vv Bv1 Bv2 qr nrows ncols sym = Ok M
       ∧ ∀ i j, i < nrows → j < ncols →
           mat_get Ms i j = mat_get M (Nat.min i j) (Nat.max i j)).
Proof.
  intros Hq1 Hq2 Hqv1 Hqv2 Hr Hc Hrv Hcv Hle Hsym.
  pose proof (proj2 (String.eqb_neq sym "sym") Hsym) as Hoff. split.
  - intros Hpos.
    destruct (gram_ss_result B1 B2 qr nrows ncols "sym") as (Ms & HMs & Hinvs);
      [done|done|done|done|intros _; by left|by left|].
    destruct (gram_ss_result B1 B2 qr nrows ncols sym) as (M & HM & Hinv);
      [done|done|done|done|done|by left|].
    rewrite Hoff in Hinv.
    exists Ms, M. split_and!; [done|done|]. by eapply gram_inv_mirror.
  - destruct (gram_vv_result Bv1 Bv2 qr nrows ncols "sym") as (Ms & HMs & Hinvs);
      [done|done|done|done|intros _; by left|].
    destruct (gram_vv_result Bv1 Bv2 qr nrows ncols sym) as (M & HM & Hinv);
      [done|done|done|done|done|].
    rewrite Hoff in Hinv.
    exists Ms, M. split_and!; [done|done|]. by eapply gram_inv_mirror.
Qed.

Lemma gram_inv_zero (sym_mode : bool) (e : nat → nat → R) (nrows ncols : nat)
    (M : MatrixXd R) :
  (∀ i j, e i j = s_zero) →
  gram_inv sym_mode e nrows ncols nrows M → M = mat_zero nrows ncols.
Proof.
  intros He (Hwf & Hr & Hc & Hget).
  apply mat_ext; [done|apply mat_zero_wf|done|done|].
  intros i j Hi Hj. rewrite Hget, mat_get_zero by lia.
  unfold gram_value. by rewrite !He, Tauto.if_same.
Qed.

(** X12.  With a quadrature rule of no node (and families sampled at no
    node) the vector and the mixed overload return the zero matrix of
    their dimensions, while the scalar overload, which takes the address
    of the first sample of a row, ends on the range check as soon as the
    result has an entry; it returns the (empty) zero matrix when the
    result has no row or no column. *)
Theorem empty_rule_outcomes
    (B1 B2 : multi_array R) (Bv1 Bv2 : multi_array (VectorRd R))
    (nrows ncols : nat) (sym : string) :
  ma_shape1 B1 = 0 → ma_shape1 B2 = 0 → ma_shape1 Bv1 = 0 → ma_shape1 Bv2 = 0 →
  nrows ≤ ma_shape0 B1 → ncols ≤ ma_shape0 B2 →
  nrows ≤ ma_shape0 Bv1 → ncols ≤ ma_shape0 Bv2 →
  (sym = "sym" → nrows ≤ ncols) →
  compute_gram_matrix_vv Bv1 Bv2 [] nrows ncols sym = Ok (mat_zero nrows ncols)
  ∧ compute_gram_matrix_vs Bv1 B2 []
    = Ok (mat_zero (ma_shape0 Bv1) (dimspace * ma_shape0 B2))
  ∧ (0 < nrows → 0 < ncols →
     compute_gram_matrix_ss B1 B2 [] nrows ncols sym = Err IndexOutOfRange)
  ∧ (nrows = 0 ∨ ncols = 0 →
     compute_gram_matrix_ss B1 B2 [] nrows ncols sym = Ok (mat_zero nrows ncols)).
Proof.
  intros Hs1 Hs2 Hsv1 Hsv2 Hr Hc Hrv Hcv Hsym. split_and!.
  - destruct (gram_vv_result Bv1 Bv2 [] nrows ncols sym) as (M & HM & Hinv);
      try done.
    { intros Hs. left. by apply Hsym. }
    rewrite HM. f_equal. by eapply gram_inv_zero.
  - destruct (compute_gram_matrix_vs_spec Bv1 B2 []) as (M & HM & Hwf & HMr & HMc & Hget);
      [done|done|].
    rewrite HM. f_equal.
    apply mat_ext; [done|apply mat_zero_wf|done|done|].
    intros i c Hi Hcol. rewrite mat_get_zero by lia.
    assert (Hpos : 0 < ma_shape0 B2) by (unfold dimspace in *; lia).
    rewrite (Nat.div_mod_eq c (ma_shape0 B2)), (Nat.mul_comm (ma_shape0 B2)).
    rewrite Hget; [done|lia| |by apply Nat.mod_upper_bound; lia].
    apply Nat.Div0.div_lt_upper_bound. rewrite Nat.mul_comm. lia.
  - intros Hrows Hcols. by apply compute_gram_matrix_ss_no_node.
  - intros Hempty.
    destruct (gram_ss_result B1 B2 [] nrows ncols sym) as (M & HM & Hinv);
      try done.
    { intros Hs. left. by apply Hsym. }
    { by right. }
    rewrite HM. f_equal. by eapply gram_inv_zero.
Qed.

End GramFurther.

(** ** Further properties of the hybrid space *)

Section HybridCoreFurther.
Context {R : Type} `{ScalarOps R}.
Variable generate_quadrature_rule_cell : nat → nat → QuadratureRule R.
Variable generate_quadrature_rule_face : nat → nat → QuadratureRule R.
Variable basis_quad : string → nat → QuadratureRule R → nat → list (list R).
Variable gram_matrix :
  list (list R) → list (list R) → nat → nat → QuadratureRule R → bool → MatrixXd R.
Variable ldlt_solve : MatrixXd R → list R → list R.
Variable compute_weights : nat → list R.
Variable cell_basis : nat → nat → R → R → R → R.
Variable face_basis : nat → nat → R → R → R → R.
Variable hc : HybridCore (R := R).

Lemma integrate_over_cell_value (iT : nat) (f : R → R → R → R) :
  iT < n_cells (hc_mesh hc) →
  integrate_over_cell generate_quadrature_rule_cell hc iT f
  = Ok (quadrature_sum (generate_quadrature_rule_cell iT (2 * Ldeg hc + 2)) f).
Proof.
  intros HiT. unfold integrate_over_cell, quadrature_over_cell.
  rewrite (assert_true _ (proj2 (Nat.ltb_lt _ _) HiT)). simpl.
  f_equal. apply accumulate_nodes.
Qed.

Lemma integrate_over_face_value (iF : nat) (f : R → R → R → R) :
  iF < n_faces (hc_mesh hc) →
  integrate_over_face generate_quadrature_rule_face hc iF f
  = Ok (quadrature_sum (generate_quadrature_rule_face iF (2 * hc_K hc + 2)) f).
Proof.
  intros HiF. unfold integrate_over_face, quadrature_over_face.
  rewrite (assert_true _ (proj2 (Nat.ltb_lt _ _) HiF)). simpl.
  f_equal. apply accumulate_nodes.
Qed.

(** X13.  [integrate_over_domain] never fails, on any mesh: every cell
    index that it passes to [integrate_over_cell] is valid, and it returns
    the sum over the cells, in order, of the quadrature sums of the cells
    (zero for a mesh without cells). *)
Theorem integrate_over_domain_sums_cells (f : R → R → R → R) :
  integrate_over_domain generate_quadrature_rule_cell hc f
  = Ok (ssum (map (fun iT =>
                quadrature_sum (generate_quadrature_rule_cell iT (2 * Ldeg hc + 2)) f)
              (seq 0 (n_cells (hc_mesh hc))))).
Proof.
  unfold integrate_over_domain.
  destruct (for_loopM_inv
              (fun iT value =>
                 value = ssum (map (fun iT =>
                   quadrature_sum (generate_quadrature_rule_cell iT (2 * Ldeg hc + 2)) f)
                   (seq 0 iT)))
              0 (n_cells (hc_mesh hc))
              (fun iT value =>
                 v ← integrate_over_cell generate_quadrature_rule_cell hc iT f;
                 Ok (value + v)%sc) s_zero) as (value & Hv & ->); [lia|done| |done].
  intros iT value HiT ->. rewrite integrate_over_cell_value by lia.
  eexists. split; [reflexivity|].
  rewrite seq_S, map_app. cbn [map]. by rewrite ssum_snoc.
Qed.

(** X14.  The integration helpers check the index of the entity first: they
    fail with a precondition failure exactly for a cell index that is not
    below [n_cells], respectively a face index that is not below
    [n_faces]. *)
Theorem integration_helpers_check_index {S : Type} (iT iF : nat)
    (f : nat → R → R → R → R → S → S) (s : S) (g : R → R → R → R) :
  (quadrature_over_cell generate_quadrature_rule_cell hc iT f s
     = Err PreconditionFailure ↔ n_cells (hc_mesh hc) ≤ iT)
  ∧ (quadrature_over_face generate_quadrature_rule_face hc iF f s
       = Err PreconditionFailure ↔ n_faces (hc_mesh hc) ≤ iF)
  ∧ (integrate_over_cell generate_quadrature_rule_cell hc iT g
       = Err PreconditionFailure ↔ n_cells (hc_mesh hc) ≤ iT)
  ∧ (integrate_over_face generate_quadrature_rule_face hc iF g
       = Err PreconditionFailure ↔ n_faces (hc_mesh hc) ≤ iF).
Proof.
  unfold integrate_over_cell, integrate_over_face, quadrature_over_cell,
    quadrature_over_face.
  destruct (Nat.ltb_spec iT (n_cells (hc_mesh hc))),
           (Nat.ltb_spec iF (n_faces (hc_mesh hc))); simpl;
    split_and!; split; try done; lia.
Qed.


(** X16.  With no cell unknown ([L = -1]) and one unknown per face
    ([K = 0]), the slot of the cell [iT] in the vector returned by
    [interpolate] is the sum over the faces of the cell of the weight of
    [compute_weights], times the quotient of the constant face basis value
    at the face centre by the constant cell basis value at the cell centre,
    times the coefficient of the face (the weights cover the faces of the
    cell and the faces belong to the mesh). *)
Theorem faces_only_lowest_order_average (f : R → R → R → R) (doe iT : nat) :
  hc_L hc = (-1)%Z → hc_K hc = 0 →
  iT < n_cells (hc_mesh hc) →
  cell_n_faces (hc_mesh hc) iT ≤ length (compute_weights iT) →
  (∀ ilF, ilF < cell_n_faces (hc_mesh hc) iT →
     cell_face_index (hc_mesh hc) iT ilF < n_faces (hc_mesh hc)) →
  interpolate generate_quadrature_rule_cell generate_quadrature_rule_face basis_quad
    gram_matrix ldlt_solve compute_weights cell_basis face_basis hc f doe !! iT
  = Some (ssum (map (fun ilF =>
       (vec_get (compute_weights iT) ilF
        * (face_basis (cell_face_index (hc_mesh hc) iT ilF) 0
             (c0 (face_center (hc_mesh hc) (cell_face_index (hc_mesh hc) iT ilF)))
             (c1 (face_center (hc_mesh hc) (cell_face_index (hc_mesh hc) iT ilF)))
             (c2 (face_center (hc_mesh hc) (cell_face_index (hc_mesh hc) iT ilF)))
           / cell_basis iT 0 (c0 (cell_center (hc_mesh hc) iT))
               (c1 (cell_center (hc_mesh hc) iT)) (c2 (cell_center (hc_mesh hc) iT)))
        * vec_get (face_block generate_quadrature_rule_face basis_quad gram_matrix
                     ldlt_solve hc f doe (cell_face_index (hc_mesh hc) iT ilF)) 0)%sc)
     (seq 0 (cell_n_faces (hc_mesh hc) iT)))).
Proof.
  intros HL HK HiT Hweights Hfaces.
  destruct (interpolate_spec generate_quadrature_rule_cell generate_quadrature_rule_face
              basis_quad gram_matrix ldlt_solve compute_weights cell_basis face_basis
              hc f doe) as (_ & _ & _ & Havg).
  destruct (interpolate_faces_spec generate_quadrature_rule_face basis_quad gram_matrix
              ldlt_solve hc f doe) as (_ & Hblocks).
  rewrite (Havg HL iT HiT). f_equal. unfold averaged_cell_value. f_equal.
  apply map_ext_in. intros ilF HilF. apply in_seq in HilF.
  rewrite rescaled_weights_spec by (done || lia). f_equal.
  assert (Hone : nlocal_face_dofs hc = 1).
  { unfold nlocal_face_dofs. rewrite HK. reflexivity. }
  apply vec_get_lookup.
  specialize (Hblocks (cell_face_index (hc_mesh hc) iT ilF) 0).
  rewrite Hone, Nat.mul_1_r, Nat.add_0_r in Hblocks. apply Hblocks; [|lia].
  apply Hfaces. lia.
Qed.

(** X17.  With no cell unknown ([L = -1]) the vector returned by
    [interpolate] does not depend on the quadrature rules of the cells:
    the projection on the cell is computed and then overwritten. *)
Theorem faces_only_ignores_cell_rule
    (other_rule_cell : nat → nat → QuadratureRule R) (f : R → R → R → R) (doe : nat) :
  hc_L hc = (-1)%Z →
  interpolate generate_quadrature_rule_cell generate_quadrature_rule_face basis_quad
    gram_matrix ldlt_solve compute_weights cell_basis face_basis hc f doe
  = interpolate other_rule_cell generate_quadrature_rule_face basis_quad
      gram_matrix ldlt_solve compute_weights cell_basis face_basis hc f doe.
Proof.
  intros HL.
  destruct (interpolate_spec generate_quadrature_rule_cell generate_quadrature_rule_face
              basis_quad gram_matrix ldlt_solve compute_weights cell_basis face_basis
              hc f doe) as (Hlen & Hfaces & _ & Havg).
  destruct (interpolate_spec other_rule_cell generate_quadrature_rule_face
              basis_quad gram_matrix ldlt_solve compute_weights cell_basis face_basis
              hc f doe) as (Hlen' & Hfaces' & _ & Havg').
  apply list_eq. intros p.
  destruct (decide (ntotal_cell_dofs hc ≤ p)) as [Hp|Hp].
  - by rewrite Hfaces, Hfaces'.
  - assert (Hcell : p < n_cells (hc_mesh hc)).
    { unfold ntotal_cell_dofs in Hp. rewrite (dofs_faces_only hc HL) in Hp. lia. }
    by rewrite (Havg HL p Hcell), (Havg' HL p Hcell).
Qed.

End HybridCoreFurther.

Section IntegrateConstant.
Context {R : Type} `{ScalarOps R} `{!ScalarLaws R}.
Variable generate_quadrature_rule_cell : nat → nat → QuadratureRule R.
Variable generate_quadrature_rule_face : nat → nat → QuadratureRule R.
Variable hc : HybridCore (R := R).

Lemma quadrature_sum_one (quad : QuadratureRule R) :
  quadrature_sum quad (fun _ _ _ => s_one) = ssum (map qw quad).
Proof.
  unfold quadrature_sum. f_equal. apply map_ext. intros nd. apply s_mul_1_r.
Qed.

(** X15.  Integrating the constant function 1 over a cell or a face
    returns the sum of the weights of its quadrature rule. *)
Theorem integrate_one_is_weight_sum (iT iF : nat) :
  iT < n_cells (hc_mesh hc) → iF < n_faces (hc_mesh hc) →
  integrate_over_cell generate_quadrature_rule_cell hc iT (fun _ _ _ => s_one)
    = Ok (ssum (map qw (generate_quadrature_rule_cell iT (2 * Ldeg hc + 2))))
  ∧ integrate_over_face generate_quadrature_rule_face hc iF (fun _ _ _ => s_one)
    = Ok (ssum (map qw (generate_quadrature_rule_face iF (2 * hc_K hc + 2)))).
Proof.
  intros HiT HiF.
  rewrite integrate_over_cell_value, integrate_over_face_value by done.
  by rewrite !quadrature_sum_one.
Qed.

End IntegrateConstant.

(** ** The further properties at concrete inputs *)

Lemma bases_hierarchical_witness :
  cell_function (MonomialScalarBasisCell_new sample_cell (1 + 2)) 3 (mkV3 1 2 3)%Z
  = cell_function (MonomialScalarBasisCell_new sample_cell 1) 3 (mkV3 1 2 3)%Z.
Proof.
  refine (proj1 (proj1 (bases_hierarchical 1 2 3 (mkV3 1 2 3)%Z sample_cell sample_face) _)).
  vm_compute. lia.
Defined.

Lemma basis_at_center_of_mass_witness :
  cell_function (MonomialScalarBasisCell_new sample_cell 2) 4
    (cell_center_mass sample_cell) = Some 0%Z.
Proof.
  refine (proj1 (basis_at_center_of_mass 2 4 sample_cell sample_face sample_edge _ _) _).
  - simpl; lia.
  - simpl; lia.
  - vm_compute; lia.
Defined.

Lemma face_curl_slots_witness :
  face_curl (MonomialScalarBasisFace_new sample_face_unit 2) 0 (mkV3 1 2 3)%Z
  = Some (mkV3 0 0 0)%Z.
Proof.
  refine (proj2 (face_curl_slots 2 0 (mkV3 1 2 3)%Z sample_face_unit _)).
  reflexivity.
Defined.

Lemma linear_slots_are_coordinates_witness :
  cell_function (MonomialScalarBasisCell_new sample_cell 2) 1 (mkV3 2 4 6)%Z
  = Some (c2 (cell_coordinate_transform (MonomialScalarBasisCell_new sample_cell 2)
                (mkV3 2 4 6)%Z)).
Proof.
  refine (proj1 (linear_slots_are_coordinates 2 (mkV3 2 4 6)%Z sample_cell sample_face _)).
  lia.
Defined.

Lemma partial_family_is_block_witness :
  ∃ M Mfull,
    compute_gram_matrix_ss sample_B1 sample_B2 sample_qr 1 2 "nonsym" = Ok M
    ∧ compute_gram_matrix_ss_full sample_B1 sample_B2 sample_qr "nonsym" = Ok Mfull
    ∧ ∀ i j, i < 1 → j < 2 → mat_get M i j = mat_get Mfull i j.
Proof.
  refine (proj1 (partial_family_is_block sample_B1 sample_B2 sample_Bv sample_Bv
                   sample_qr 1 2 "nonsym" _ _ _ _ _ _ _ _ _) _);
    try reflexivity; simpl; try lia; discriminate.
Defined.

Lemma sym_fast_path_mirrors_upper_triangle_witness :
  ∃ Ms M,
    compute_gram_matrix_ss sample_B1 sample_B2 sample_qr 2 2 "sym" = Ok Ms
    ∧ compute_gram_matrix_ss sample_B1 sample_B2 sample_qr 2 2 "nonsym" = Ok M
    ∧ ∀ i j, i < 2 → j < 2 →
        mat_get Ms i j = mat_get M (Nat.min i j) (Nat.max i j).
Proof.
  refine (proj1 (sym_fast_path_mirrors_upper_triangle sample_B1 sample_B2 sample_Bv
                   sample_Bv sample_qr 2 2 "nonsym" _ _ _ _ _ _ _ _ _ _) _);
    try reflexivity; simpl; try lia; discriminate.
Defined.

Lemma empty_rule_outcomes_witness :
  compute_gram_matrix_ss sample_B_empty sample_B_empty [] 2 2 "sym"
  = Err IndexOutOfRange.
Proof.
  refine (proj1 (proj2 (proj2 (empty_rule_outcomes sample_B_empty sample_B_empty
                   sample_Bv_empty sample_Bv_empty 2 2 "sym" _ _ _ _ _ _ _ _ _))) _ _);
    try reflexivity; simpl; lia.
Defined.

Lemma integrate_one_is_weight_sum_witness :
  integrate_over_cell sample_rule_cell sample_hc 0 (fun _ _ _ => 1%Z)
  = Ok (ssum (map qw (sample_rule_cell 0 (2 * Ldeg sample_hc + 2)))).
Proof.
  refine (proj1 (integrate_one_is_weight_sum sample_rule_cell sample_rule_face
                   sample_hc 0 0 _ _)); simpl; lia.
Defined.

Lemma faces_only_lowest_order_average_witness :
  interpolate sample_rule_cell sample_rule_face sample_basis_quad sample_gram_matrix
    sample_ldlt_solve sample_weights sample_basis sample_basis sample_hc_lowest
    sample_f 0 !! 0
  = Some (ssum (map (fun ilF =>
       (vec_get (sample_weights 0) ilF
        * (sample_basis (cell_face_index sample_mesh 0 ilF) 0
             (c0 (face_center sample_mesh (cell_face_index sample_mesh 0 ilF)))
             (c1 (face_center sample_mesh (cell_face_index sample_mesh 0 ilF)))
             (c2 (face_center sample_mesh (cell_face_index sample_mesh 0 ilF)))
           / sample_basis 0 0 (c0 (cell_center sample_mesh 0))
               (c1 (cell_center sample_mesh 0)) (c2 (cell_center sample_mesh 0)))
        * vec_get (face_block sample_rule_face sample_basis_quad sample_gram_matrix
                     sample_ldlt_solve sample_hc_lowest sample_f 0
                     (cell_face_index sample_mesh 0 ilF)) 0)%sc)
     (seq 0 (cell_n_faces sample_mesh 0)))).
Proof.
  refine (faces_only_lowest_order_average sample_rule_cell sample_rule_face
            sample_basis_quad sample_gram_matrix sample_ldlt_solve sample_weights
            sample_basis sample_basis sample_hc_lowest sample_f 0 0 _ _ _ _ _);
    try reflexivity; simpl; lia.
Defined.

Lemma faces_only_ignores_cell_rule_witness :
  sample_interpolate sample_hc_faces_only
  = interpolate sample_rule_face sample_rule_face sample_basis_quad sample_gram_matrix
      sample_ldlt_solve sample_weights sample_basis sample_basis sample_hc_faces_only
      sample_f 0.
Proof.
  refine (faces_only_ignores_cell_rule sample_rule_cell sample_rule_face
            sample_basis_quad sample_gram_matrix sample_ldlt_solve sample_weights
            sample_basis sample_basis sample_hc_faces_only sample_rule_face sample_f 0 _).
  reflexivity.
Defined.
